(** * CodeFlattener: a shallow embedding of [code_flattener.py]

    The development follows the layout of the Python module:

    - [PyStr]: the [str] methods the program calls ([replace], [strip],
      [splitlines], [join], slicing, ...);
    - [Re]: the fragment of Python's [re] syntax and backtracking semantics
      that the patterns of the program live in ([re.escape], [re.compile],
      [re.search], [re.sub], [re.findall]);
    - [OsPath]: [os.path.basename], [dirname], [splitext];
    - [CodeFlattener]: the methods of the class, one definition per method,
      with the instance attributes threaded explicitly;
    - the properties of the specification, stated on those definitions.

    Text is a list of characters.  The character classes ([isspace], the
    regular-expression classes [\w] and [\s], the line boundaries of
    [splitlines]) are the ones Python uses on the 7-bit ASCII range; a
    character above 127 is classified as a symbol (neither a word character
    nor white space nor a line boundary). *)

From Stdlib Require Import Ascii String List Bool Arith ZArith Lia.
From Stdlib Require Import DecimalString Permutation.
Import ListNotations.

Set Implicit Arguments.

(** Python [str] values. *)
Definition str := list ascii.

(** A string literal of the source. *)
Definition py (x : string) : str := list_ascii_of_string x.

(** Exceptions are modelled in the option monad: [None] is a raised
    exception. *)
Definition bind {A B : Type} (m : option A) (f : A -> option B) : option B :=
  match m with
  | Some a => f a
  | None => None
  end.

Notation "x <- m ;; k" := (bind m (fun x => k))
  (at level 61, m at next level, right associativity).

(* ================================================================== *)
(** * Python strings *)
(* ================================================================== *)

Module PyStr.

Definition LF : ascii := "010"%char.
Definition CR : ascii := "013"%char.
Definition DQ : ascii := "034"%char.

(** [ch.isspace()] on ASCII: TAB, LF, VT, FF, CR, FS, GS, RS, US, SPACE. *)
Definition isspace (c : ascii) : bool :=
  let n := nat_of_ascii c in
  ((9 <=? n) && (n <=? 13)) || ((28 <=? n) && (n <=? 31)) || (n =? 32).

(** The characters [str.splitlines] breaks a line at (ASCII range):
    LF, VT, FF, CR, FS, GS, RS. *)
Definition islinebreak (c : ascii) : bool :=
  let n := nat_of_ascii c in
  ((10 <=? n) && (n <=? 13)) || ((28 <=? n) && (n <=? 30)).

Definition isdigit (c : ascii) : bool :=
  let n := nat_of_ascii c in (48 <=? n) && (n <=? 57).

Definition isupper (c : ascii) : bool :=
  let n := nat_of_ascii c in (65 <=? n) && (n <=? 90).

Definition islower (c : ascii) : bool :=
  let n := nat_of_ascii c in (97 <=? n) && (n <=? 122).

Definition isalnum (c : ascii) : bool := isdigit c || isupper c || islower c.

(** [s.startswith(prefix)] *)
Fixpoint startswith (s prefix : str) {struct prefix} : bool :=
  match prefix, s with
  | [], _ => true
  | p :: ps, c :: cs => Ascii.eqb c p && startswith cs ps
  | _ :: _, [] => false
  end.

(** [s.endswith(suffix)] *)
Definition endswith (s suffix : str) : bool :=
  startswith (rev s) (rev suffix).

(** [s[:-1]] *)
Definition drop_last (s : str) : str := removelast s.

(** [s[1:]] *)
Definition drop_first (s : str) : str := tl s.

(** [s[:n]] for a Python integer [n]: a negative bound counts from the
    end. *)
Definition slice_to (s : str) (n : Z) : str :=
  if (0 <=? n)%Z then firstn (Z.to_nat n) s
  else firstn (Z.to_nat (Z.of_nat (length s) + n)) s.

(** [s.replace(old, new)]: the leftmost occurrences of [old], not
    overlapping.  [skip] counts the characters of the occurrence being
    replaced that are still to be passed over. *)
Fixpoint replace_go (old new : str) (skip : nat) (s : str) : str :=
  match s with
  | [] => []
  | c :: s' =>
      match skip with
      | S k => replace_go old new k s'
      | O =>
          if startswith s old
          then new ++ replace_go old new (length old - 1) s'
          else c :: replace_go old new 0 s'
      end
  end.

Definition replace (s old new : str) : str :=
  match old with
  | [] => new ++ flat_map (fun c => c :: new) s
  | _ :: _ => replace_go old new 0 s
  end.

(** [s.lstrip()], [s.rstrip()], [s.strip()] *)
Fixpoint lstrip (s : str) : str :=
  match s with
  | c :: s' => if isspace c then lstrip s' else s
  | [] => []
  end.

Definition rstrip (s : str) : str := rev (lstrip (rev s)).

Definition strip (s : str) : str := rstrip (lstrip s).

(** [s.splitlines()] *)
Fixpoint splitlines (s : str) : list str :=
  match s with
  | [] => []
  | c :: s' =>
      if Ascii.eqb c CR then
        match s' with
        | d :: s'' => if Ascii.eqb d LF then [] :: splitlines s''
                      else [] :: splitlines s'
        | [] => [[]]
        end
      else if islinebreak c then [] :: splitlines s'
      else match splitlines s' with
           | [] => [[c]]
           | l :: ls => (c :: l) :: ls
           end
  end.

(** [sep.join(parts)] *)
Fixpoint join (sep : str) (parts : list str) : str :=
  match parts with
  | [] => []
  | [p] => p
  | p :: ps => p ++ sep ++ join sep ps
  end.

(** [s.split(sep)] for a one-character separator. *)
Fixpoint split (sep : ascii) (s : str) : list str :=
  match s with
  | [] => [[]]
  | c :: s' =>
      if Ascii.eqb c sep then [] :: split sep s'
      else match split sep s' with
           | [] => [[c]]
           | l :: ls => (c :: l) :: ls
           end
  end.

(** [s.lower()] on ASCII. *)
Definition lower_char (c : ascii) : ascii :=
  if isupper c then ascii_of_nat (nat_of_ascii c + 32) else c.

Definition lower (s : str) : str := map lower_char s.

(** [str(n)] for an integer. *)
Definition of_Z (n : Z) : str := py (NilZero.string_of_int (Z.to_int n)).

(** [sorted(names)]: strings are ordered by code point. *)
Fixpoint ltb (a b : str) : bool :=
  match a, b with
  | [], [] => false
  | [], _ :: _ => true
  | _ :: _, [] => false
  | x :: a', y :: b' =>
      if (nat_of_ascii x <? nat_of_ascii y) then true
      else if (nat_of_ascii y <? nat_of_ascii x) then false
      else ltb a' b'
  end.

Section Sorting.
Variable A : Type.
Variable key : A -> str.

(** Stable insertion: [x] goes after the elements that are not greater. *)
Fixpoint insert (x : A) (l : list A) : list A :=
  match l with
  | [] => [x]
  | y :: l' => if ltb (key x) (key y) then x :: l else y :: insert x l'
  end.

Definition sorted_by (l : list A) : list A :=
  fold_right insert [] (rev l).
End Sorting.

Definition sorted (l : list str) : list str := sorted_by (fun x => x) l.

End PyStr.

(* ================================================================== *)
(** * Python floats *)
(* ================================================================== *)

(** The two places where the program leaves the integers divide one [int]
    by another: [int(a / b)] in [_process_file] and
    [f"{total_size / 1024:.1f}"] in [_generate_summary]. *)
Module PyFloat.
Import PyStr.

(** A double that is not an infinity or a NaN: [mant * 2^expo], with its
    sign. *)
Record float : Type := mkFloat { negative : bool; mant : Z; expo : Z }.

(** The integer nearest to [num / den], a tie going to the even one
    ([0 <= num], [0 < den]). *)
Definition round_half_even (num den : Z) : Z :=
  let q := (num / den)%Z in
  let r := (num mod den)%Z in
  if (2 * r <? den)%Z then q
  else if (den <? 2 * r)%Z then (q + 1)%Z
  else if Z.even q then q else (q + 1)%Z.

(** The exponent [e] with [2^e <= x / y < 2^(e+1)], for [0 < x], [0 < y]. *)
Definition binade (x y : Z) : Z :=
  let e0 := (Z.log2 x - Z.log2 y)%Z in
  if (x * 2 ^ Z.max 0 (- e0) <? y * 2 ^ Z.max 0 e0)%Z then (e0 - 1)%Z else e0.

(** [a / b] on two [int]s: the double nearest to the exact quotient (53
    significant bits, a tie going to the even one; below [2^-1022] the
    spacing of the doubles stays [2^-1074]).  The division raises
    [ZeroDivisionError] for [b = 0] and [OverflowError] when the rounded
    quotient is not below [2^1024]. *)
Definition truediv (a b : Z) : option float :=
  if (b =? 0)%Z then None
  else if (a =? 0)%Z then Some (mkFloat (b <? 0)%Z 0 0)
  else
    let x := Z.abs a in
    let y := Z.abs b in
    let e := Z.max (binade x y) (-1022) in
    let m := round_half_even (x * 2 ^ Z.max 0 (52 - e)) (y * 2 ^ Z.max 0 (e - 52)) in
    if (2 ^ 1024 <=? m * 2 ^ Z.max 0 (e - 52))%Z then None
    else Some (mkFloat (Z.sgn a * Z.sgn b <? 0)%Z m (e - 52)).

(** [int(x)]: the fraction is dropped. *)
Definition int_of_float (x : float) : Z :=
  let v := if (0 <=? expo x)%Z then (mant x * 2 ^ expo x)%Z
           else (mant x / 2 ^ (- expo x))%Z in
  if negative x then (- v)%Z else v.

(** [f"{x:.1f}"]: the decimal with one digit after the point nearest to
    the double, a tie going to the even digit. *)
Definition format_1f (x : float) : str :=
  let tenths := if (0 <=? expo x)%Z then (10 * mant x * 2 ^ expo x)%Z
                else round_half_even (10 * mant x) (2 ^ (- expo x)) in
  (if negative x then py "-" else []) ++
  of_Z (tenths / 10) ++ py "." ++ of_Z (tenths mod 10).

End PyFloat.

(* ================================================================== *)
(** * Python regular expressions *)
(* ================================================================== *)

(** The fragment of [re] the program uses: literals, backslash escapes,
    [.], character sets without ranges, the class escapes [\w \s \d] and
    their complements, [\b], [^], [$], alternation, non-capturing groups and
    the quantifiers [*], [+], [?] with their lazy forms.  [compile] returns
    [None] where Python raises [re.error] and also on syntax outside the
    fragment; matching is the backtracking search of the [sre] engine:
    leftmost, alternatives in order, greedy quantifiers longest first and
    lazy ones shortest first. *)

Module Re.
Import PyStr.

(** ** [re.escape] *)

Definition special_chars : str :=
  py "()[]{}?*+-|^$\.&~# " ++
  ["009"%char; "010"%char; "013"%char; "011"%char; "012"%char].

Definition is_special (c : ascii) : bool :=
  existsb (Ascii.eqb c) special_chars.

Definition escape_char (c : ascii) : str :=
  if is_special c then ["\"%char; c] else [c].

Definition escape (pattern : str) : str := flat_map escape_char pattern.

(** ** Abstract syntax *)

Inductive citem : Type :=
| CLit (c : ascii)
| CWord | CNotWord
| CSpace | CNotSpace
| CDigit | CNotDigit.

Inductive quant : Type := QStar | QPlus | QOpt.

Inductive regex : Type :=
| REmpty
| RLit (c : ascii)
| RAny
| RSet (neg : bool) (items : list citem)
| RSeq (a b : regex)
| RAlt (a b : regex)
| RRep (q : quant) (greedy : bool) (a : regex)
| RGroup (a : regex)
| RBol
| REol
| RWordB.

(** ** Parsing: a one-pass automaton with a stack of open groups *)

Record frame : Type := Frame {
  f_alts : list regex;   (* finished branches, last first *)
  f_cur : list regex     (* items of the branch being read, last first *)
}.

Inductive mode : Type :=
| MNorm
| MEsc
| MParen
| MParenQ
| MSetOpen
| MSet (neg : bool) (items : list citem)
| MSetEsc (neg : bool) (items : list citem).

Record pstate : Type := PState {
  p_mode : mode;
  p_top : frame;
  p_stack : list frame
}.

Fixpoint mk_seq (items : list regex) : regex :=
  match items with
  | [] => REmpty
  | [r] => r
  | r :: rs => RSeq r (mk_seq rs)
  end.

Fixpoint mk_alt (branches : list regex) : regex :=
  match branches with
  | [] => REmpty
  | [r] => r
  | r :: rs => RAlt r (mk_alt rs)
  end.

Definition close_frame (f : frame) : regex :=
  mk_alt (rev (mk_seq (rev (f_cur f)) :: f_alts f)).

Definition push_item (st : pstate) (r : regex) : pstate :=
  PState MNorm (Frame (f_alts (p_top st)) (r :: f_cur (p_top st))) (p_stack st).

(** A class escape, inside or outside a set. *)
Definition class_escape (c : ascii) : option citem :=
  if Ascii.eqb c "w" then Some CWord
  else if Ascii.eqb c "W" then Some CNotWord
  else if Ascii.eqb c "s" then Some CSpace
  else if Ascii.eqb c "S" then Some CNotSpace
  else if Ascii.eqb c "d" then Some CDigit
  else if Ascii.eqb c "D" then Some CNotDigit
  else None.

(** A character escape: [\n], [\t], ... and any escaped character that is
    not an ASCII letter or digit, which stands for itself. *)
Definition char_escape (c : ascii) : option ascii :=
  if Ascii.eqb c "n" then Some "010"%char
  else if Ascii.eqb c "t" then Some "009"%char
  else if Ascii.eqb c "r" then Some "013"%char
  else if Ascii.eqb c "f" then Some "012"%char
  else if Ascii.eqb c "v" then Some "011"%char
  else if Ascii.eqb c "a" then Some "007"%char
  else if isalnum c then None
  else Some c.

(** "nothing to repeat" after an anchor, "multiple repeat" after a
    quantifier. *)
Definition repeatable (r : regex) : bool :=
  match r with
  | RBol | REol | RWordB | RRep _ _ _ | REmpty => false
  | _ => true
  end.

Definition quantify (st : pstate) (q : quant) : option pstate :=
  match f_cur (p_top st) with
  | last :: before =>
      if repeatable last
      then Some (PState MNorm
                   (Frame (f_alts (p_top st)) (RRep q true last :: before))
                   (p_stack st))
      else None
  | [] => None
  end.

Definition question (st : pstate) : option pstate :=
  match f_cur (p_top st) with
  | RRep q true a :: before =>
      Some (PState MNorm
              (Frame (f_alts (p_top st)) (RRep q false a :: before))
              (p_stack st))
  | _ => quantify st QOpt
  end.

Definition pstep (st : pstate) (c : ascii) : option pstate :=
  match p_mode st with
  | MNorm =>
      if Ascii.eqb c "\" then Some (PState MEsc (p_top st) (p_stack st))
      else if Ascii.eqb c "(" then Some (PState MParen (p_top st) (p_stack st))
      else if Ascii.eqb c ")" then
        match p_stack st with
        | parent :: rest =>
            Some (PState MNorm
                    (Frame (f_alts parent)
                           (RGroup (close_frame (p_top st)) :: f_cur parent))
                    rest)
        | [] => None
        end
      else if Ascii.eqb c "[" then
        Some (PState MSetOpen (p_top st) (p_stack st))
      else if Ascii.eqb c "|" then
        Some (PState MNorm
                (Frame (mk_seq (rev (f_cur (p_top st))) :: f_alts (p_top st)) [])
                (p_stack st))
      else if Ascii.eqb c "*" then quantify st QStar
      else if Ascii.eqb c "+" then quantify st QPlus
      else if Ascii.eqb c "?" then question st
      else if Ascii.eqb c "^" then Some (push_item st RBol)
      else if Ascii.eqb c "$" then Some (push_item st REol)
      else if Ascii.eqb c "." then Some (push_item st RAny)
      else if Ascii.eqb c "{" then None
      else Some (push_item st (RLit c))
  | MEsc =>
      match class_escape c with
      | Some i => Some (push_item st (RSet false [i]))
      | None =>
          if Ascii.eqb c "b" then Some (push_item st RWordB)
          else match char_escape c with
               | Some x => Some (push_item st (RLit x))
               | None => None
               end
      end
  | MParen =>
      if Ascii.eqb c "?" then Some (PState MParenQ (p_top st) (p_stack st))
      else None
  | MParenQ =>
      if Ascii.eqb c ":"
      then Some (PState MNorm (Frame [] []) (p_top st :: p_stack st))
      else None
  | MSetOpen =>
      if Ascii.eqb c "^" then Some (PState (MSet true []) (p_top st) (p_stack st))
      else if Ascii.eqb c "\" then
        Some (PState (MSetEsc false []) (p_top st) (p_stack st))
      else if Ascii.eqb c "]" || Ascii.eqb c "[" || Ascii.eqb c "-" then None
      else Some (PState (MSet false [CLit c]) (p_top st) (p_stack st))
  | MSet neg items =>
      if Ascii.eqb c "]" then
        match items with
        | [] => None
        | _ :: _ => Some (push_item st (RSet neg (rev items)))
        end
      else if Ascii.eqb c "\" then
        Some (PState (MSetEsc neg items) (p_top st) (p_stack st))
      else if Ascii.eqb c "[" || Ascii.eqb c "-" then None
      else Some (PState (MSet neg (CLit c :: items)) (p_top st) (p_stack st))
  | MSetEsc neg items =>
      match class_escape c with
      | Some i => Some (PState (MSet neg (i :: items)) (p_top st) (p_stack st))
      | None =>
          match char_escape c with
          | Some x =>
              Some (PState (MSet neg (CLit x :: items)) (p_top st) (p_stack st))
          | None => None
          end
      end
  end.

Fixpoint prun (st : pstate) (s : str) : option pstate :=
  match s with
  | [] => Some st
  | c :: s' =>
      match pstep st c with
      | Some st' => prun st' s'
      | None => None
      end
  end.

Definition pinit : pstate := PState MNorm (Frame [] []) [].

Definition pfinish (st : pstate) : option regex :=
  match p_mode st, p_stack st with
  | MNorm, [] => Some (close_frame (p_top st))
  | _, _ => None
  end.

(** [re.compile(pattern)] *)
Definition compile (pattern : str) : option regex :=
  st <- prun pinit pattern ;; pfinish st.

(** ** Matching *)

Definition is_word (c : ascii) : bool := isalnum c || Ascii.eqb c "_".

Definition in_item (i : citem) (c : ascii) : bool :=
  match i with
  | CLit x => Ascii.eqb c x
  | CWord => is_word c
  | CNotWord => negb (is_word c)
  | CSpace => isspace c
  | CNotSpace => negb (isspace c)
  | CDigit => isdigit c
  | CNotDigit => negb (isdigit c)
  end.

Definition in_set (neg : bool) (items : list citem) (c : ascii) : bool :=
  xorb neg (existsb (fun i => in_item i c) items).

Definition word_opt (c : option ascii) : bool :=
  match c with
  | Some x => is_word x
  | None => false
  end.

Section Matching.
(** [re.MULTILINE] *)
Variable multiline : bool.

Definition at_bol (prev : option ascii) : bool :=
  match prev with
  | None => true
  | Some c => multiline && Ascii.eqb c LF
  end.

Definition at_eol (s : str) : bool :=
  match s with
  | [] => true
  | c :: s' => Ascii.eqb c LF && (multiline || match s' with [] => true | _ => false end)
  end.

Definition at_boundary (prev : option ascii) (s : str) : bool :=
  xorb (word_opt prev) (word_opt (hd_error s)).

(** A continuation receives the character before the position reached
    and the text from it on, and answers with the text left after the
    whole match. *)
Definition kont : Type := option ascii -> str -> option str.

(** The iterations of a repetition after the compulsory ones: [body]
    again and then the loop, or [k]; a greedy repetition tries the
    iteration first and a lazy one tries [k] first.  An iteration that
    matches the empty string is refused, so [fuel], the length of the
    text at the entry of the loop, is never exhausted by an iteration
    that could succeed. *)
Fixpoint rep_loop (body : option ascii -> str -> kont -> option str)
         (greedy : bool) (k : kont) (fuel : nat)
         (prev : option ascii) (s : str) : option str :=
  let more (_ : unit) :=
    match fuel with
    | O => None
    | S f =>
        body prev s
          (fun p' s' =>
             if length s' <? length s
             then rep_loop body greedy k f p' s'
             else None)
    end in
  if greedy then
    match more tt with
    | Some rest => Some rest
    | None => k prev s
    end
  else
    match k prev s with
    | Some rest => Some rest
    | None => more tt
    end.

(** [exec r prev s k]: match [r] at the head of [s] ([prev] is the
    character before it), then [k]. *)
Fixpoint exec (r : regex) (prev : option ascii) (s : str) (k : kont)
  {struct r} : option str :=
  match r with
  | REmpty => k prev s
  | RLit c =>
      match s with
      | x :: s' => if Ascii.eqb x c then k (Some x) s' else None
      | [] => None
      end
  | RAny =>
      match s with
      | x :: s' => if Ascii.eqb x LF then None else k (Some x) s'
      | [] => None
      end
  | RSet neg items =>
      match s with
      | x :: s' => if in_set neg items x then k (Some x) s' else None
      | [] => None
      end
  | RSeq a b => exec a prev s (fun p' s' => exec b p' s' k)
  | RAlt a b =>
      match exec a prev s k with
      | Some rest => Some rest
      | None => exec b prev s k
      end
  | RGroup a => exec a prev s k
  | RRep QStar greedy a => rep_loop (exec a) greedy k (length s) prev s
  | RRep QPlus greedy a =>
      exec a prev s
        (fun p' s' => rep_loop (exec a) greedy k (length s') p' s')
  | RRep QOpt true a =>
      match exec a prev s k with
      | Some rest => Some rest
      | None => k prev s
      end
  | RRep QOpt false a =>
      match k prev s with
      | Some rest => Some rest
      | None => exec a prev s k
      end
  | RBol => if at_bol prev then k prev s else None
  | REol => if at_eol s then k prev s else None
  | RWordB => if at_boundary prev s then k prev s else None
  end.

(** One attempt at a position; [must_advance] refuses the empty match
    there (set after an empty match at the same position). *)
Definition match_at (r : regex) (must_advance : bool)
           (prev : option ascii) (s : str) : option str :=
  exec r prev s
    (fun _ rest =>
       if must_advance && (length rest =? length s) then None
       else Some rest).

Definition match_len (r : regex) (must_advance : bool)
           (prev : option ascii) (s : str) : option nat :=
  match match_at r must_advance prev s with
  | Some rest => Some (length s - length rest)
  | None => None
  end.

(** The search for the leftmost match. *)
Fixpoint search_from (r : regex) (prev : option ascii) (s : str) : bool :=
  match match_at r false prev s with
  | Some _ => true
  | None =>
      match s with
      | [] => false
      | c :: s' => search_from r (Some c) s'
      end
  end.

(** The successive matches of [finditer]: the text is cut into the
    characters outside every match and the matches themselves. *)
Inductive piece : Type :=
| Keep (c : ascii)
| Hit (m : str).

Fixpoint scan (r : regex) (skip : nat) (prev : option ascii) (s : str)
  {struct s} : list piece :=
  match skip with
  | S n =>
      match s with
      | [] => []
      | c :: s' => scan r n (Some c) s'
      end
  | O =>
      match match_len r false prev s with
      | Some (S n) =>
          Hit (firstn (S n) s) ::
          match s with
          | [] => []
          | c :: s' => scan r n (Some c) s'
          end
      | Some O =>
          Hit [] ::
          match match_len r true prev s with
          | Some (S n) =>
              Hit (firstn (S n) s) ::
              match s with
              | [] => []
              | c :: s' => scan r n (Some c) s'
              end
          | _ =>
              match s with
              | [] => []
              | c :: s' => Keep c :: scan r 0 (Some c) s'
              end
          end
      | None =>
          match s with
          | [] => []
          | c :: s' => Keep c :: scan r 0 (Some c) s'
          end
      end
  end.

Definition pieces (r : regex) (text : str) : list piece :=
  scan r 0 None text.

End Matching.

Definition hits (ps : list piece) : list str :=
  flat_map (fun p => match p with Hit m => [m] | Keep _ => [] end) ps.

Definition rebuild (repl : str) (ps : list piece) : str :=
  flat_map (fun p => match p with Hit _ => repl | Keep c => [c] end) ps.

(** [re.search(pattern, text) is not None] *)
Definition search (pattern text : str) : option bool :=
  r <- compile pattern ;; Some (search_from false r None text).

(** [re.sub(pattern, repl, text, flags)] for a replacement without group
    references. *)
Definition sub (pattern repl text : str) (multiline : bool) : option str :=
  r <- compile pattern ;; Some (rebuild repl (pieces multiline r text)).

(** [re.findall(pattern, text)] for a pattern without capturing groups. *)
Definition findall (pattern text : str) : option (list str) :=
  r <- compile pattern ;; Some (hits (pieces false r text)).

End Re.

(* ================================================================== *)
(** * [os.path] (POSIX) *)
(* ================================================================== *)

Module OsPath.
Import PyStr.

Definition sep : ascii := "/"%char.

(** [p.rfind(c) + 1]: the length of the prefix of [p] that ends with the
    last [c], or [0]. *)
Fixpoint after_last (c : ascii) (p : str) : nat :=
  match p with
  | [] => 0
  | x :: p' =>
      match after_last c p' with
      | S n => S (S n)
      | O => if Ascii.eqb x c then 1 else 0
      end
  end.

(** [os.path.basename(p)] *)
Definition basename (p : str) : str := skipn (after_last sep p) p.

Fixpoint rstrip_sep (rev_p : str) : str :=
  match rev_p with
  | c :: r => if Ascii.eqb c sep then rstrip_sep r else rev_p
  | [] => []
  end.

(** [os.path.dirname(p)] *)
Definition dirname (p : str) : str :=
  let head := firstn (after_last sep p) p in
  if forallb (Ascii.eqb sep) head then head else rev (rstrip_sep (rev head)).

(** [os.path.join(a, b)] *)
Definition join (a b : str) : str :=
  if startswith b [sep] then b
  else match a with
       | [] => b
       | _ :: _ => if endswith a [sep] then a ++ b else a ++ sep :: b
       end.

(** [os.path.splitext(p)]: the extension starts at the last dot of the last
    component, unless that component has only dots before it. *)
Definition splitext (p : str) : str * str :=
  let sep_index := after_last sep p in          (* rfind(sep) + 1 *)
  let dot_index := after_last "."%char p in     (* rfind('.') + 1 *)
  if sep_index <? dot_index then
    let name := firstn (dot_index - 1 - sep_index) (skipn sep_index p) in
    if forallb (Ascii.eqb "."%char) name then (p, [])
    else (firstn (dot_index - 1) p, skipn (dot_index - 1) p)
  else (p, []).

End OsPath.

(* ================================================================== *)
(** * The file system seen by the program *)
(* ================================================================== *)

(** A directory lists its entries in the order [os.scandir] reports them.
    A file has the size [os.path.getsize] returns and the text [f.read()]
    returns, or [None] when opening or decoding it raises. *)
Inductive node : Type :=
| File (size : Z) (content : option str)
| Dir (entries : list (str * node)).

Definition is_dir (n : node) : bool :=
  match n with
  | Dir _ => true
  | File _ _ => false
  end.

Fixpoint lookup (A : Type) (name : str) (entries : list (str * A)) : option A :=
  match entries with
  | [] => None
  | (k, v) :: rest =>
      if list_eq_dec ascii_dec k name then Some v else lookup name rest
  end.

(* ================================================================== *)
(** * class CodeFlattener *)
(* ================================================================== *)

Module CodeFlattener.
Import PyStr.

(** @dataclass FileStats *)
Record FileStats : Type := mkFileStats {
  size : Z;
  tokens : Z;
  lines : Z
}.

Definition SUPPORTED_EXTENSIONS : list (str * str) :=
  [ (py ".py", py "python");
    (py ".js", py "javascript");
    (py ".ts", py "typescript");
    (py ".jsx", py "javascript");
    (py ".tsx", py "typescript");
    (py ".java", py "java");
    (py ".go", py "go");
    (py ".rs", py "rust");
    (py ".cpp", py "cpp");
    (py ".hpp", py "cpp");
    (py ".h", py "cpp");
    (py ".c", py "c");
    (py ".rb", py "ruby");
    (py ".php", py "php");
    (py ".sh", py "bash");
    (py ".yaml", py "yaml");
    (py ".yml", py "yaml");
    (py ".json", py "json");
    (py ".md", py "markdown");
    (py ".txt", py "text") ].

(** The class variables [max_file_size] and [max_token_length]. *)
Record config : Type := mkConfig {
  max_file_size : Z;
  max_token_length : Z
}.

Definition default_config : config := mkConfig (1024 * 1024) 100000.

(** The attributes [file_stats] (a dict in insertion order) and
    [flattened_content]. *)
Record state : Type := mkState {
  file_stats : list (str * FileStats);
  flattened_content : list str
}.

(** [d[k] = v] *)
Fixpoint dict_set (A : Type) (k : str) (v : A) (d : list (str * A))
  : list (str * A) :=
  match d with
  | [] => [(k, v)]
  | (k', v') :: rest =>
      if list_eq_dec ascii_dec k' k then (k, v) :: rest
      else (k', v') :: dict_set k v rest
  end.

(** ** _glob_to_regex *)

Definition _glob_to_regex (pattern : str) : str :=
  match pattern with
  | [] => []
  | _ :: _ =>
      (* Escape all special regex characters except * and ? *)
      let pattern :=
        replace (replace (Re.escape pattern) (py "\*") (py "*"))
                (py "\?") (py "?") in
      (* Convert glob patterns to regex patterns *)
      let pattern := replace pattern (py "**") (py ".*") in
      let pattern := replace pattern (py "*") (py "[^/]*") in
      let pattern := replace pattern (py "?") (py "[^/]") in
      (* Handle directory patterns *)
      let pattern :=
        if endswith pattern (py "/")
        then drop_last pattern ++ py "(?:/.*)?"
        else pattern in
      (* Handle path anchoring *)
      let pattern :=
        if startswith pattern (py "/")
        then py "^" ++ drop_first pattern
        else py "(?:^|/)" ++ pattern in
      pattern ++ py "$"
  end.

(** ** _load_gitignore *)

Definition default_patterns : list str :=
  [ py "\.git(?:/.*)?";
    py "\.idea(?:/.*)?";
    py "__pycache__(?:/.*)?";
    py ".*\.pyc";
    py ".*\.log";
    py "\.env";
    py ".*venv(?:/.*)?";
    py "node_modules(?:/.*)?";
    py "dist(?:/.*)?";
    py "build(?:/.*)?" ].

(** The loop over the lines of the file: [gitignore_patterns]. *)
Fixpoint gitignore_lines (file_lines : list str) : list str :=
  match file_lines with
  | [] => []
  | line :: rest =>
      let line := strip line in
      match line with
      | [] => gitignore_lines rest
      | _ :: _ =>
          if startswith line (py "#") then gitignore_lines rest
          else if startswith line (py "!") then gitignore_lines rest
          else _glob_to_regex line :: gitignore_lines rest
      end
  end.

(** [gitignore] is the entry [.gitignore] of the root directory, if any;
    the result is [all_ignore_patterns].  Without the file the method
    returns before the list is assigned and it stays empty. *)
Definition _load_gitignore (gitignore : option node) (ignore_patterns : list str)
  : option (list str) :=
  match gitignore with
  | None => Some []
  | Some (Dir _) => None
  | Some (File _ None) => None
  | Some (File _ (Some text)) =>
      let gitignore_patterns := gitignore_lines (split LF text) in
      let converted_ignores := map _glob_to_regex ignore_patterns in
      Some (default_patterns ++ gitignore_patterns ++ converted_ignores)
  end.

(** ** _should_ignore

    [relative_path] is [os.path.relpath(path, root_dir)]; [path] and
    [relative_path] have the same last component. *)
Fixpoint _should_ignore (all_ignore_patterns : list str) (relative_path : str)
  : option bool :=
  match all_ignore_patterns with
  | [] => Some false
  | pattern :: rest =>
      m <- Re.search pattern relative_path ;;
      if (m : bool) then Some true
      else
        m <- Re.search pattern (OsPath.basename relative_path) ;;
        if (m : bool) then Some true
        else _should_ignore rest relative_path
  end.

(** ** _get_language_specific_patterns *)

Record grammar : Type := mkGrammar {
  single_line : str;
  multi_line : list str
}.

Definition c_style : grammar :=
  mkGrammar (py "//.*$") [py "/\*[\s\S]*?\*/"].

Definition patterns : list (str * grammar) :=
  [ (py "python",
     mkGrammar (py "#.*$")
       [ [DQ; DQ; DQ] ++ py "[\s\S]*?" ++ [DQ; DQ; DQ];
         py "'''[\s\S]*?'''" ]);
    (py "javascript", c_style);
    (py "typescript", c_style);
    (py "java", c_style);
    (py "go", c_style);
    (py "rust", c_style);
    (py "ruby", mkGrammar (py "#.*$") [py "=begin[\s\S]*?=end"]) ].

Definition language_tag (extension : str) : str :=
  match lookup extension SUPPORTED_EXTENSIONS with
  | Some tag => tag
  | None => py "text"
  end.

Definition _get_language_specific_patterns (extension : str) : option grammar :=
  lookup (language_tag extension) patterns.

(** ** _clean_code *)

Fixpoint remove_all (multi : list str) (code : str) : option str :=
  match multi with
  | [] => Some code
  | pattern :: rest =>
      code <- Re.sub pattern [] code false ;;
      remove_all rest code
  end.

(** The grammar step: comments out. *)
Definition strip_comments (g : option grammar) (code : str) : option str :=
  match g with
  | Some g =>
      (* Remove single-line comments *)
      code <- Re.sub (single_line g) [] code true ;;
      (* Remove multi-line comments *)
      remove_all (multi_line g) code
  | None => Some code
  end.

(** Remove empty lines but preserve indentation. *)
Definition clean_lines (code : str) : str :=
  join [LF]
    (map rstrip (filter (fun line => negb (length (strip line) =? 0))
                        (splitlines code))).

Definition _clean_code (code file_path : str) : option str :=
  let extension := lower (snd (OsPath.splitext file_path)) in
  let patterns := _get_language_specific_patterns extension in
  code <- strip_comments patterns code ;;
  Some (clean_lines code).

(** ** _estimate_tokens *)

Definition _estimate_tokens (text : str) : option Z :=
  words <- Re.findall (py "\b\w+\b") text ;;
  symbols <- Re.findall (py "[^\w\s]") text ;;
  Some (Z.of_nat (length words) + Z.of_nat (length symbols))%Z.

(** ** _process_file *)

Definition truncation_marker : str :=
  LF :: py "# ... (truncated due to token limit) ...".

(** [int(a / b)] *)
Definition int_div (a b : Z) : option Z :=
  x <- PyFloat.truediv a b ;;
  Some (PyFloat.int_of_float x).

(** The truncation step of [_process_file]. *)
Definition truncate (cfg : config) (cleaned_content : str) (tokens : Z)
  : option str :=
  if (tokens >? max_token_length cfg)%Z then
    n <- int_div (Z.of_nat (length cleaned_content) * max_token_length cfg) tokens ;;
    Some (slice_to cleaned_content n ++ truncation_marker)
  else Some cleaned_content.

(** The text appended to [flattened_content]. *)
Definition section (relative_path cleaned_content : str) : str :=
  py "### File: " ++ relative_path ++ [LF] ++
  py "```python" ++ [LF] ++
  cleaned_content ++ [LF] ++
  py "```" ++ [LF].

(** The body of the [try] block; [None] is an exception reaching the
    [except] clause. *)
Definition process_file_body (cfg : config) (relative_path : str)
           (file_size : Z) (content : option str) (st : state) : option state :=
  let extension := lower (snd (OsPath.splitext relative_path)) in
  match lookup extension SUPPORTED_EXTENSIONS with
  | None => Some st
  | Some _ =>
      if (file_size >? max_file_size cfg)%Z then Some st
      else
        content <- content ;;
        cleaned_content <- _clean_code content relative_path ;;
        match cleaned_content with
        | [] => Some st
        | _ :: _ =>
            tokens <- _estimate_tokens cleaned_content ;;
            cleaned_content <- truncate cfg cleaned_content tokens ;;
            Some (mkState
                    (dict_set relative_path
                       (mkFileStats file_size tokens
                          (Z.of_nat (length (splitlines cleaned_content))))
                       (file_stats st))
                    (flattened_content st ++
                     [section relative_path cleaned_content]))
        end
  end.

Definition _process_file (cfg : config) (relative_path : str)
           (file_size : Z) (content : option str) (st : state) : state :=
  match process_file_body cfg relative_path file_size content st with
  | Some st' => st'
  | None => st
  end.

(** ** _generate_project_structure *)

(** The three characters U+00F0 U+0178 U+201C of the source literal, as
    the bytes the output file holds for them (UTF-8). *)
Definition folder_icon : str :=
  ["195"; "176"; "197"; "184"; "226"; "128"; "156"]%char.

(** The same three characters and U+201E. *)
Definition page_icon : str :=
  folder_icon ++ ["226"; "128"; "158"]%char.

(** [s * n] *)
Definition times (s : str) (n : nat) : str := concat (repeat s n).

Definition folder_line (current_dir : str) : str :=
  let depth := length (split OsPath.sep current_dir) in
  times (py "  ") (depth - 1) ++ folder_icon ++ py " " ++
  OsPath.basename current_dir ++ py "/".

Definition file_line (file_path : str) (stats : FileStats) : str :=
  let parts := split OsPath.sep file_path in
  let depth := length parts - 1 in
  times (py "  ") depth ++ page_icon ++ py " " ++
  OsPath.basename file_path ++ py " (" ++
  of_Z (lines stats) ++ py " lines, ~" ++
  of_Z (tokens stats) ++ py " tokens)".

Definition same_dir (last_dir : option str) (current_dir : str) : bool :=
  match last_dir with
  | Some d => if list_eq_dec ascii_dec d current_dir then true else false
  | None => false
  end.

(** One round of the loop, on the pair [(structure, last_dir)]. *)
Definition structure_step (acc : list str * option str)
           (item : str * FileStats) : list str * option str :=
  let (structure, last_dir) := acc in
  let (file_path, stats) := item in
  let current_dir := OsPath.dirname file_path in
  let (structure, last_dir) :=
    if same_dir last_dir current_dir then (structure, last_dir)
    else
      (match current_dir with
       | [] => structure
       | _ :: _ => structure ++ [folder_line current_dir]
       end, Some current_dir) in
  (structure ++ [file_line file_path stats], last_dir).

(** The loop [for file_path in sorted(self.file_stats.keys())] with
    [stats = self.file_stats[file_path]] runs over the items of the dict in
    the order of their keys. *)
Definition structure_lines (st : state) : list str :=
  fst (fold_left structure_step (sorted_by fst (file_stats st)) ([], None)).

Definition _generate_project_structure (st : state) : str :=
  join [LF] (structure_lines st).

(** ** _generate_summary *)

Definition sum (l : list Z) : Z := fold_right Z.add 0%Z l.

Definition total_files (st : state) : Z := Z.of_nat (length (file_stats st)).
Definition total_lines (st : state) : Z :=
  sum (map (fun kv => lines (snd kv)) (file_stats st)).
Definition total_tokens (st : state) : Z :=
  sum (map (fun kv => tokens (snd kv)) (file_stats st)).
Definition total_size (st : state) : Z :=
  sum (map (fun kv => size (snd kv)) (file_stats st)).

(** [f"{total_size / 1024:.1f}"] *)
Definition format_kb (total_size : Z) : option str :=
  x <- PyFloat.truediv total_size 1024 ;;
  Some (PyFloat.format_1f x).

Definition _generate_summary (st : state) : option str :=
  kb <- format_kb (total_size st) ;;
  Some (py "## Project Summary" ++ [LF; LF] ++
        py "- Total files processed: " ++ of_Z (total_files st) ++ [LF] ++
        py "- Total lines of code: " ++ of_Z (total_lines st) ++ [LF] ++
        py "- Estimated total tokens: " ++ of_Z (total_tokens st) ++ [LF] ++
        py "- Total size: " ++ kb ++ py " KB" ++ [LF]).

(** ** save_output: the text written to the output file *)

Definition header : str :=
  py "# Codebase Flattened for Agentic Workflow" ++ [LF; LF] ++
  py "This file contains the project's source code, optimized for token efficiency:" ++ [LF] ++
  py "- Comments and docstrings have been removed" ++ [LF] ++
  py "- Empty lines have been cleaned up" ++ [LF] ++
  py "- Large files have been truncated" ++ [LF] ++
  py "- Only relevant file types are included" ++ [LF; LF].

Definition source_code (st : state) : str :=
  LF :: LF :: py "## Source Code" ++ [LF; LF] ++
  py "Each file is demarcated by a header showing its relative path." ++ [LF; LF] ++
  py "--------------------" ++ [LF; LF] ++
  join [LF] (flattened_content st).

Definition save_output (st : state) : option str :=
  summary <- _generate_summary st ;;
  Some (header ++
        summary ++
        (LF :: py "## Project Structure" ++ [LF; LF]) ++
        _generate_project_structure st ++
        source_code st).

(** ** flatten *)

Fixpoint foldM (A B : Type) (f : B -> A -> option B) (l : list A) (b : B)
  : option B :=
  match l with
  | [] => Some b
  | a :: l' => b' <- f b a ;; foldM f l' b'
  end.

Fixpoint filterM (A : Type) (f : A -> option bool) (l : list A)
  : option (list A) :=
  match l with
  | [] => Some []
  | a :: l' =>
      keep <- f a ;;
      rest <- filterM f l' ;;
      Some (if (keep : bool) then a :: rest else rest)
  end.

Section Walk.
Variable cfg : config.
Variable all_ignore_patterns : list str.

(** The body of [for filename in sorted(filenames)]. *)
Definition visit_file (dirpath : str) (st : state) (e : str * node)
  : option state :=
  let file_path := OsPath.join dirpath (fst e) in
  ignored <- _should_ignore all_ignore_patterns file_path ;;
  if (ignored : bool) then Some st
  else match snd e with
       | File file_size content =>
           Some (_process_file cfg file_path file_size content st)
       | Dir _ => Some st
       end.

Definition keep_dir (A : Type) (dirpath : str) (d : str * A) : option bool :=
  ignored <- _should_ignore all_ignore_patterns (OsPath.join dirpath (fst d)) ;;
  Some (negb ignored).

(** [os.walk] top-down from the directory [n], whose path below the root
    is [dirpath] (empty for the root itself).  Each subdirectory is paired
    with the walk of its subtree; the pairs that survive the pruning are
    run in the order of their names, after the files of the directory. *)
Fixpoint walk (dirpath : str) (n : node) {struct n} : state -> option state :=
  match n with
  | File _ _ => fun st => Some st
  | Dir entries =>
      let subdirs :=
        (fix descend (es : list (str * node))
           : list (str * (state -> option state)) :=
           match es with
           | [] => []
           | (name, child) :: rest =>
               match child with
               | Dir _ =>
                   (name, walk (OsPath.join dirpath name) child)
                     :: descend rest
               | File _ _ => descend rest
               end
           end) entries in
      let filenames := filter (fun e => negb (is_dir (snd e))) entries in
      fun st =>
        (* dirnames[:] = [d for d in dirnames if not self._should_ignore(...)] *)
        dirnames <- filterM (keep_dir dirpath) subdirs ;;
        let dirnames := sorted_by fst dirnames in
        st <- foldM (visit_file dirpath) (sorted_by fst filenames) st ;;
        foldM (fun st d => snd d st) dirnames st
  end.
End Walk.

(** [flatten()] on the tree below [root_dir]; the result is the final
    state and the text of the output file. *)
Definition flatten (cfg : config) (ignore_patterns : list str) (root : node)
  : option (state * str) :=
  match root with
  | File _ _ => None
  | Dir entries =>
      all_ignore_patterns <-
        _load_gitignore (lookup (py ".gitignore") entries) ignore_patterns ;;
      st <- walk cfg all_ignore_patterns [] root (mkState [] []) ;;
      doc <- save_output st ;;
      Some (st, doc)
  end.

End CodeFlattener.

(* ================================================================== *)
(** * The instance and the command line *)
(* ================================================================== *)

(** The methods above take the attributes they read as arguments.  Here
    the attributes of one instance are kept together, so that what a
    second call finds is what the first one left; [main] is the entry of
    the command line.  [None] is a raised exception. *)

Module Cli.
Import PyStr CodeFlattener.

(** The attributes of an instance; [report] holds [file_stats] and
    [flattened_content]. *)
Record flattener : Type := mkFlattener {
  ignore_patterns : list str;
  gitignore_patterns : list str;
  all_ignore_patterns : list str;
  report : state
}.

(** [CodeFlattener(root_dir, output_file, ignore_patterns)]; [root] is
    what the resolved [root_dir] names: nothing (FileNotFoundError), a
    file (NotADirectoryError) or a directory. *)
Definition __init__ (root : option node) (ignore_patterns : option (list str))
  : option flattener :=
  match root with
  | None => None
  | Some (File _ _) => None
  | Some (Dir _) =>
      Some (mkFlattener
              (match ignore_patterns with Some l => l | None => [] end)
              [] [] (mkState [] []))
  end.

(** [self._load_gitignore()]: the patterns of the file are appended to
    [gitignore_patterns], which no method clears. *)
Definition _load_gitignore (gitignore : option node) (self : flattener)
  : option flattener :=
  match gitignore with
  | None => Some self
  | Some (Dir _) => None
  | Some (File _ None) => None
  | Some (File _ (Some text)) =>
      let gitignore_patterns :=
        gitignore_patterns self ++ gitignore_lines (split LF text) in
      let converted_ignores := map _glob_to_regex (ignore_patterns self) in
      Some (mkFlattener (ignore_patterns self) gitignore_patterns
              (default_patterns ++ gitignore_patterns ++ converted_ignores)
              (report self))
  end.

(** [self.save_output()]: the text written to the output file;
    [writable] tells whether the directory of the output file passes
    [os.access] and the file can be opened for writing. *)
Definition save_output (writable : bool) (self : flattener) : option str :=
  if writable then CodeFlattener.save_output (report self) else None.

(** [self.flatten()] when [root_dir] names the tree [root]. *)
Definition flatten (cfg : config) (root : node) (writable : bool)
           (self : flattener) : option (flattener * str) :=
  let entries := match root with Dir entries => entries | File _ _ => [] end in
  self <- _load_gitignore (lookup (py ".gitignore") entries) self ;;
  (* self.flattened_content = []; self.file_stats.clear() *)
  st <- walk cfg (all_ignore_patterns self) [] root (mkState [] []) ;;
  let self :=
    mkFlattener (ignore_patterns self) (gitignore_patterns self)
                (all_ignore_patterns self) st in
  doc <- save_output writable self ;;
  Some (self, doc).

(** [[p.strip() for p in args.ignore.split(',')]], or the empty list when
    the option is absent or empty. *)
Definition parse_ignore (ignore : option str) : list str :=
  match ignore with
  | None => []
  | Some [] => []
  | Some (c :: s) => map strip (split ","%char (c :: s))
  end.


End Cli.

(* ================================================================== *)
(** * Definitions for the statements and their proofs *)
(* ================================================================== *)

Import PyStr CodeFlattener Re.

Unset Implicit Arguments.

(** ** Token estimates *)

Definition word_re : regex :=
  RSeq RWordB (RSeq (RRep QPlus true (RSet false [CWord])) RWordB).
Definition symbol_re : regex := RSet true [CWord; CSpace].

Fixpoint span_word (s : str) : nat :=
  match s with
  | c :: s' => if is_word c then S (span_word s') else 0
  | [] => 0
  end.

Fixpoint word_runs (inword : bool) (s : str) : nat :=
  match s with
  | [] => 0
  | c :: s' =>
      if is_word c then (if inword then 0 else 1) + word_runs true s'
      else word_runs false s'
  end.

Definition is_symbol (c : ascii) : bool := in_set true [CWord; CSpace] c.

Definition count_symbols (s : str) : nat := length (filter is_symbol s).

(** The matcher of a one-character item. *)
Definition char_body (f : ascii -> bool) : option ascii -> str -> kont -> option str :=
  fun _ s k =>
    match s with
    | x :: s' => if f x then k (Some x) s' else None
    | [] => None
    end.

Definition token_count (text : str) : Z :=
  (Z.of_nat (word_runs false text) + Z.of_nat (count_symbols text))%Z.

(** ** Line cleaning *)

Definition nonblank (line : str) : bool := negb (length (strip line) =? 0).
Definition unbroken (line : str) : bool := forallb (fun c => negb (islinebreak c)) line.

(** The lines [clean_lines] keeps. *)
Definition kept_lines (code : str) : list str :=
  map rstrip (filter (fun line => negb (length (strip line) =? 0)) (splitlines code)).

(** ** Glob translation *)

(** The atoms of a translated glob. *)
Inductive gtok : Type :=
| TChar (c : ascii)     (* a character other than the wildcards, escaped if special *)
| TDot                  (* the dot left of a doubled star *)
| TAny                  (* ? *)
| TStar.                (* a star *)

Definition render (t : gtok) : str :=
  match t with
  | TChar c => escape_char c
  | TDot => py "."
  | TAny => py "[^/]"
  | TStar => py "[^/]*"
  end.

Fixpoint glob_tokens (p : str) : list gtok :=
  match p with
  | [] => []
  | c :: p' =>
      if Ascii.eqb c "*" then
        match p' with
        | d :: p'' =>
            if Ascii.eqb d "*" then TDot :: TStar :: glob_tokens p''
            else TStar :: glob_tokens p'
        | [] => [TStar]
        end
      else if Ascii.eqb c "?" then TAny :: glob_tokens p'
      else TChar c :: glob_tokens p'
  end.

Definition render_all (ts : list gtok) : str := flat_map render ts.

Ltac special_in := unfold special_chars; simpl; tauto.

(** The text after the escaping and the two un-escapings, character by
    character. *)
Definition r1 (c : ascii) : str := if Ascii.eqb c "*" then py "*" else escape_char c.
Definition r2 (c : ascii) : str :=
  if Ascii.eqb c "*" then py "*" else if Ascii.eqb c "?" then py "?" else escape_char c.

(** After the doubled stars: the tokens with the stars still bare. *)
Definition render3 (t : gtok) : str :=
  match t with
  | TChar c => escape_char c
  | TDot => py "."
  | TAny => py "?"
  | TStar => py "*"
  end.

(** The tokens of a glob hold no wildcard character. *)
Definition plain_tok (t : gtok) : bool :=
  match t with
  | TChar c => negb (Ascii.eqb c "*") && negb (Ascii.eqb c "?")
  | _ => true
  end.

Definition star_out (c : ascii) : str := if Ascii.eqb c "*" then py "[^/]*" else [c].
Definition quest_out (c : ascii) : str := if Ascii.eqb c "?" then py "[^/]" else [c].

(** The text of the pattern before the directory and anchoring steps. *)
Definition glob_body (pattern : str) : str :=
  replace
    (replace
       (replace
          (replace (replace (escape pattern) (py "\*") (py "*")) (py "\?") (py "?"))
          (py "**") (py ".*"))
       (py "*") (py "[^/]*"))
    (py "?") (py "[^/]").

(** A state between two items, outside any set or escape. *)
Definition ready (st st' : pstate) : Prop :=
  p_mode st' = MNorm /\ p_stack st' = p_stack st.

(** ** Trees, paths and the traversal *)

(** Names of directory entries: not empty, without separator. *)
Definition valid_name (name : str) : bool :=
  match name with
  | [] => false
  | _ :: _ => forallb (fun c => negb (Ascii.eqb c OsPath.sep)) name
  end.

Fixpoint distinct (names : list str) : bool :=
  match names with
  | [] => true
  | n :: rest =>
      negb (existsb (fun m => if list_eq_dec ascii_dec m n then true else false) rest)
      && distinct rest
  end.

(** A tree as a file system holds it: in every directory the names are
    valid and distinct. *)
Fixpoint wf_node (n : node) : bool :=
  match n with
  | File _ _ => true
  | Dir entries =>
      forallb valid_name (map fst entries) && distinct (map fst entries) &&
      (fix all (es : list (str * node)) : bool :=
         match es with
         | [] => true
         | (_, child) :: rest => wf_node child && all rest
         end) entries
  end.

(** The path of a chain of names below the root. *)
Definition path_of (segs : list str) : str := fold_left OsPath.join segs [].

(** A file the traversal turned into a record. *)
Record filerec : Type := mkRec {
  r_segs : list str;
  r_stats : FileStats;
  r_body : str
}.

Definition r_key (r : filerec) : str := path_of (r_segs r).

Definition add_record (st : state) (r : filerec) : state :=
  mkState (dict_set (r_key r) (r_stats r) (file_stats st))
          (flattened_content st ++ [section (r_key r) (r_body r)]).

(** The subdirectories of a listing, each paired with its walk. *)
Definition subdir_walks (cfg : config) (rules : list str) (dirpath : str)
           (entries : list (str * node)) : list (str * (state -> option state)) :=
  flat_map
    (fun e => match snd e with
              | Dir _ => [(fst e, walk cfg rules (OsPath.join dirpath (fst e)) (snd e))]
              | File _ _ => []
              end) entries.

(** What [_process_file] has done for a record: the extension of the
    path is supported, the size within the limit, the normalized content
    not empty; the tokens are the estimate of the normalized content, the
    body is what the truncation step returns for it, and the lines are
    those of the body. *)
Definition rec_made (cfg : config) (r : filerec) : Prop :=
  exists tag content cleaned,
    lookup (lower (snd (OsPath.splitext (r_key r)))) SUPPORTED_EXTENSIONS = Some tag /\
    (size (r_stats r) <= max_file_size cfg)%Z /\
    _clean_code content (r_key r) = Some cleaned /\ cleaned <> [] /\
    _estimate_tokens cleaned = Some (tokens (r_stats r)) /\
    truncate cfg cleaned (tokens (r_stats r)) = Some (r_body r) /\
    lines (r_stats r) = Z.of_nat (length (splitlines (r_body r))).

(** A record of the traversal below the directory [dsegs]: a chain of
    valid names none of whose prefixes is ignored. *)
Definition rec_good (cfg : config) (rules : list str) (dsegs : list str)
           (r : filerec) : Prop :=
  exists rest,
    r_segs r = dsegs ++ rest /\ rest <> [] /\
    forallb valid_name rest = true /\
    rec_made cfg r /\
    forall k, 0 < k <= length rest ->
      _should_ignore rules (path_of (dsegs ++ firstn k rest)) = Some false.

(** A walk below [dsegs] adds good records with distinct chains. *)
Definition walk_ok (cfg : config) (rules : list str) (dsegs : list str)
           (w : state -> option state) : Prop :=
  forall st st', w st = Some st' ->
  exists recs,
    st' = fold_left add_record recs st /\
    Forall (rec_good cfg rules dsegs) recs /\
    NoDup (map r_segs recs).

(** ** The whole traversal, the report and the rule set *)

Definition rec_entry (r : filerec) : str * FileStats := (r_key r, r_stats r).
Definition rec_section (r : filerec) : str := section (r_key r) (r_body r).

(** ** No pattern of the rule set raises *)
Definition compiles (pattern : str) : Prop := exists r, Re.compile pattern = Some r.

(** ** An example tree *)

Definition example_tree : node :=
  Dir [ (py "temp", Dir [ (py "x.py", File 5 (Some (py "x = 1"))) ]);
        (py ".gitignore", File 6 (Some (py "temp/")));
        (py "src", Dir [ (py "m.js", File 20 (Some (py "f(1); // one"))) ]);
        (py "a.txt", File 11 (Some (py "hello world"))) ].

(** ** The C-style comment grammar *)

(** The two patterns of the C-style grammar, compiled. *)
Definition line_re : regex :=
  RSeq (RLit "/") (RSeq (RLit "/") (RSeq (RRep QStar true RAny) REol)).

Definition block_re : regex :=
  RSeq (RLit "/")
    (RSeq (RLit "*")
       (RSeq (RRep QStar false (RSet false [CSpace; CNotSpace]))
          (RSeq (RLit "*") (RLit "/")))).

(** The text from the end of the line on. *)
Fixpoint line_rest (v : str) : str :=
  match v with
  | [] => []
  | c :: v' => if Ascii.eqb c LF then v else line_rest v'
  end.

(** The text after the first star-slash, if there is one. *)
Fixpoint after_close (v : str) : option str :=
  match v with
  | [] => None
  | c :: v' =>
      if Ascii.eqb c "*" && startswith v' (py "/") then Some (tl v')
      else after_close v'
  end.

Fixpoint has_dslash (u : str) : bool :=
  match u with
  | [] => false
  | _ :: u' => startswith u (py "//") || has_dslash u'
  end.

Fixpoint closes (u : str) : bool :=
  match u with
  | [] => false
  | _ :: u' => startswith u (py "*/") || closes u'
  end.

(** A block comment starts at the head of [t]. *)
Definition opens_here (t : str) : bool :=
  startswith t (py "/*") && closes (skipn 2 t).

Fixpoint has_pair (u : str) : bool :=
  match u with
  | [] => false
  | _ :: u' => opens_here u || has_pair u'
  end.

Definition sub_line (u : str) : str := rebuild [] (pieces true line_re u).
Definition sub_block (u : str) : str := rebuild [] (pieces false block_re u).

(** ** Automata on texts

    A deterministic automaton reads a text character by character;
    [reset] is what a white space character does to a state. *)
Section Automaton.
Variable state : Type.
Variable step : state -> ascii -> state.
Variable reset : state -> state.

Definition run (q : state) (s : str) : state := fold_left step s q.

Definition run_lines (q : state) (L : list str) : state :=
  fold_left (fun q l => reset (run q l)) L q.

End Automaton.

(** The automaton of the double slash. *)
Inductive dstate : Type := D0 | D1 | D2.

Definition dstep (q : dstate) (c : ascii) : dstate :=
  match q with
  | D0 => if Ascii.eqb c "/" then D1 else D0
  | D1 => if Ascii.eqb c "/" then D2 else D0
  | D2 => D2
  end.

Definition dreset (q : dstate) : dstate :=
  match q with D1 => D0 | _ => q end.

Definition daccept (q : dstate) : bool :=
  match q with D2 => true | _ => false end.

Definition dlang (q : dstate) (s : str) : bool :=
  match q with
  | D0 => has_dslash s
  | D1 => startswith s (py "/") || has_dslash s
  | D2 => true
  end.

(** The automaton of a slash-star followed by a star-slash. *)
Inductive bstate : Type := B0 | B1 | B2 | B3 | B4.

Definition bstep (q : bstate) (c : ascii) : bstate :=
  match q with
  | B0 => if Ascii.eqb c "/" then B1 else B0
  | B1 => if Ascii.eqb c "*" then B2 else if Ascii.eqb c "/" then B1 else B0
  | B2 => if Ascii.eqb c "*" then B3 else B2
  | B3 => if Ascii.eqb c "/" then B4 else if Ascii.eqb c "*" then B3 else B2
  | B4 => B4
  end.

Definition breset (q : bstate) : bstate :=
  match q with B1 => B0 | B3 => B2 | _ => q end.

Definition baccept (q : bstate) : bool :=
  match q with B4 => true | _ => false end.

Definition blang (q : bstate) (s : str) : bool :=
  match q with
  | B0 => has_pair s
  | B1 => (startswith s (py "*") && closes (tl s)) || has_pair s
  | B2 => closes s
  | B3 => startswith s (py "/") || closes s
  | B4 => true
  end.

(** ** What a pattern matches *)

(** A position in a text: the character before it and the text from it
    on. *)
Definition pos : Type := (option ascii * str)%type.

(** The iterations of a repetition: each one moves forward. *)
Inductive reps (R : pos -> pos -> Prop) : pos -> pos -> Prop :=
| reps_done x : reps R x x
| reps_more x y z :
    R x y -> length (snd y) < length (snd x) -> reps R y z -> reps R x z.

Section Semantics.
(** [re.MULTILINE] *)
Variable multiline : bool.

(** [matches r a b]: the pattern [r] can match the text between the
    positions [a] and [b]. *)
Fixpoint matches (r : regex) (a b : pos) {struct r} : Prop :=
  match r with
  | REmpty => b = a
  | RLit c => snd a = c :: snd b /\ fst b = Some c
  | RAny =>
      exists x, snd a = x :: snd b /\ fst b = Some x /\ Ascii.eqb x LF = false
  | RSet neg items =>
      exists x, snd a = x :: snd b /\ fst b = Some x /\ in_set neg items x = true
  | RSeq r1 r2 => exists m, matches r1 a m /\ matches r2 m b
  | RAlt r1 r2 => matches r1 a b \/ matches r2 a b
  | RRep QStar _ r1 => reps (matches r1) a b
  | RRep QPlus _ r1 => exists m, matches r1 a m /\ reps (matches r1) m b
  | RRep QOpt _ r1 => b = a \/ matches r1 a b
  | RGroup r1 => matches r1 a b
  | RBol => at_bol multiline (fst a) = true /\ b = a
  | REol => at_eol multiline (snd a) = true /\ b = a
  | RWordB => at_boundary (fst a) (snd a) = true /\ b = a
  end.

End Semantics.

(** The character before the position reached after [a]. *)
Definition prev_of (p : option ascii) (a : str) : option ascii :=
  last (map Some a) p.

(** ** The pattern a glob compiles to *)

Definition tok_regex (t : gtok) : regex :=
  match t with
  | TChar c => RLit c
  | TDot => RAny
  | TAny => RSet true [CLit "/"]
  | TStar => RRep QStar true (RSet true [CLit "/"])
  end.

(** The group after the name of a directory rule. *)
Definition dir_suffix : regex :=
  RRep QOpt true (RGroup (RSeq (RLit "/") (RRep QStar true RAny))).

(** The start of the text or a separator. *)
Definition any_start : regex := RGroup (RAlt RBol (RLit "/")).

Definition glob_regex (anchored : bool) (ts : list gtok) (dir : bool) : regex :=
  mk_seq ((if anchored then RBol else any_start) ::
          map tok_regex ts ++ (if dir then [dir_suffix] else []) ++ [REol]).

(** The directory step: a final separator goes. *)
Definition strip_dir (ts : list gtok) : list gtok * bool :=
  match rev ts with
  | TChar c :: r => if Ascii.eqb c "/" then (rev r, true) else (ts, false)
  | _ => (ts, false)
  end.

(** The anchoring step: a leading separator goes. *)
Definition strip_anchor (ts : list gtok) : bool * list gtok :=
  match ts with
  | TChar c :: ts' => if Ascii.eqb c "/" then (true, ts') else (false, ts)
  | _ => (false, ts)
  end.

Definition glob_compiled (g : str) : regex :=
  let (ts, dir) := strip_dir (glob_tokens g) in
  let (anchored, ts) := strip_anchor ts in
  glob_regex anchored ts dir.

(** A sequence of patterns, one after the other. *)
Fixpoint seq_matches (multiline : bool) (rs : list regex) (a b : pos) : Prop :=
  match rs with
  | [] => b = a
  | r :: rs' => exists m, matches multiline r a m /\ seq_matches multiline rs' m b
  end.

(** ** Paths *)

(** A text without separator. *)
Definition sepfree (s : str) : bool :=
  forallb (fun c => negb (Ascii.eqb c OsPath.sep)) s.

(** A text without line feed. *)
Definition one_line (s : str) : bool :=
  forallb (fun c => negb (Ascii.eqb c LF)) s.

(** A text without wildcard. *)
Definition wildfree (s : str) : bool :=
  forallb (fun c => negb (Ascii.eqb c "*") && negb (Ascii.eqb c "?")) s.

(** The rules made of a name, with or without a leading separator, a
    leading star and a final separator. *)
Definition simple_glob (anchored star : bool) (w : str) (dir : bool) : str :=
  (if anchored then py "/" else []) ++ (if star then py "*" else []) ++ w ++
  (if dir then py "/" else []).

(** The verdict of one attempt of [re.search], for a pattern that
    compiles. *)
Definition found (pattern text : str) : bool :=
  match Re.search pattern text with
  | Some v => v
  | None => false
  end.

(** A rule excludes a path when it is found in the path or in its last
    component. *)
Definition rule_hits (path pattern : str) : bool :=
  found pattern path || found pattern (OsPath.basename path).

(** ** Normalization only removes *)

(** [thins t s]: [t] is [s] with characters removed and white space
    characters replaced by white space characters. *)
Inductive thins : str -> str -> Prop :=
| thins_nil : thins [] []
| thins_drop c t s : thins t s -> thins t (c :: s)
| thins_keep c t s : thins t s -> thins (c :: t) (c :: s)
| thins_space c d t s :
    isspace c = true -> isspace d = true -> thins t s -> thins (d :: t) (c :: s).

(** The pattern of the comments that start with a hash. *)
Definition hash_re : regex :=
  RSeq (RLit "#") (RSeq (RRep QStar true RAny) REol).

(** ** Trees *)

(** The node at the end of a chain of names. *)
Fixpoint node_at (n : node) (segs : list str) : option node :=
  match segs with
  | [] => Some n
  | name :: rest =>
      match n with
      | Dir entries =>
          match lookup name entries with
          | Some child => node_at child rest
          | None => None
          end
      | File _ _ => None
      end
  end.

(** What the report holds for a path. *)
Definition recorded (path : str) (st : state) : Prop :=
  In path (map fst (file_stats st)) /\
  exists body, In (section path body) (flattened_content st).

(** Two lists of walks over the same names that agree on every state. *)
Definition same_walks (l1 l2 : list (str * (state -> option state))) : Prop :=
  Forall2 (fun d1 d2 => fst d1 = fst d2 /\ forall st, snd d1 st = snd d2 st) l1 l2.

(** The built-in rules: a word, after anything on the line or not, before
    the group of a directory rule or not. *)
Definition default_regex (lead : bool) (w : str) (dir : bool) : regex :=
  mk_seq ((if lead then [RRep QStar true RAny] else []) ++ map RLit w ++
          (if dir then [dir_suffix] else [])).

(** The words of the built-in rules. *)
Definition default_words : list str :=
  [ py ".git"; py ".idea"; py "__pycache__"; py ".pyc"; py ".log"; py ".env";
    py "venv"; py "node_modules"; py "dist"; py "build" ].

(* ================================================================== *)
(** * Lemmas *)
(* ================================================================== *)

(* ------------------------------------------------------------------ *)
(** ** Token estimates *)
(* ------------------------------------------------------------------ *)

Lemma compile_word_re : compile (py "\b\w+\b") = Some word_re.
Proof. reflexivity. Qed.

Lemma compile_symbol_re : compile (py "[^\w\s]") = Some symbol_re.
Proof. reflexivity. Qed.

Lemma span_word_le s : span_word s <= length s.
Proof. induction s as [|c s IH]; simpl; [lia|]. destruct (is_word c); simpl; lia. Qed.

Lemma in_set_word c : in_set false [CWord] c = is_word c.
Proof. unfold in_set; simpl. now rewrite orb_false_r. Qed.

(** The greedy loop of [\w+] runs to the end of the word. *)
Lemma loop_word (f : ascii -> bool) (k0 : kont) :
  (forall c, f c = is_word c) ->
  forall s fuel p,
  length s <= fuel -> word_opt p = true ->
  exists p', word_opt p' = true /\
  rep_loop (char_body f) true
    (fun p s => if at_boundary p s then k0 p s else None) fuel p s
  = k0 p' (skipn (span_word s) s).
Proof.
  intros Hw.
  induction s as [|c s IH]; intros fuel p Hf Hp.
  - exists p. split; [assumption|].
    destruct fuel; simpl; unfold at_boundary; rewrite Hp; reflexivity.
  - simpl in Hf. destruct fuel as [|n]; [lia|].
    cbn [rep_loop span_word]. unfold char_body at 1. rewrite Hw.
    destruct (is_word c) eqn:Hc.
    + replace (length s <? length (c :: s)) with true
        by (symmetry; apply Nat.ltb_lt; simpl; lia).
      destruct (IH n (Some c)) as (p' & Hp' & E); [lia | exact Hc |].
      exists p'. split; [assumption|].
      rewrite E. cbn [skipn].
      destruct (k0 p' (skipn (span_word s) s)); [reflexivity|].
      unfold at_boundary. rewrite Hp. simpl. now rewrite Hc.
    + exists p. split; [assumption|].
      cbn [skipn].
      unfold at_boundary. rewrite Hp. simpl. now rewrite Hc.
Qed.

Lemma match_word_re ml adv p s :
  match_at ml word_re adv p s =
  if negb (word_opt p) && word_opt (hd_error s)
  then Some (skipn (span_word s) s) else None.
Proof.
  unfold match_at, word_re. cbn [exec].
  unfold at_boundary at 1.
  destruct s as [|c s].
  - simpl. destruct (word_opt p); reflexivity.
  - cbn [hd_error word_opt]. rewrite in_set_word.
    destruct (is_word c) eqn:Hc.
    + destruct (word_opt p) eqn:Hp; [reflexivity|]. cbn [xorb negb andb].
      destruct (loop_word (in_set false [CWord]) (fun (_ : option ascii) (rest : str) =>
           if adv && (length rest =? length (c :: s)) then None else Some rest)
           in_set_word s (length s) (Some c) (le_n _) Hc) as (p' & _ & E).
      etransitivity; [exact E|]. cbn [span_word]. rewrite Hc. cbn [skipn].
      replace (length (skipn (span_word s) s) =? length (c :: s)) with false.
      * now rewrite andb_false_r.
      * symmetry. apply Nat.eqb_neq. rewrite length_skipn. simpl. lia.
    + destruct (word_opt p); reflexivity.
Qed.

Lemma hits_keep c ps : hits (Keep c :: ps) = hits ps.
Proof. reflexivity. Qed.

Lemma hits_hit m ps : hits (Hit m :: ps) = m :: hits ps.
Proof. reflexivity. Qed.

Lemma scan_word : forall s skip p,
  (skip = 0 \/ (word_opt p = true /\ skip = span_word s)) ->
  length (hits (scan false word_re skip p s)) = word_runs (word_opt p) s.
Proof.
  induction s as [|c s IH]; intros skip p H.
  - destruct skip; [|reflexivity].
    cbn [scan]. unfold match_len. rewrite match_word_re. simpl.
    rewrite andb_false_r. reflexivity.
  - destruct skip as [|n].
    + cbn [scan]. unfold match_len. rewrite match_word_re.
      cbn [hd_error word_opt word_runs span_word].
      destruct (is_word c) eqn:Hc.
      * destruct (word_opt p) eqn:Hp; cbn [negb andb].
        -- rewrite hits_keep. rewrite (IH 0 (Some c)) by (now left). simpl.
           now rewrite Hc.
        -- cbn [skipn].
           assert (L : length (c :: s) - length (skipn (span_word s) s) = S (span_word s)).
           { rewrite length_skipn. pose proof (span_word_le s). cbn [length]. lia. }
           rewrite L. rewrite hits_hit. cbn [length].
           rewrite (IH (span_word s) (Some c)).
           ++ simpl. now rewrite Hc.
           ++ right. split; [exact Hc | reflexivity].
      * rewrite andb_false_r. rewrite hits_keep.
        rewrite (IH 0 (Some c)) by (now left). simpl. now rewrite Hc.
    + destruct H as [H | [Hp H]]; [discriminate|].
      cbn [span_word] in H. destruct (is_word c) eqn:Hc; [|discriminate].
      injection H as H. cbn [scan word_runs]. rewrite Hc, Hp.
      rewrite (IH n (Some c)).
      * simpl. now rewrite Hc.
      * destruct n; [now left|]. right. split; [simpl; exact Hc | exact H].
Qed.

Lemma scan_symbol : forall s p,
  length (hits (scan false symbol_re 0 p s)) = count_symbols s.
Proof.
  induction s as [|c s IH]; intros p.
  - reflexivity.
  - cbn [scan]. unfold match_len, match_at, symbol_re. cbn [exec].
    fold (is_symbol c). unfold count_symbols. cbn [filter].
    destruct (is_symbol c) eqn:Hc.
    + cbn [andb length]. replace (S (length s) - length s) with 1 by lia.
      rewrite hits_hit. cbn [length]. f_equal. apply IH.
    + rewrite hits_keep. apply IH.
Qed.

Lemma estimate_tokens_eq text : _estimate_tokens text = Some (token_count text).
Proof.
  unfold _estimate_tokens, findall, token_count.
  rewrite compile_word_re, compile_symbol_re. cbn [bind].
  unfold pieces. rewrite scan_word by (now left). rewrite scan_symbol.
  reflexivity.
Qed.

(** Counting on a prefix, and across a line break. *)
Lemma word_runs_firstn : forall s n b, word_runs b (firstn n s) <= word_runs b s.
Proof.
  induction s as [|c s IH]; intros [|n] b; simpl; try lia.
  destruct (is_word c); [specialize (IH n true) | specialize (IH n false)]; lia.
Qed.

Lemma count_symbols_firstn : forall s n, count_symbols (firstn n s) <= count_symbols s.
Proof.
  unfold count_symbols.
  induction s as [|c s IH]; intros [|n]; simpl; try lia.
  specialize (IH n). destruct (is_symbol c); simpl; lia.
Qed.

Lemma word_runs_app_break : forall a b m inword,
  is_word b = false ->
  word_runs inword (a ++ b :: m) = word_runs inword a + word_runs false m.
Proof.
  induction a as [|c a IH]; intros b m inword Hb; simpl.
  - now rewrite Hb.
  - destruct (is_word c); rewrite IH by assumption; lia.
Qed.

Lemma count_symbols_app a b : count_symbols (a ++ b) = count_symbols a + count_symbols b.
Proof. unfold count_symbols. now rewrite filter_app, length_app. Qed.

Lemma token_count_firstn s n : (token_count (firstn n s) <= token_count s)%Z.
Proof.
  unfold token_count.
  pose proof (word_runs_firstn s n false). pose proof (count_symbols_firstn s n). lia.
Qed.

Lemma token_count_marker a :
  token_count (a ++ truncation_marker) = (token_count a + 14)%Z.
Proof.
  unfold token_count, truncation_marker.
  rewrite word_runs_app_break by reflexivity.
  rewrite count_symbols_app.
  change (count_symbols (LF :: py "# ... (truncated due to token limit) ...")) with 9.
  change (word_runs false (py "# ... (truncated due to token limit) ...")) with 5.
  lia.
Qed.

(** A character that is not white space is counted. *)
Lemma word_runs_pos s :
  existsb is_word s = true -> 1 <= word_runs false s.
Proof.
  induction s as [|c s IH]; simpl; [discriminate|].
  destruct (is_word c); simpl; [lia | exact IH].
Qed.

Lemma count_symbols_pos s :
  existsb is_symbol s = true -> 1 <= count_symbols s.
Proof.
  unfold count_symbols.
  induction s as [|c s IH]; simpl; [discriminate|].
  destruct (is_symbol c); simpl; [lia | exact IH].
Qed.

Lemma token_count_pos s :
  existsb (fun c => negb (isspace c)) s = true -> (1 <= token_count s)%Z.
Proof.
  intros H. apply existsb_exists in H. destruct H as (c & Hin & Hc).
  unfold token_count.
  destruct (is_word c) eqn:Hw.
  - assert (1 <= word_runs false s); [|lia].
    apply word_runs_pos, existsb_exists. now exists c.
  - assert (1 <= count_symbols s); [|lia].
    apply count_symbols_pos, existsb_exists. exists c. split; [assumption|].
    unfold is_symbol, in_set. simpl. rewrite Hw.
    apply negb_true_iff in Hc. now rewrite Hc.
Qed.

(* ------------------------------------------------------------------ *)
(** ** Line cleaning *)
(* ------------------------------------------------------------------ *)

Lemma lstrip_incl l x : In x (lstrip l) -> In x l.
Proof.
  induction l as [|c l IH]; simpl; [tauto|].
  destruct (isspace c); simpl; tauto.
Qed.

Lemma rstrip_incl l x : In x (rstrip l) -> In x l.
Proof.
  unfold rstrip. intros H. apply in_rev in H. apply lstrip_incl in H.
  now apply in_rev.
Qed.

Lemma lstrip_nil l : lstrip l = [] <-> forallb isspace l = true.
Proof.
  induction l as [|c l IH]; simpl; [tauto|].
  destruct (isspace c); simpl; [exact IH|]. split; discriminate.
Qed.

Lemma lstrip_idem l : lstrip (lstrip l) = lstrip l.
Proof.
  induction l as [|c l IH]; simpl; [reflexivity|].
  destruct (isspace c) eqn:E; [exact IH|]. simpl. now rewrite E.
Qed.

Lemma rstrip_idem l : rstrip (rstrip l) = rstrip l.
Proof. unfold rstrip. now rewrite rev_involutive, lstrip_idem. Qed.

Lemma forallb_rev {A : Type} (f : A -> bool) l : forallb f (rev l) = forallb f l.
Proof.
  induction l as [|c l IH]; simpl; [reflexivity|].
  rewrite forallb_app, IH. simpl. rewrite andb_true_r. apply andb_comm.
Qed.

Lemma rstrip_nil l : rstrip l = [] <-> forallb isspace l = true.
Proof.
  unfold rstrip. rewrite <- (forallb_rev isspace l), <- lstrip_nil.
  split; intros H.
  - apply (f_equal (@rev ascii)) in H. now rewrite rev_involutive in H.
  - now rewrite H.
Qed.

Lemma lstrip_all_space l : forallb isspace (lstrip l) = forallb isspace l.
Proof.
  induction l as [|c l IH]; simpl; [reflexivity|].
  destruct (isspace c) eqn:E; simpl; [exact IH|]. now rewrite E.
Qed.

Lemma nonblank_spec l : nonblank l = negb (forallb isspace l).
Proof.
  unfold nonblank, strip. f_equal.
  rewrite <- (lstrip_all_space l).
  destruct (forallb isspace (lstrip l)) eqn:E.
  - apply rstrip_nil in E. now rewrite E.
  - destruct (rstrip (lstrip l)) eqn:R; [|reflexivity].
    apply rstrip_nil in R. congruence.
Qed.

Lemma rstrip_all_space l : forallb isspace (rstrip l) = forallb isspace l.
Proof.
  unfold rstrip. now rewrite forallb_rev, lstrip_all_space, forallb_rev.
Qed.

Lemma nonblank_rstrip l : nonblank (rstrip l) = nonblank l.
Proof. now rewrite !nonblank_spec, rstrip_all_space. Qed.

Lemma nonblank_not_nil l : nonblank l = true -> l <> [].
Proof. intros H E. subst. discriminate. Qed.

Lemma unbroken_rstrip l : unbroken l = true -> unbroken (rstrip l) = true.
Proof.
  unfold unbroken. rewrite !forallb_forall. intros H x Hx.
  apply H. now apply rstrip_incl.
Qed.

Lemma linebreak_CR c : islinebreak c = false -> Ascii.eqb c CR = false.
Proof.
  intros H. destruct (Ascii.eqb c CR) eqn:E; [|reflexivity].
  apply Ascii.eqb_eq in E. subst. discriminate.
Qed.

(** The lines of [splitlines] hold no line boundary. *)
Lemma splitlines_unbroken_len : forall n s, length s <= n ->
  Forall (fun l => unbroken l = true) (splitlines s).
Proof.
  induction n as [|n IH]; intros s Hn.
  - destruct s; [constructor | simpl in Hn; lia].
  - destruct s as [|c s]; [constructor|]. simpl in Hn.
    cbn [splitlines].
    destruct (Ascii.eqb c CR).
    + destruct s as [|d s]; [repeat constructor|].
      destruct (Ascii.eqb d LF); constructor; try reflexivity; apply IH; simpl in *; lia.
    + destruct (islinebreak c) eqn:Hc.
      * constructor; [reflexivity | apply IH; lia].
      * specialize (IH s ltac:(lia)).
        destruct (splitlines s) as [|l ls].
        -- repeat constructor. unfold unbroken. simpl. now rewrite Hc.
        -- inversion IH; subst. constructor; [|assumption].
           unfold unbroken in *. simpl. now rewrite Hc.
Qed.

Lemma splitlines_unbroken s : Forall (fun l => unbroken l = true) (splitlines s).
Proof. apply (splitlines_unbroken_len (length s)). lia. Qed.

Lemma splitlines_line : forall l, l <> [] -> unbroken l = true -> splitlines l = [l].
Proof.
  induction l as [|c l IH]; intros Hne Hl; [congruence|].
  unfold unbroken in Hl. simpl in Hl. apply andb_prop in Hl. destruct Hl as [Hc Hl].
  apply negb_true_iff in Hc.
  cbn [splitlines]. rewrite (linebreak_CR _ Hc), Hc.
  destruct l as [|d l]; [reflexivity|].
  rewrite IH; [reflexivity | discriminate | exact Hl].
Qed.

Lemma splitlines_app_LF : forall l t, unbroken l = true ->
  splitlines (l ++ LF :: t) = l :: splitlines t.
Proof.
  induction l as [|c l IH]; intros t Hl.
  - reflexivity.
  - unfold unbroken in Hl. simpl in Hl. apply andb_prop in Hl. destruct Hl as [Hc Hl].
    apply negb_true_iff in Hc.
    cbn [app splitlines]. rewrite (linebreak_CR _ Hc), Hc.
    now rewrite IH.
Qed.

Lemma splitlines_join : forall L,
  Forall (fun l => l <> [] /\ unbroken l = true) L ->
  splitlines (join [LF] L) = L.
Proof.
  induction L as [|l L IH]; intros H; [reflexivity|].
  inversion H as [|? ? [Hne Hl] HL]; subst.
  destruct L as [|l2 L].
  - simpl. now apply splitlines_line.
  - change (join [LF] (l :: l2 :: L)) with (l ++ LF :: join [LF] (l2 :: L)).
    rewrite splitlines_app_LF by assumption. now rewrite IH.
Qed.

Lemma kept_lines_good code :
  Forall (fun l => (l <> [] /\ unbroken l = true) /\ nonblank l = true /\ rstrip l = l)
         (kept_lines code).
Proof.
  unfold kept_lines. apply Forall_forall. intros l Hl.
  apply in_map_iff in Hl. destruct Hl as (l0 & <- & Hl0).
  apply filter_In in Hl0. destruct Hl0 as [Hin Hnb].
  fold (nonblank l0) in Hnb.
  pose proof (splitlines_unbroken code) as U.
  rewrite Forall_forall in U. specialize (U _ Hin).
  assert (nonblank (rstrip l0) = true) by now rewrite nonblank_rstrip.
  repeat split.
  - now apply nonblank_not_nil.
  - now apply unbroken_rstrip.
  - assumption.
  - apply rstrip_idem.
Qed.

Lemma kept_lines_fixed L :
  Forall (fun l => (l <> [] /\ unbroken l = true) /\ nonblank l = true /\ rstrip l = l) L ->
  kept_lines (join [LF] L) = L.
Proof.
  intros H. unfold kept_lines. rewrite splitlines_join.
  - induction H as [|l L (_ & Hnb & Hr) HL IH]; [reflexivity|].
    cbn [filter]. fold (nonblank l). rewrite Hnb. cbn [map]. now rewrite Hr, IH.
  - eapply Forall_impl; [|exact H]. now intros l [? _].
Qed.

Lemma clean_lines_idem code : clean_lines (clean_lines code) = clean_lines code.
Proof.
  unfold clean_lines. fold (kept_lines code).
  fold (kept_lines (join [LF] (kept_lines code))).
  now rewrite kept_lines_fixed by apply kept_lines_good.
Qed.

(* ------------------------------------------------------------------ *)
(** ** Glob translation *)
(* ------------------------------------------------------------------ *)

(** Induction two characters at a time. *)
Lemma str_ind2 (P : list ascii -> Prop) :
  P [] -> (forall c, P [c]) ->
  (forall c d p, P p -> P (d :: p) -> P (c :: d :: p)) ->
  forall p : list ascii, P p.
Proof.
  intros H0 H1 H2 p.
  enough (P p /\ forall c, P (c :: p)) by tauto.
  induction p as [|d p [IH1 IH2]]; split; auto.
Qed.

Lemma startswith_nil s : startswith s [] = true.
Proof. destruct s; reflexivity. Qed.

Lemma startswith_cons c s x xs :
  startswith (c :: s) (x :: xs) = Ascii.eqb c x && startswith s xs.
Proof. reflexivity. Qed.

(** ** [replace] with a one-character needle *)
Lemma replace_char s a new :
  replace s [a] new = flat_map (fun c => if Ascii.eqb c a then new else [c]) s.
Proof.
  unfold replace.
  induction s as [|c s IH]; [reflexivity|].
  cbn [replace_go flat_map length Nat.sub].
  rewrite startswith_cons, startswith_nil, andb_true_r.
  destruct (Ascii.eqb c a); now rewrite IH.
Qed.

(** ** Facts on the special characters *)
Lemma special_cases c : is_special c = true -> In c special_chars.
Proof.
  unfold is_special. intros H. apply existsb_exists in H.
  destruct H as (x & Hin & E). apply Ascii.eqb_eq in E. now subst.
Qed.

Lemma not_special c x : is_special c = false -> In x special_chars -> Ascii.eqb c x = false.
Proof.
  unfold is_special. intros H Hin.
  destruct (Ascii.eqb c x) eqn:E; [|reflexivity].
  rewrite <- H. symmetry. apply existsb_exists. now exists x.
Qed.

Lemma not_special_bs c : is_special c = false -> Ascii.eqb c "\" = false.
Proof. intros H. apply (not_special _ _ H). special_in. Qed.
Lemma not_special_star c : is_special c = false -> Ascii.eqb c "*" = false.
Proof. intros H. apply (not_special _ _ H). special_in. Qed.
Lemma not_special_quest c : is_special c = false -> Ascii.eqb c "?" = false.
Proof. intros H. apply (not_special _ _ H). special_in. Qed.

Lemma escape_head_bs p : forall x, startswith (flat_map escape_char p) [x] = true ->
  x = "\"%char \/ is_special x = false.
Proof.
  destruct p as [|c p]; intros x; cbn [flat_map]; [discriminate|].
  unfold escape_char. destruct (is_special c) eqn:E; cbn [app];
    rewrite startswith_cons, startswith_nil, andb_true_r;
    intros H; apply Ascii.eqb_eq in H; subst; auto.
Qed.

Lemma escape_special c : is_special c = true -> escape_char c = ["\"%char; c].
Proof. unfold escape_char. now intros ->. Qed.

Lemma escape_plain c : is_special c = false -> escape_char c = [c].
Proof. unfold escape_char. now intros ->. Qed.

Lemma head_not p x :
  x <> "\"%char -> is_special x = true ->
  startswith (flat_map escape_char p) [x] = false.
Proof.
  intros H1 H2. destruct (startswith (flat_map escape_char p) [x]) eqn:E; [|reflexivity].
  apply escape_head_bs in E. destruct E; congruence.
Qed.

Lemma step1 p : replace (escape p) (py "\*") (py "*") = flat_map r1 p.
Proof.
  unfold replace, escape. cbn [py list_ascii_of_string].
  induction p as [|c p IH]; [reflexivity|].
  cbn [flat_map]. unfold r1 at 1.
  destruct (is_special c) eqn:Hs.
  - rewrite (escape_special _ Hs).
    cbn [app replace_go length Nat.sub].
    rewrite !startswith_cons, startswith_nil, Ascii.eqb_refl, andb_true_r. cbn [andb].
    destruct (Ascii.eqb c "*") eqn:Hc.
    + rewrite IH. reflexivity.
    + cbn [app]. f_equal.
      rewrite (head_not p "*"%char) by (discriminate || reflexivity).
      rewrite andb_false_r. now rewrite IH.
  - rewrite (escape_plain _ Hs). cbn [app replace_go].
    rewrite startswith_cons, (not_special_bs _ Hs). cbn [andb].
    rewrite (not_special_star _ Hs).
    now rewrite IH.
Qed.

Lemma r1_head p x :
  x = "?"%char ->
  startswith (flat_map r1 p) [x] = false.
Proof.
  intros ->. destruct p as [|c p]; [reflexivity|].
  cbn [flat_map]. unfold r1.
  destruct (Ascii.eqb c "*") eqn:Hc; [reflexivity|].
  destruct (is_special c) eqn:Hs.
  - rewrite (escape_special _ Hs). reflexivity.
  - rewrite (escape_plain _ Hs). cbn [app].
    rewrite startswith_cons, (not_special_quest _ Hs). reflexivity.
Qed.

Lemma step2 p : replace (flat_map r1 p) (py "\?") (py "?") = flat_map r2 p.
Proof.
  unfold replace. cbn [py list_ascii_of_string].
  induction p as [|c p IH]; [reflexivity|].
  cbn [flat_map]. unfold r1 at 1, r2 at 1.
  destruct (Ascii.eqb c "*") eqn:Hstar.
  - cbn [py list_ascii_of_string app replace_go].
    rewrite startswith_cons. cbn [andb Ascii.eqb]. 
    replace (Ascii.eqb "*" "\") with false by reflexivity. cbn [andb].
    now rewrite IH.
  - destruct (is_special c) eqn:Hs.
    + rewrite (escape_special _ Hs).
      cbn [app replace_go length Nat.sub].
      rewrite !startswith_cons, startswith_nil, Ascii.eqb_refl, andb_true_r. cbn [andb].
      destruct (Ascii.eqb c "?") eqn:Hc.
      * rewrite IH. reflexivity.
      * cbn [app]. f_equal.
        rewrite (r1_head p _ eq_refl).
        rewrite andb_false_r. now rewrite IH.
    + rewrite (escape_plain _ Hs). cbn [app replace_go].
      rewrite startswith_cons, (not_special_bs _ Hs). cbn [andb].
      rewrite (not_special_quest _ Hs).
      now rewrite IH.
Qed.

Lemma r2_head_star q :
  startswith (flat_map r2 q) ["*"%char] =
  match q with
  | d :: _ => Ascii.eqb d "*"
  | [] => false
  end.
Proof.
  destruct q as [|d q]; [reflexivity|].
  cbn [flat_map]. unfold r2 at 1.
  destruct (Ascii.eqb d "*") eqn:Hd; [reflexivity|].
  destruct (Ascii.eqb d "?") eqn:Hq; [reflexivity|].
  destruct (is_special d) eqn:Hs.
  - rewrite (escape_special _ Hs). reflexivity.
  - rewrite (escape_plain _ Hs). cbn [app].
    now rewrite startswith_cons, Hd.
Qed.

Lemma go_other old new x rest :
  startswith (x :: rest) old = false ->
  replace_go old new 0 (x :: rest) = x :: replace_go old new 0 rest.
Proof. intros H. cbn [replace_go]. now rewrite H. Qed.

Lemma step3 : forall p,
  replace (flat_map r2 p) (py "**") (py ".*") = flat_map render3 (glob_tokens p).
Proof.
  unfold replace. cbn [py list_ascii_of_string].
  assert (other : forall c q, Ascii.eqb c "*" = false ->
            replace_go ["*"; "*"]%char ["."; "*"]%char 0 (flat_map r2 q)
              = flat_map render3 (glob_tokens q) ->
            replace_go ["*"; "*"]%char ["."; "*"]%char 0 (flat_map r2 (c :: q))
              = flat_map render3 (glob_tokens (c :: q))).
  { intros c q Hc IH. cbn [flat_map glob_tokens]. unfold r2 at 1. rewrite Hc.
    destruct (Ascii.eqb c "?") eqn:Hq.
    - cbn [py list_ascii_of_string app flat_map render3].
      rewrite go_other by reflexivity. now rewrite IH.
    - cbn [flat_map render3].
      destruct (is_special c) eqn:Hs.
      + rewrite (escape_special _ Hs). cbn [app].
        rewrite go_other by reflexivity.
        rewrite go_other by (rewrite startswith_cons, Hc; reflexivity).
        now rewrite IH.
      + rewrite (escape_plain _ Hs). cbn [app].
        rewrite go_other by (rewrite startswith_cons, Hc; reflexivity).
        now rewrite IH. }
  induction p as [| c | c d p IH1 IH2] using str_ind2.
  - reflexivity.
  - destruct (Ascii.eqb c "*") eqn:Hc.
    + apply Ascii.eqb_eq in Hc. subst c. reflexivity.
    + apply other; [assumption | reflexivity].
  - destruct (Ascii.eqb c "*") eqn:Hc.
    + apply Ascii.eqb_eq in Hc. subst c.
      change (flat_map r2 ("*"%char :: d :: p)) with ("*"%char :: flat_map r2 (d :: p)).
      cbn [replace_go length Nat.sub].
      rewrite startswith_cons, r2_head_star.
      change (Ascii.eqb "*" "*") with true. cbn [andb].
      destruct (Ascii.eqb d "*") eqn:Hd.
      * apply Ascii.eqb_eq in Hd. subst d.
        change (flat_map r2 ("*"%char :: p)) with ("*"%char :: flat_map r2 p).
        cbn [replace_go]. rewrite IH1. reflexivity.
      * rewrite IH2. cbn [glob_tokens]. change (Ascii.eqb "*" "*") with true.
        cbn iota. rewrite Hd. reflexivity.
    + apply other; assumption.
Qed.

Lemma glob_tokens_cons c p :
  glob_tokens (c :: p) =
  if Ascii.eqb c "*" then
    match p with
    | d :: p'' =>
        if Ascii.eqb d "*" then TDot :: TStar :: glob_tokens p''
        else TStar :: glob_tokens p
    | [] => [TStar]
    end
  else if Ascii.eqb c "?" then TAny :: glob_tokens p
  else TChar c :: glob_tokens p.
Proof. reflexivity. Qed.

Lemma glob_tokens_plain : forall p, forallb plain_tok (glob_tokens p) = true.
Proof.
  induction p as [| c | c d p IH1 IH2] using str_ind2.
  - reflexivity.
  - rewrite glob_tokens_cons. destruct (Ascii.eqb c "*") eqn:Hc; [reflexivity|].
    destruct (Ascii.eqb c "?") eqn:Hq; [reflexivity|].
    simpl. now rewrite Hc, Hq.
  - rewrite glob_tokens_cons. destruct (Ascii.eqb c "*") eqn:Hc.
    + destruct (Ascii.eqb d "*"); [exact IH1 | exact IH2].
    + destruct (Ascii.eqb c "?") eqn:Hq; [exact IH2|].
      cbn [forallb plain_tok]. now rewrite Hc, Hq, IH2.
Qed.

Lemma flat_map_flat_map (A B C : Type) (f : A -> list B) (g : B -> list C) l :
  flat_map g (flat_map f l) = flat_map (fun a => flat_map g (f a)) l.
Proof.
  induction l as [|a l IH]; [reflexivity|].
  cbn [flat_map]. now rewrite flat_map_app, IH.
Qed.

Lemma flat_map_ext_forallb (A B : Type) (f g : A -> list B) (ok : A -> bool) l :
  forallb ok l = true -> (forall a, ok a = true -> f a = g a) ->
  flat_map f l = flat_map g l.
Proof.
  intros H E. induction l as [|a l IH]; [reflexivity|].
  cbn [forallb] in H. apply andb_prop in H. destruct H as [Ha Hl].
  cbn [flat_map]. now rewrite (E a Ha), IH.
Qed.

Lemma star_out_other c : Ascii.eqb c "*" = false -> star_out c = [c].
Proof. unfold star_out. now intros ->. Qed.

Lemma quest_out_other c : Ascii.eqb c "?" = false -> quest_out c = [c].
Proof. unfold quest_out. now intros ->. Qed.

Lemma render_steps t : plain_tok t = true ->
  flat_map quest_out (flat_map star_out (render3 t)) = render t.
Proof.
  destruct t as [c| | |]; try reflexivity.
  cbn [plain_tok render3 render]. intros H. apply andb_prop in H.
  destruct H as [Hs Hq]. apply negb_true_iff in Hs, Hq.
  unfold escape_char. destruct (is_special c); cbn [flat_map app].
  - rewrite (star_out_other "\"%char) by reflexivity.
    rewrite (star_out_other c) by assumption. cbn [flat_map app].
    rewrite (quest_out_other "\"%char) by reflexivity.
    now rewrite (quest_out_other c) by assumption.
  - rewrite (star_out_other c) by assumption. cbn [flat_map app].
    now rewrite (quest_out_other c) by assumption.
Qed.

Lemma glob_body_tokens p : glob_body p = render_all (glob_tokens p).
Proof.
  unfold glob_body. rewrite step1, step2, step3.
  change (py "*") with ["*"%char]. change (py "?") with ["?"%char].
  rewrite !replace_char.
  fold star_out. fold quest_out.
  rewrite !flat_map_flat_map. unfold render_all.
  apply flat_map_ext_forallb with (ok := plain_tok).
  - apply glob_tokens_plain.
  - intros t Ht. rewrite <- (render_steps t Ht).
    now rewrite <- flat_map_flat_map.
Qed.

(** ** Parsing the translated pattern *)

Lemma prun_app : forall a b st,
  prun st (a ++ b) = (st' <- prun st a ;; prun st' b).
Proof.
  induction a as [|c a IH]; intros b st; [reflexivity|].
  cbn [app prun]. destruct (pstep st c); [apply IH | reflexivity].
Qed.

Lemma pstep_plain c top stk :
  is_special c = false ->
  pstep (PState MNorm top stk) c = Some (push_item (PState MNorm top stk) (RLit c)).
Proof.
  intros H. unfold pstep. cbn [p_mode].
  rewrite !(not_special _ _ H) by special_in. reflexivity.
Qed.

Lemma pstep_escaped c top stk :
  is_special c = true ->
  pstep (PState MEsc top stk) c = Some (push_item (PState MEsc top stk) (RLit c)).
Proof.
  intros H. apply special_cases in H. unfold special_chars in H.
  cbn [py list_ascii_of_string app In] in H.
  repeat (destruct H as [<- | H]; [reflexivity|]). contradiction.
Qed.

Lemma parse_tok t st :
  p_mode st = MNorm ->
  exists st', prun st (render t) = Some st' /\ ready st st'.
Proof.
  destruct st as [m top stk]. cbn [p_mode]. intros ->.
  destruct t as [c| | |]; cbn [render].
  - destruct (is_special c) eqn:Hs.
    + rewrite (escape_special _ Hs). cbn [prun].
      change (pstep (PState MNorm top stk) "\") with (Some (PState MEsc top stk)).
      cbn iota. rewrite (pstep_escaped _ _ _ Hs).
      eexists; split; [reflexivity | split; reflexivity].
    + rewrite (escape_plain _ Hs). cbn [prun].
      rewrite (pstep_plain _ _ _ Hs).
      eexists; split; [reflexivity | split; reflexivity].
  - eexists; split; [reflexivity | split; reflexivity].
  - eexists; split; [reflexivity | split; reflexivity].
  - eexists; split; [reflexivity | split; reflexivity].
Qed.

Lemma parse_toks : forall ts st,
  p_mode st = MNorm ->
  exists st', prun st (render_all ts) = Some st' /\ ready st st'.
Proof.
  induction ts as [|t ts IH]; intros st Hm.
  - exists st. split; [reflexivity | split; [assumption | reflexivity]].
  - unfold render_all. cbn [flat_map]. rewrite prun_app.
    destruct (parse_tok t st Hm) as (st1 & E1 & M1 & S1).
    rewrite E1. cbn [bind].
    destruct (IH st1 M1) as (st2 & E2 & M2 & S2).
    exists st2. split; [exact E2 | split; [exact M2 | congruence]].
Qed.

Lemma parse_dir_suffix st :
  p_mode st = MNorm ->
  exists st', prun st (py "(?:/.*)?") = Some st' /\ ready st st'.
Proof.
  destruct st as [m top stk]. cbn [p_mode]. intros ->.
  eexists; split; [reflexivity | split; reflexivity].
Qed.

Lemma parse_dollar st :
  p_mode st = MNorm ->
  exists st', prun st (py "$") = Some st' /\ ready st st'.
Proof.
  destruct st as [m top stk]. cbn [p_mode]. intros ->.
  eexists; split; [reflexivity | split; reflexivity].
Qed.

Lemma ready_finish st' :
  ready pinit st' -> exists r, pfinish st' = Some r.
Proof.
  intros [M S]. unfold pfinish. rewrite M, S. eexists; reflexivity.
Qed.

Lemma ready_trans a b c : ready a b -> ready b c -> ready a c.
Proof. intros [? ?] [? ?]. split; congruence. Qed.

(** A body, an optional directory suffix and the final [$] after either
    prefix. *)
Lemma compile_shape prefix ts (dir : bool) :
  prefix = py "^" \/ prefix = py "(?:^|/)" ->
  exists r,
    compile (prefix ++ (render_all ts ++ (if dir then py "(?:/.*)?" else [])) ++ py "$")
    = Some r.
Proof.
  intros Hp. unfold compile.
  set (sfx := if dir then _ else _).
  assert (exists st0, prun pinit prefix = Some st0 /\ ready pinit st0) as (st0 & E0 & R0).
  { destruct Hp as [-> | ->]; eexists; (split; [reflexivity | split; reflexivity]). }
  rewrite prun_app, E0. cbn [bind].
  rewrite prun_app, prun_app.
  destruct (parse_toks ts st0 (proj1 R0)) as (st1 & E1 & R1).
  rewrite E1. cbn [bind].
  assert (exists st2, prun st1 sfx = Some st2 /\ ready st1 st2)
    as (st2 & E2 & R2).
  { subst sfx. destruct dir; [apply parse_dir_suffix, R1|].
    exists st1. split; [reflexivity | split; [apply R1 | reflexivity]]. }
  rewrite E2. cbn [bind].
  destruct (parse_dollar st2 (proj1 R2)) as (st3 & E3 & R3).
  rewrite E3. cbn [bind].
  apply ready_finish.
  eapply ready_trans; [|exact R3]. eapply ready_trans; [|exact R2].
  eapply ready_trans; [exact R0 | exact R1].
Qed.

(** ** The directory and anchoring steps on the tokens *)

Lemma render_all_app a b : render_all (a ++ b) = render_all a ++ render_all b.
Proof. apply flat_map_app. Qed.

Lemma ends_with_sep ts :
  endswith (render_all ts) (py "/") = true ->
  exists ts', ts = ts' ++ [TChar "/"] /\ drop_last (render_all ts) = render_all ts'.
Proof.
  destruct ts as [|t0 ts0] using rev_ind; [discriminate|].
  clear IHts0. rename ts0 into ts', t0 into t.
  rewrite render_all_app. unfold endswith, render_all at 2. cbn [flat_map].
  rewrite app_nil_r, rev_app_distr. intros H.
  assert (t = TChar "/") as ->.
  { destruct t as [c| | |]; try discriminate H.
    cbn [render] in H. unfold escape_char in H.
    destruct (is_special c) eqn:Hs; cbn [rev app] in H;
      cbn [py list_ascii_of_string rev app startswith] in H;
      rewrite andb_true_r in H; apply Ascii.eqb_eq in H; subst c;
      [discriminate Hs | reflexivity]. }
  exists ts'. split; [reflexivity|].
  unfold drop_last.
  change (render_all [TChar "/"]) with ["/"%char].
  apply removelast_last.
Qed.

Lemma starts_with_sep ts (sfx : str) :
  sfx = [] \/ sfx = py "(?:/.*)?" ->
  startswith (render_all ts ++ sfx) (py "/") = true ->
  exists ts', ts = TChar "/" :: ts' /\
              drop_first (render_all ts ++ sfx) = render_all ts' ++ sfx.
Proof.
  intros Hsfx H. destruct ts as [|t ts].
  - destruct Hsfx as [-> | ->]; discriminate H.
  - assert (t = TChar "/") as ->.
    { destruct t as [c| | |]; try discriminate H.
      unfold render_all in H. cbn [flat_map render] in H. unfold escape_char in H.
      destruct (is_special c) eqn:Hs; cbn [app] in H;
        cbn [py list_ascii_of_string startswith] in H;
        rewrite andb_true_r in H; apply Ascii.eqb_eq in H.
      - discriminate H.
      - now subst c. }
    exists ts. split; reflexivity.
Qed.

Lemma glob_to_regex_cons c p :
  _glob_to_regex (c :: p) =
  let body := glob_body (c :: p) in
  let pattern :=
    if endswith body (py "/") then drop_last body ++ py "(?:/.*)?" else body in
  (if startswith pattern (py "/")
   then py "^" ++ drop_first pattern
   else py "(?:^|/)" ++ pattern) ++ py "$".
Proof. reflexivity. Qed.

(** The shape of every translated pattern. *)
Lemma glob_to_regex_shape c p :
  exists prefix ts (dir : bool),
    (prefix = py "^" \/ prefix = py "(?:^|/)") /\
    _glob_to_regex (c :: p) =
    prefix ++ (render_all ts ++ (if dir then py "(?:/.*)?" else [])) ++ py "$".
Proof.
  rewrite glob_to_regex_cons. rewrite glob_body_tokens. cbv zeta.
  set (ts := glob_tokens (c :: p)). clearbody ts.
  destruct (endswith (render_all ts) (py "/")) eqn:He.
  - destruct (ends_with_sep ts He) as (ts1 & -> & ->).
    destruct (startswith (render_all ts1 ++ py "(?:/.*)?") (py "/")) eqn:Hs.
    + destruct (starts_with_sep ts1 (py "(?:/.*)?") (or_intror eq_refl) Hs)
        as (ts2 & -> & ->).
      exists (py "^"), ts2, true. split; [now left | reflexivity].
    + exists (py "(?:^|/)"), ts1, true. split; [now right | reflexivity].
  - destruct (startswith (render_all ts) (py "/")) eqn:Hs.
    + rewrite <- (app_nil_r (render_all ts)) in Hs.
      destruct (starts_with_sep ts [] (or_introl eq_refl) Hs) as (ts2 & -> & E).
      rewrite !app_nil_r in E. rewrite E.
      exists (py "^"), ts2, false. split; [now left|]. now rewrite app_nil_r.
    + exists (py "(?:^|/)"), ts, false. split; [now right|]. now rewrite app_nil_r.
Qed.

(** Every translated pattern compiles. *)
Lemma glob_to_regex_compiles pattern :
  exists r, compile (_glob_to_regex pattern) = Some r.
Proof.
  destruct pattern as [|c p].
  - eexists; reflexivity.
  - destruct (glob_to_regex_shape c p) as (prefix & ts & dir & Hp & ->).
    now apply compile_shape.
Qed.

(* ------------------------------------------------------------------ *)
(** ** Trees, paths and the traversal *)
(* ------------------------------------------------------------------ *)

(** ** Induction on trees *)
Lemma node_ind' (P : node -> Prop) :
  (forall size content, P (File size content)) ->
  (forall entries, Forall (fun e => P (snd e)) entries -> P (Dir entries)) ->
  forall n, P n.
Proof.
  intros HF HD.
  fix IH 1. intros [size content | entries].
  - apply HF.
  - apply HD. induction entries as [|[name child] rest IHr]; constructor.
    + apply IH.
    + exact IHr.
Qed.

Lemma wf_Dir entries :
  wf_node (Dir entries) = true ->
  forallb valid_name (map fst entries) = true /\
  distinct (map fst entries) = true /\
  Forall (fun e => wf_node (snd e) = true) entries.
Proof.
  cbn [wf_node]. intros H. apply andb_prop in H. destruct H as [H H3].
  apply andb_prop in H. destruct H as [H1 H2].
  repeat split; try assumption.
  clear H1 H2. induction entries as [|[name child] rest IH]; constructor.
  - apply andb_prop in H3. apply H3.
  - apply IH. apply andb_prop in H3. apply H3.
Qed.

Lemma distinct_NoDup names : distinct names = true -> NoDup names.
Proof.
  induction names as [|n rest IH]; intros H; constructor.
  - cbn [distinct] in H. apply andb_prop in H. destruct H as [H _].
    apply negb_true_iff in H. intros Hin.
    assert (existsb (fun m => if list_eq_dec ascii_dec m n then true else false) rest = true).
    { apply existsb_exists. exists n. split; [assumption|].
      destruct (list_eq_dec ascii_dec n n); congruence. }
    congruence.
  - apply IH. cbn [distinct] in H. apply andb_prop in H. apply H.
Qed.

(** ** Paths *)
Lemma path_of_snoc segs name :
  path_of (segs ++ [name]) = OsPath.join (path_of segs) name.
Proof. unfold path_of. now rewrite fold_left_app. Qed.

Lemma valid_not_sep name : valid_name name = true -> startswith name [OsPath.sep] = false.
Proof.
  destruct name as [|c name]; [discriminate|]. cbn [valid_name forallb startswith].
  intros H. apply andb_prop in H. destruct H as [H _].
  apply negb_true_iff in H. now rewrite H.
Qed.

Lemma valid_sepfree name : valid_name name = true ->
  forallb (fun c => negb (Ascii.eqb c OsPath.sep)) name = true.
Proof. destruct name; [discriminate | trivial]. Qed.

Lemma split_app sep : forall a b,
  split sep (a ++ sep :: b) = split sep a ++ split sep b.
Proof.
  induction a as [|c a IH]; intros b.
  - cbn [app split]. now rewrite Ascii.eqb_refl.
  - cbn [app split]. rewrite IH.
    destruct (Ascii.eqb c sep); [reflexivity|].
    destruct (split sep a) as [|l ls] eqn:E; [|reflexivity].
    destruct a; cbn [split] in E; [discriminate|].
    destruct (Ascii.eqb a sep); [discriminate|].
    destruct (split sep a0); discriminate.
Qed.

Lemma split_sepfree sep : forall n,
  forallb (fun c => negb (Ascii.eqb c sep)) n = true -> split sep n = [n].
Proof.
  induction n as [|c n IH]; intros H; [reflexivity|].
  cbn [forallb] in H. apply andb_prop in H. destruct H as [Hc Hn].
  apply negb_true_iff in Hc. cbn [split]. rewrite Hc, (IH Hn). reflexivity.
Qed.

Lemma endswith_app_last (a : str) c x :
  endswith (a ++ [c]) [x] = Ascii.eqb c x.
Proof.
  unfold endswith. rewrite rev_app_distr. cbn [rev app startswith].
  now rewrite andb_true_r.
Qed.

Lemma ospath_join_nonempty a b :
  a <> [] -> startswith b [OsPath.sep] = false -> endswith a [OsPath.sep] = false ->
  OsPath.join a b = a ++ OsPath.sep :: b.
Proof.
  intros Ha Hb He. unfold OsPath.join. rewrite Hb.
  destruct a; [congruence|]. now rewrite He.
Qed.

Lemma ospath_join_empty b :
  startswith b [OsPath.sep] = false -> OsPath.join [] b = b.
Proof. intros Hb. unfold OsPath.join. now rewrite Hb. Qed.

Lemma join_snoc (sep : str) : forall l n, l <> [] ->
  PyStr.join sep (l ++ [n]) = PyStr.join sep l ++ sep ++ n.
Proof.
  induction l as [|a l IH]; intros n Hl; [congruence|].
  destruct l as [|b l]; [reflexivity|].
  change (PyStr.join sep ((a :: b :: l) ++ [n]))
    with (a ++ sep ++ PyStr.join sep ((b :: l) ++ [n])).
  rewrite IH by discriminate.
  change (PyStr.join sep (a :: b :: l)) with (a ++ sep ++ PyStr.join sep (b :: l)).
  now rewrite <- !app_assoc.
Qed.

Lemma valid_last name : valid_name name = true ->
  name <> [] /\ endswith name [OsPath.sep] = false.
Proof.
  intros Hn. split; [now destruct name|].
  destruct name as [|c0 name0] using rev_ind; [discriminate|].
  rewrite endswith_app_last.
  apply valid_sepfree in Hn. rewrite forallb_app in Hn.
  apply andb_prop in Hn. destruct Hn as [_ Hn]. cbn [forallb] in Hn.
  rewrite andb_true_r in Hn. now apply negb_true_iff.
Qed.

Lemma endswith_app (a b : str) x : b <> [] -> endswith (a ++ b) [x] = endswith b [x].
Proof.
  intros Hb. destruct b as [|c0 b0] using rev_ind; [congruence|].
  now rewrite app_assoc, !endswith_app_last.
Qed.

(** The path of valid names: the names joined by the separator. *)
Lemma path_of_valid : forall segs,
  forallb valid_name segs = true ->
  path_of segs = PyStr.join [OsPath.sep] segs /\
  (segs <> [] -> path_of segs <> [] /\ endswith (path_of segs) [OsPath.sep] = false).
Proof.
  induction segs as [|name segs IH] using rev_ind; intros H.
  - split; [reflexivity | congruence].
  - rewrite forallb_app in H. apply andb_prop in H. destruct H as [Hs Hn].
    cbn [forallb] in Hn. rewrite andb_true_r in Hn.
    destruct (IH Hs) as [E K]. rewrite path_of_snoc.
    destruct (valid_last _ Hn) as [Nne Nend].
    destruct segs as [|s0 segs0].
    + cbn [path_of fold_left app]. rewrite ospath_join_empty by now apply valid_not_sep.
      split; [reflexivity|]. intros _. now split.
    + destruct K as [Kne Kend]; [discriminate|].
      rewrite ospath_join_nonempty by (try assumption; now apply valid_not_sep).
      split.
      * rewrite E, join_snoc by discriminate. reflexivity.
      * intros _. split; [now destruct (path_of (s0 :: segs0))|].
        rewrite (endswith_app (path_of (s0 :: segs0)) (OsPath.sep :: name)) by discriminate.
        change (OsPath.sep :: name) with ([OsPath.sep] ++ name).
        now rewrite endswith_app.
Qed.

Lemma split_join_valid : forall segs,
  segs <> [] -> forallb valid_name segs = true ->
  split OsPath.sep (PyStr.join [OsPath.sep] segs) = segs.
Proof.
  induction segs as [|name segs IH] using rev_ind; intros Hne H; [congruence|].
  rewrite forallb_app in H. apply andb_prop in H. destruct H as [Hs Hn].
  cbn [forallb] in Hn. rewrite andb_true_r in Hn.
  destruct segs as [|s0 segs0].
  - cbn [app PyStr.join]. apply split_sepfree. now apply valid_sepfree.
  - rewrite join_snoc by discriminate. cbn [app].
    rewrite split_app, IH by (assumption || discriminate).
    rewrite split_sepfree by now apply valid_sepfree. reflexivity.
Qed.

(** Distinct chains of valid names have distinct paths. *)
Lemma path_of_inj a b :
  forallb valid_name a = true -> forallb valid_name b = true ->
  path_of a = path_of b -> a = b.
Proof.
  intros Ha Hb E.
  destruct (path_of_valid a Ha) as [Ea Ka], (path_of_valid b Hb) as [Eb Kb].
  destruct a as [|a0 a'], b as [|b0 b'].
  - reflexivity.
  - destruct Kb as [Kb _]; [discriminate|]. rewrite <- E in Kb. now elim Kb.
  - destruct Ka as [Ka _]; [discriminate|]. rewrite E in Ka. now elim Ka.
  - rewrite <- (split_join_valid (a0 :: a')), <- (split_join_valid (b0 :: b'))
      by (assumption || discriminate).
    congruence.
Qed.

(** ** Sorting and filtering *)
Lemma insert_perm (A : Type) (key : A -> str) x : forall l,
  Permutation (insert key x l) (x :: l).
Proof.
  induction l as [|y l IH]; cbn [insert]; [reflexivity|].
  destruct (ltb (key x) (key y)); [reflexivity|].
  rewrite IH. apply perm_swap.
Qed.

Lemma sorted_by_perm (A : Type) (key : A -> str) (l : list A) :
  Permutation (sorted_by key l) l.
Proof.
  unfold sorted_by. rewrite (Permutation_rev l) at 2.
  induction (rev l) as [|x r IH]; cbn [fold_right]; [reflexivity|].
  rewrite insert_perm. now constructor.
Qed.

Lemma filterM_spec (A : Type) (f : A -> option bool) : forall l l',
  filterM f l = Some l' ->
  (forall x, In x l' -> In x l /\ f x = Some true) /\
  (forall (B : Type) (g : A -> B), NoDup (map g l) -> NoDup (map g l')).
Proof.
  induction l as [|a l IH]; intros l' H.
  - injection H as <-. split; [contradiction | trivial].
  - cbn [filterM] in H. destruct (f a) as [keep|] eqn:Fa; [|discriminate].
    cbn [bind] in H. destruct (filterM f l) as [rest|]; [|discriminate].
    cbn [bind] in H. injection H as <-.
    destruct (IH rest eq_refl) as [I1 I2].
    split.
    + intros x Hx. destruct keep.
      * destruct Hx as [<- | Hx]; [split; [now left | assumption]|].
        destruct (I1 x Hx). split; [now right | assumption].
      * destruct (I1 x Hx). split; [now right | assumption].
    + intros B g Hnd. cbn [map] in Hnd. inversion Hnd as [|? ? Hn Hd]; subst.
      destruct keep; [|now apply I2].
      cbn [map]. constructor; [|now apply I2].
      intros Hin. apply Hn. apply in_map_iff in Hin.
      destruct Hin as (x & E & Hx). apply in_map_iff. exists x.
      split; [assumption | apply I1, Hx].
Qed.

Section WalkFacts.
Variable cfg : config.
Variable rules : list str.

Lemma walk_Dir dirpath entries st :
  walk cfg rules dirpath (Dir entries) st =
  (dirnames <- filterM (keep_dir rules dirpath) (subdir_walks cfg rules dirpath entries) ;;
   st <- foldM (visit_file cfg rules dirpath)
           (sorted_by fst (filter (fun e => negb (is_dir (snd e))) entries)) st ;;
   foldM (fun st d => snd d st) (sorted_by fst dirnames) st).
Proof.
  cbn [walk].
  match goal with
  | |- context [filterM _ (?F entries)] =>
      assert (E : F entries = subdir_walks cfg rules dirpath entries)
  end.
  { clear st. induction entries as [|[name child] rest IH]; [reflexivity|].
    unfold subdir_walks. cbn [flat_map fst snd].
    destruct child; cbn [app]; [exact IH | f_equal; exact IH]. }
  rewrite E. reflexivity.
Qed.

(** [_process_file] leaves the state as it is, or the file passes every
    filter, its truncation step returns, and it is recorded. *)
Lemma process_file_cases path file_size content st :
  _process_file cfg path file_size content st = st \/
  exists tag text cleaned estimate body,
    lookup (lower (snd (OsPath.splitext path))) SUPPORTED_EXTENSIONS = Some tag /\
    (file_size <= max_file_size cfg)%Z /\
    content = Some text /\
    _clean_code text path = Some cleaned /\ cleaned <> [] /\
    _estimate_tokens cleaned = Some estimate /\
    truncate cfg cleaned estimate = Some body /\
    _process_file cfg path file_size content st =
    mkState
      (dict_set path
         (mkFileStats file_size estimate (Z.of_nat (length (splitlines body))))
         (file_stats st))
      (flattened_content st ++ [section path body]).
Proof.
  unfold _process_file, process_file_body.
  destruct (lookup _ SUPPORTED_EXTENSIONS) as [tag|] eqn:Hext; [|now left].
  destruct (file_size >? max_file_size cfg)%Z eqn:Hsize; [now left|].
  destruct content as [text|]; [|now left]. cbn [bind].
  destruct (_clean_code text path) as [cleaned|] eqn:Hc; [|now left].
  cbn [bind].
  destruct cleaned as [|c cleaned]; [now left|].
  destruct (_estimate_tokens (c :: cleaned)) as [estimate|] eqn:He; [|now left].
  cbn [bind].
  destruct (truncate cfg (c :: cleaned) estimate) as [body|] eqn:Ht; [|now left].
  cbn [bind].
  right. exists tag, text, (c :: cleaned), estimate, body.
  repeat split; try assumption; try discriminate.
  rewrite Z.gtb_ltb in Hsize. apply Z.ltb_ge in Hsize. exact Hsize.
Qed.

Lemma visit_files dsegs : forall (l : list (str * node)) st st',
  forallb valid_name (map fst l) = true ->
  NoDup (map fst l) ->
  foldM (visit_file cfg rules (path_of dsegs)) l st = Some st' ->
  exists recs,
    st' = fold_left add_record recs st /\
    Forall (fun r => rec_good cfg rules dsegs r /\
                     exists name, In name (map fst l) /\ r_segs r = dsegs ++ [name]) recs /\
    NoDup (map r_segs recs).
Proof.
  induction l as [|[name child] l IH]; intros st st' Hv Hnd H.
  - injection H as <-. exists []. repeat split; constructor.
  - cbn [foldM] in H. cbn [map fst forallb] in Hv, Hnd.
    apply andb_prop in Hv. destruct Hv as [Hname Hv].
    inversion Hnd as [|? ? Hnotin Hnd']; subst.
    destruct (visit_file cfg rules (path_of dsegs) st (name, child)) as [st1|] eqn:V;
      [|discriminate].
    cbn [bind] in H.
    destruct (IH st1 st' Hv Hnd' H) as (recs & E & G & N).
    assert (Weak : Forall (fun r => rec_good cfg rules dsegs r /\
               exists name0, In name0 (map fst ((name, child) :: l)) /\
                             r_segs r = dsegs ++ [name0]) recs).
    { eapply Forall_impl; [|exact G]. intros r (Hr & n0 & Hin & Er).
      split; [assumption|]. exists n0. split; [now right | assumption]. }
    unfold visit_file in V. cbn [fst snd] in V.
    rewrite <- path_of_snoc in V.
    destruct (_should_ignore rules (path_of (dsegs ++ [name]))) as [ig|] eqn:Ig;
      [|discriminate].
    cbn [bind] in V. destruct ig.
    { injection V as <-. exists recs. now repeat split. }
    assert (Same : st1 = st -> exists recs0,
               st' = fold_left add_record recs0 st /\
               Forall (fun r => rec_good cfg rules dsegs r /\
                  exists name0, In name0 (map fst ((name, child) :: l)) /\
                                r_segs r = dsegs ++ [name0]) recs0 /\
               NoDup (map r_segs recs0)).
    { intros ->. exists recs. now repeat split. }
    destruct child as [file_size content|]; [|injection V as <-; now apply Same].
    injection V as V.
    destruct (process_file_cases (path_of (dsegs ++ [name])) file_size content st)
      as [P | (tag & text & cleaned & estimate & body &
               Hext & Hsize & _ & Hc & Hne & He & Ht & P)]; rewrite P in V.
    { symmetry in V. now apply Same. }
    exists (mkRec (dsegs ++ [name])
              (mkFileStats file_size estimate (Z.of_nat (length (splitlines body))))
              body :: recs).
    split; [|split].
    + cbn [fold_left]. unfold add_record at 2, r_key. cbn [r_segs r_stats r_body].
      now rewrite V.
    + constructor; [|exact Weak]. split.
      * exists [name]. cbn [r_segs r_stats r_body].
        split; [reflexivity|]. split; [discriminate|].
        split; [cbn [forallb]; now rewrite Hname|]. split.
        -- exists tag, text, cleaned. unfold r_key.
           cbn [r_segs r_stats r_body size tokens lines]. now repeat split.
        -- intros k Hk. cbn [length] in Hk.
           replace k with 1 by lia. exact Ig.
      * exists name. split; [now left | reflexivity].
    + cbn [map r_segs]. constructor; [|exact N].
      intros Hin. apply in_map_iff in Hin. destruct Hin as (r & Er & Hr).
      rewrite Forall_forall in G. destruct (G r Hr) as (_ & n0 & Hn0 & En0).
      rewrite En0 in Er. apply app_inv_head in Er. injection Er as ->.
      contradiction.
Qed.

Lemma rec_lift dsegs d r :
  valid_name d = true ->
  _should_ignore rules (path_of (dsegs ++ [d])) = Some false ->
  rec_good cfg rules (dsegs ++ [d]) r ->
  rec_good cfg rules dsegs r /\ exists rest', r_segs r = dsegs ++ d :: rest' /\ rest' <> [].
Proof.
  intros Hd Ig (rest & E & Hne & Hv & Hl & Hk).
  rewrite <- app_assoc in E. cbn [app] in E.
  split; [|now exists rest].
  exists (d :: rest). repeat split; try assumption.
  - discriminate.
  - cbn [forallb]. now rewrite Hd, Hv.
  - intros k Hk'. cbn [length] in Hk'.
    destruct k as [|k]; [lia|]. cbn [firstn].
    destruct k as [|k].
    + cbn [firstn]. exact Ig.
    + specialize (Hk (S k) ltac:(lia)).
      rewrite <- app_assoc in Hk. exact Hk.
Qed.

Lemma visit_dirs dsegs : forall (l : list (str * (state -> option state))) st st',
  forallb valid_name (map fst l) = true ->
  NoDup (map fst l) ->
  (forall d, In d l ->
     walk_ok cfg rules (dsegs ++ [fst d]) (snd d) /\
     _should_ignore rules (path_of (dsegs ++ [fst d])) = Some false) ->
  foldM (fun st d => snd d st) l st = Some st' ->
  exists recs,
    st' = fold_left add_record recs st /\
    Forall (fun r => rec_good cfg rules dsegs r /\
              exists d rest', In d (map fst l) /\
                r_segs r = dsegs ++ d :: rest' /\ rest' <> []) recs /\
    NoDup (map r_segs recs).
Proof.
  induction l as [|[name w] l IH]; intros st st' Hv Hnd Hw H.
  - injection H as <-. exists []. repeat split; constructor.
  - cbn [foldM snd] in H. cbn [map fst forallb] in Hv, Hnd.
    apply andb_prop in Hv. destruct Hv as [Hname Hv].
    inversion Hnd as [|? ? Hnotin Hnd']; subst.
    destruct (w st) as [st1|] eqn:W; [|discriminate]. cbn [bind] in H.
    destruct (IH st1 st' Hv Hnd' (fun d Hd => Hw d (or_intror Hd)) H)
      as (recs2 & E2 & G2 & N2).
    destruct (Hw (name, w) (or_introl eq_refl)) as [Wok Ig]. cbn [fst snd] in Wok, Ig.
    destruct (Wok st st1 W) as (recs1 & E1 & G1 & N1).
    assert (G1' : Forall (fun r => rec_good cfg rules dsegs r /\
              exists rest', r_segs r = dsegs ++ name :: rest' /\ rest' <> []) recs1).
    { eapply Forall_impl; [|exact G1]. intros r Hr. now apply rec_lift. }
    exists (recs1 ++ recs2). split; [|split].
    + rewrite fold_left_app. now rewrite <- E1.
    + apply Forall_app. split.
      * eapply Forall_impl; [|exact G1']. intros r (Hr & rest' & Er & Hne).
        split; [assumption|]. exists name, rest'. split; [now left | now split].
      * eapply Forall_impl; [|exact G2]. intros r (Hr & d & rest' & Hin & Er & Hne).
        split; [assumption|]. exists d, rest'. split; [now right | now split].
    + rewrite map_app. apply NoDup_app; try assumption.
      intros segs Hin1 Hin2.
      apply in_map_iff in Hin1. destruct Hin1 as (r1 & <- & Hr1).
      apply in_map_iff in Hin2. destruct Hin2 as (r2 & E & Hr2).
      rewrite Forall_forall in G1', G2.
      destruct (G1' r1 Hr1) as (_ & rest1 & Er1 & _).
      destruct (G2 r2 Hr2) as (_ & d & rest2 & Hd & Er2 & _).
      rewrite Er1, Er2 in E. apply app_inv_head in E. injection E as -> _.
      contradiction.
Qed.

Lemma NoDup_map_filter (A B : Type) (g : A -> B) (f : A -> bool) : forall l,
  NoDup (map g l) -> NoDup (map g (filter f l)).
Proof.
  induction l as [|a l IH]; intros H; [constructor|].
  cbn [map] in H. inversion H as [|? ? Hn Hd]; subst.
  cbn [filter]. destruct (f a); [|now apply IH].
  cbn [map]. constructor; [|now apply IH].
  intros Hin. apply Hn. apply in_map_iff in Hin. destruct Hin as (x & E & Hx).
  apply filter_In in Hx. apply in_map_iff. exists x. tauto.
Qed.

Lemma subdir_walks_spec dirpath entries :
  (forall d, In d (subdir_walks cfg rules dirpath entries) ->
     exists child, In (fst d, child) entries /\
                   snd d = walk cfg rules (OsPath.join dirpath (fst d)) child) /\
  (NoDup (map fst entries) -> NoDup (map fst (subdir_walks cfg rules dirpath entries))).
Proof.
  unfold subdir_walks.
  induction entries as [|[name child] rest [IH1 IH2]].
  - split; [contradiction | constructor].
  - cbn [flat_map fst snd]. split.
    + intros d Hd. apply in_app_or in Hd. destruct Hd as [Hd | Hd].
      * destruct child; [contradiction|]. destruct Hd as [<- | []].
        eexists. split; [left; reflexivity | reflexivity].
      * destruct (IH1 d Hd) as (ch & Hin & E). exists ch. split; [now right | assumption].
    + intros H. cbn [map fst] in H. inversion H as [|? ? Hn Hd]; subst.
      destruct child; cbn [app]; [now apply IH2|].
      cbn [map fst]. constructor; [|now apply IH2].
      intros Hin. apply Hn. apply in_map_iff in Hin. destruct Hin as (d & E & Hd').
      destruct (IH1 d Hd') as (ch & Hch & _). rewrite E in Hch.
      apply in_map_iff. now exists (name, ch).
Qed.

Lemma forallb_perm (A : Type) (f : A -> bool) l l' :
  Permutation l l' -> forallb f l = true -> forallb f l' = true.
Proof.
  intros P H. apply forallb_forall. intros x Hx.
  rewrite forallb_forall in H. apply H.
  eapply Permutation_in; [symmetry; exact P | exact Hx].
Qed.

Lemma forallb_map_in (A : Type) (g : A -> str) f (l l' : list A) :
  (forall x, In x l' -> In x l) ->
  forallb f (map g l) = true -> forallb f (map g l') = true.
Proof.
  intros I H. apply forallb_forall. intros y Hy.
  apply in_map_iff in Hy. destruct Hy as (x & <- & Hx).
  rewrite forallb_forall in H. apply H. apply in_map, I, Hx.
Qed.

(** The records of a walk. *)
Lemma walk_spec : forall n dsegs,
  wf_node n = true -> forallb valid_name dsegs = true ->
  walk_ok cfg rules dsegs (walk cfg rules (path_of dsegs) n).
Proof.
  induction n as [size content | entries IH] using node_ind'; intros dsegs Hwf Hds.
  - intros st st' H. injection H as <-. exists []. repeat split; constructor.
  - intros st st' H. rewrite walk_Dir in H.
    destruct (wf_Dir entries Hwf) as (Hval & Hdis & Hsub).
    apply distinct_NoDup in Hdis.
    destruct (filterM _ (subdir_walks cfg rules (path_of dsegs) entries)) as [dirnames|] eqn:F;
      [|discriminate].
    cbn [bind] in H.
    destruct (foldM (visit_file cfg rules (path_of dsegs)) _ st) as [st1|] eqn:V;
      [|discriminate].
    cbn [bind] in H.
    destruct (filterM_spec _ _ _ _ F) as [F1 F2].
    destruct (subdir_walks_spec (path_of dsegs) entries) as [S1 S2].
    (* the files *)
    apply visit_files in V.
    2:{ eapply forallb_map_in; [|exact Hval]. intros x Hx.
        apply (Permutation_in _ (sorted_by_perm _ fst _)) in Hx.
        now apply filter_In in Hx. }
    2:{ eapply Permutation_NoDup.
        - apply Permutation_map. symmetry. apply sorted_by_perm.
        - now apply NoDup_map_filter. }
    destruct V as (recs1 & E1 & G1 & N1).
    (* the subdirectories *)
    apply visit_dirs with (dsegs := dsegs) in H.
    2:{ apply forallb_forall. intros name Hname.
        apply in_map_iff in Hname. destruct Hname as (d & <- & Hd).
        apply (Permutation_in _ (sorted_by_perm _ fst _)) in Hd.
        destruct (F1 d Hd) as [Hd' _]. destruct (S1 d Hd') as (ch & Hch & _).
        rewrite forallb_forall in Hval. apply Hval.
        apply in_map_iff. now exists (fst d, ch). }
    2:{ eapply Permutation_NoDup.
        - apply Permutation_map. symmetry. apply sorted_by_perm.
        - apply F2. now apply S2. }
    2:{ intros d Hd.
        apply (Permutation_in _ (sorted_by_perm _ fst _)) in Hd.
        destruct (F1 d Hd) as [Hd' K]. destruct (S1 d Hd') as (ch & Hch & Ew).
        assert (Hname : valid_name (fst d) = true).
        { rewrite forallb_forall in Hval. apply Hval.
          apply in_map_iff. now exists (fst d, ch). }
        split.
        - rewrite Ew, <- path_of_snoc.
          rewrite Forall_forall in IH, Hsub.
          apply (IH _ Hch); [apply (Hsub _ Hch)|].
          rewrite forallb_app, Hds. cbn [forallb]. now rewrite Hname.
        - unfold keep_dir in K. rewrite <- path_of_snoc in K.
          destruct (_should_ignore rules (path_of (dsegs ++ [fst d]))) as [[|]|];
            cbn [bind negb] in K; congruence. }
    destruct H as (recs2 & E2 & G2 & N2).
    exists (recs1 ++ recs2). split; [|split].
    + rewrite fold_left_app. now rewrite <- E1.
    + apply Forall_app. split; (eapply Forall_impl; [|eassumption]); now intros r [Hr _].
    + rewrite map_app. apply NoDup_app; try assumption.
      intros segs Hin1 Hin2.
      apply in_map_iff in Hin1. destruct Hin1 as (r1 & <- & Hr1).
      apply in_map_iff in Hin2. destruct Hin2 as (r2 & E & Hr2).
      rewrite Forall_forall in G1, G2.
      destruct (G1 r1 Hr1) as (_ & name & _ & Er1).
      destruct (G2 r2 Hr2) as (_ & d & rest2 & _ & Er2 & Hne).
      rewrite Er1, Er2 in E. apply app_inv_head in E. injection E as _ E.
      now apply Hne.
Qed.
End WalkFacts.

(* ------------------------------------------------------------------ *)
(** ** The whole traversal, the report and the rule set *)
(* ------------------------------------------------------------------ *)

Lemma dict_set_fresh (A : Type) k (v : A) : forall d,
~ In k (map fst d) -> dict_set k v d = d ++ [(k, v)].
Proof.
induction d as [|[k' v'] d IH]; intros H; [reflexivity|].
cbn [dict_set]. cbn [map fst In] in H.
destruct (list_eq_dec ascii_dec k' k) as [E|E]; [tauto|].
cbn [app]. f_equal. apply IH. tauto.
Qed.

Lemma fold_add_records : forall recs st,
NoDup (map fst (file_stats st) ++ map r_key recs) ->
fold_left add_record recs st =
mkState (file_stats st ++ map rec_entry recs)
        (flattened_content st ++ map rec_section recs).
Proof.
induction recs as [|r recs IH]; intros st H.
- cbn [fold_left map]. rewrite !app_nil_r. now destruct st.
- cbn [fold_left map]. rewrite IH.
  + unfold add_record. cbn [file_stats flattened_content].
    rewrite dict_set_fresh.
    * rewrite <- !app_assoc. reflexivity.
    * intros Hin. apply NoDup_remove_2 in H. apply H.
      apply in_or_app. now left.
  + unfold add_record. cbn [file_stats flattened_content].
    rewrite dict_set_fresh.
    * rewrite map_app. cbn [map fst]. rewrite <- app_assoc. exact H.
    * intros Hin. apply NoDup_remove_2 in H. apply H.
      apply in_or_app. now left.
Qed.

Section Root.
Variable cfg : config.
Variable rules : list str.

Lemma rec_good_valid r : rec_good cfg rules [] r -> forallb valid_name (r_segs r) = true.
Proof. intros (rest & E & _ & Hv & _). cbn [app] in E. now rewrite E. Qed.

Lemma keys_NoDup recs :
  Forall (rec_good cfg rules []) recs -> NoDup (map r_segs recs) ->
  NoDup (map r_key recs).
Proof.
  intros G. induction recs as [|r recs IH]; intros N; [constructor|].
  cbn [map] in *. inversion N as [|? ? Hn Hd]; subst.
  inversion G as [|? ? Gr Gs]; subst.
  constructor; [|now apply IH].
  intros Hin. apply Hn. apply in_map_iff in Hin. destruct Hin as (r' & E & Hr').
  apply in_map_iff. exists r'. split; [|assumption].
  apply path_of_inj; [| |exact E].
  - rewrite Forall_forall in Gs. now apply rec_good_valid, Gs.
  - now apply rec_good_valid.
Qed.

(** The state a traversal of the whole tree ends in. *)
Lemma walk_root root st' :
  wf_node root = true ->
  walk cfg rules [] root (mkState [] []) = Some st' ->
  exists recs,
    file_stats st' = map rec_entry recs /\
    flattened_content st' = map rec_section recs /\
    Forall (rec_good cfg rules []) recs /\
    NoDup (map r_key recs).
Proof.
  intros Hwf H.
  destruct (walk_spec cfg rules root [] Hwf eq_refl _ _ H) as (recs & E & G & N).
  pose proof (keys_NoDup recs G N) as K.
  exists recs. rewrite E, fold_add_records by exact K.
  now repeat split.
Qed.
End Root.

(** ** The structure lines *)
Lemma structure_step_acc acc item :
exists extra,
  fst (structure_step acc item) = fst acc ++ extra /\
  In (file_line (fst item) (snd item)) extra.
Proof.
destruct acc as [structure last_dir], item as [file_path stats].
unfold structure_step. cbn [fst snd].
destruct (same_dir last_dir (OsPath.dirname file_path)).
- exists [file_line file_path stats]. split; [reflexivity | now left].
- destruct (OsPath.dirname file_path) as [|c d] eqn:E.
  + exists [file_line file_path stats]. split; [reflexivity | now left].
  + exists [folder_line (c :: d); file_line file_path stats].
    split; [cbn [fst]; now rewrite <- app_assoc | right; now left].
Qed.

Lemma structure_fold : forall items acc,
(forall x, In x (fst acc) -> In x (fst (fold_left structure_step items acc))) /\
(forall item, In item items ->
   In (file_line (fst item) (snd item)) (fst (fold_left structure_step items acc))).
Proof.
induction items as [|item items IH]; intros acc.
- split; [trivial | contradiction].
- cbn [fold_left].
  destruct (IH (structure_step acc item)) as [I1 I2].
  destruct (structure_step_acc acc item) as (extra & E & Hin).
  split.
  + intros x Hx. apply I1. rewrite E. apply in_or_app. now left.
  + intros it [<- | Hit]; [|now apply I2].
    apply I1. rewrite E. apply in_or_app. now right.
Qed.

Lemma structure_lines_complete st kv :
In kv (file_stats st) -> In (file_line (fst kv) (snd kv)) (structure_lines st).
Proof.
intros H. unfold structure_lines. apply structure_fold.
eapply Permutation_in; [symmetry; apply sorted_by_perm | exact H].
Qed.

Lemma search_total pattern text :
compiles pattern -> exists b, Re.search pattern text = Some b.
Proof. intros [r E]. unfold Re.search. rewrite E. eexists; reflexivity. Qed.

Lemma should_ignore_total rules path :
Forall compiles rules -> exists b, _should_ignore rules path = Some b.
Proof.
induction 1 as [|pattern rules Hp _ IH]; [eexists; reflexivity|].
cbn [_should_ignore].
destruct (search_total pattern path Hp) as [b1 ->]. cbn [bind].
destruct b1; [eexists; reflexivity|].
destruct (search_total pattern (OsPath.basename path) Hp) as [b2 ->]. cbn [bind].
destruct b2; [eexists; reflexivity | exact IH].
Qed.

Lemma default_patterns_compile : Forall compiles default_patterns.
Proof. repeat constructor; eexists; reflexivity. Qed.

Lemma gitignore_lines_compile file_lines : Forall compiles (gitignore_lines file_lines).
Proof.
induction file_lines as [|line rest IH]; [constructor|].
cbn [gitignore_lines]. destruct (strip line) as [|c l]; [exact IH|].
destruct (startswith (c :: l) (py "#")); [exact IH|].
destruct (startswith (c :: l) (py "!")); [exact IH|].
constructor; [apply glob_to_regex_compiles | exact IH].
Qed.

Lemma load_gitignore_compiles gitignore ignore_patterns rules :
_load_gitignore gitignore ignore_patterns = Some rules -> Forall compiles rules.
Proof.
unfold _load_gitignore.
destruct gitignore as [[size [text|] | entries]|]; try discriminate.
- intros H.
  apply (f_equal (fun o => match o with Some x => x | None => [] end)) in H.
  cbv beta iota in H. rewrite <- H.
  apply Forall_app. split; [apply default_patterns_compile|].
  apply Forall_app. split; [apply gitignore_lines_compile|].
  apply Forall_forall. intros p Hp. apply in_map_iff in Hp.
  destruct Hp as (q & <- & _). apply glob_to_regex_compiles.
- intros H. injection H as <-. constructor.
Qed.

Lemma foldM_total (A B : Type) (f : B -> A -> option B) : forall l b,
(forall a b, In a l -> exists b', f b a = Some b') ->
exists b', foldM f l b = Some b'.
Proof.
induction l as [|a l IH]; intros b H; [eexists; reflexivity|].
cbn [foldM]. destruct (H a b (or_introl eq_refl)) as [b1 ->]. cbn [bind].
apply IH. intros a' b' Ha'. apply H. now right.
Qed.

Lemma filterM_total (A : Type) (f : A -> option bool) : forall l,
(forall a, In a l -> exists k, f a = Some k) ->
exists l', filterM f l = Some l'.
Proof.
induction l as [|a l IH]; intros H; [eexists; reflexivity|].
cbn [filterM]. destruct (H a (or_introl eq_refl)) as [k ->]. cbn [bind].
destruct IH as [l' ->]; [intros; apply H; now right|]. cbn [bind].
eexists; reflexivity.
Qed.

Lemma walk_total cfg rules : Forall compiles rules ->
forall n dirpath st, exists st', walk cfg rules dirpath n st = Some st'.
Proof.
intros Hr.
induction n as [size content | entries IH] using node_ind'; intros dirpath st.
- eexists; reflexivity.
- rewrite walk_Dir.
  destruct (filterM_total _ (keep_dir rules dirpath) (subdir_walks cfg rules dirpath entries))
    as [dirnames F].
  { intros d _. unfold keep_dir.
    destruct (should_ignore_total rules (OsPath.join dirpath (fst d)) Hr) as [b ->].
    eexists; reflexivity. }
  rewrite F. cbn [bind].
  destruct (foldM_total _ _ (visit_file cfg rules dirpath)
              (sorted_by fst (filter (fun e => negb (is_dir (snd e))) entries)) st)
    as [st1 V].
  { intros e b _. unfold visit_file.
    destruct (should_ignore_total rules (OsPath.join dirpath (fst e)) Hr) as [ig ->].
    cbn [bind]. destruct ig; [eexists; reflexivity|].
    destruct (snd e); eexists; reflexivity. }
  rewrite V. cbn [bind].
  apply foldM_total. intros d b Hd.
  apply (Permutation_in _ (sorted_by_perm _ fst _)) in Hd.
  destruct (filterM_spec _ _ _ _ F) as [F1 _]. destruct (F1 d Hd) as [Hd' _].
  destruct (subdir_walks_spec cfg rules dirpath entries) as [S1 _].
  destruct (S1 d Hd') as (ch & Hch & ->).
  rewrite Forall_forall in IH. apply (IH _ Hch).
Qed.

(** [flatten] completes on every directory whose [.gitignore], if any, is
  a readable file. *)
(* ------------------------------------------------------------------ *)
(** ** Processing one file *)
(* ------------------------------------------------------------------ *)

(** A text [clean_lines] leaves is empty or holds a character that is not
  white space. *)
Lemma join_first (sep : str) l L : forall x, In x l -> In x (PyStr.join sep (l :: L)).
Proof.
intros x Hx. destruct L; cbn [PyStr.join]; [assumption|].
apply in_or_app. now left.
Qed.

Lemma clean_lines_nonspace code :
clean_lines code <> [] ->
existsb (fun c => negb (isspace c)) (clean_lines code) = true.
Proof.
unfold clean_lines. fold (kept_lines code).
pose proof (kept_lines_good code) as G.
destruct (kept_lines code) as [|l L]; [intros H; now elim H|]. intros _.
inversion G as [|? ? (_ & Hnb & _) _]; subst.
rewrite nonblank_spec in Hnb. apply negb_true_iff in Hnb.
assert (exists c, In c l /\ isspace c = false) as (c & Hc & Hs).
{ clear -Hnb. induction l as [|c l IH]; [discriminate|].
  cbn [forallb] in Hnb. destruct (isspace c) eqn:E.
  - destruct (IH Hnb) as (c' & ? & ?). exists c'. split; [now right | assumption].
  - exists c. split; [now left | assumption]. }
apply existsb_exists. exists c. split; [now apply join_first|]. now rewrite Hs.
Qed.

Lemma clean_code_shape code file_path cleaned :
_clean_code code file_path = Some cleaned ->
exists code', cleaned = clean_lines code'.
Proof.
unfold _clean_code. destruct (strip_comments _ code) as [code'|]; [|discriminate].
cbn [bind]. intros [= <-]. now exists code'.
Qed.

(** The comment patterns of the table compile, so [_clean_code] returns. *)
Lemma lookup_In (A : Type) k : forall (l : list (str * A)) v,
lookup k l = Some v -> In v (map snd l).
Proof.
induction l as [|[k' v'] l IH]; intros v H; [discriminate|].
cbn [lookup] in H. destruct (list_eq_dec ascii_dec k' k).
- injection H as <-. now left.
- right. now apply IH.
Qed.

Lemma sub_total pattern repl text ml :
compiles pattern -> exists out, Re.sub pattern repl text ml = Some out.
Proof. intros [r E]. unfold Re.sub. rewrite E. eexists; reflexivity. Qed.

Lemma remove_all_total multi : Forall compiles multi ->
forall code, exists out, remove_all multi code = Some out.
Proof.
induction 1 as [|p multi Hp _ IH]; intros code; [eexists; reflexivity|].
cbn [remove_all]. destruct (sub_total p [] code false Hp) as [out ->].
cbn [bind]. apply IH.
Qed.

Lemma grammars_compile :
Forall (fun g => compiles (single_line g) /\ Forall compiles (multi_line g))
       (map snd patterns).
Proof.
repeat constructor; eexists; reflexivity.
Qed.

Lemma strip_comments_total extension code :
exists out, strip_comments (_get_language_specific_patterns extension) code = Some out.
Proof.
unfold _get_language_specific_patterns.
destruct (lookup (language_tag extension) patterns) as [g|] eqn:L;
  [|eexists; reflexivity].
apply lookup_In in L.
pose proof grammars_compile as G. rewrite Forall_forall in G.
destruct (G g L) as [Hs Hm]. cbn [strip_comments].
destruct (sub_total (single_line g) [] code true Hs) as [c1 ->]. cbn [bind].
apply remove_all_total, Hm.
Qed.

Lemma clean_code_total code file_path :
exists cleaned, _clean_code code file_path = Some cleaned.
Proof.
unfold _clean_code.
destruct (strip_comments_total (lower (snd (OsPath.splitext file_path))) code) as [c ->].
eexists; reflexivity.
Qed.

Lemma lookup_dict_set (A : Type) k (v : A) : forall d, lookup k (dict_set k v d) = Some v.
Proof.
induction d as [|[k' v'] d IH]; cbn [dict_set lookup].
- destruct (list_eq_dec ascii_dec k k); congruence.
- destruct (list_eq_dec ascii_dec k' k) as [E|E]; cbn [lookup].
  + destruct (list_eq_dec ascii_dec k k); congruence.
  + destruct (list_eq_dec ascii_dec k' k); [contradiction | exact IH].
Qed.

(* ------------------------------------------------------------------ *)
(** ** The matcher and its fuel *)
(* ------------------------------------------------------------------ *)

(** A match is only ever delivered by the continuation. *)
Lemma rep_loop_ext (body : option ascii -> str -> kont -> option str) greedy :
  (forall p s k1 k2, (forall p' s', k1 p' s' = k2 p' s') -> body p s k1 = body p s k2) ->
  forall fuel k1 k2 p s,
    (forall p' s', k1 p' s' = k2 p' s') ->
    rep_loop body greedy k1 fuel p s = rep_loop body greedy k2 fuel p s.
Proof.
  intros Hb. induction fuel as [|f IH]; intros k1 k2 p s Hk.
  - cbn [rep_loop]. rewrite (Hk p s). reflexivity.
  - cbn [rep_loop]. rewrite (Hk p s).
    rewrite (Hb p s _ (fun p' s' =>
               if length s' <? length s then rep_loop body greedy k2 f p' s' else None)).
    + reflexivity.
    + intros p' s'. destruct (length s' <? length s); [now apply IH | reflexivity].
Qed.

Lemma exec_ext ml : forall r p s k1 k2,
  (forall p' s', k1 p' s' = k2 p' s') -> exec ml r p s k1 = exec ml r p s k2.
Proof.
  induction r as [ | c | | neg items | a IHa b IHb | a IHa b IHb | q g a IHa | a IHa | | | ];
    intros p s k1 k2 Hk; cbn [exec].
  - apply Hk.
  - destruct s as [|x s']; [reflexivity|]. destruct (Ascii.eqb x c); [apply Hk | reflexivity].
  - destruct s as [|x s']; [reflexivity|]. destruct (Ascii.eqb x LF); [reflexivity | apply Hk].
  - destruct s as [|x s']; [reflexivity|]. destruct (in_set neg items x); [apply Hk | reflexivity].
  - apply IHa. intros p' s'. now apply IHb.
  - rewrite (IHa p s k1 k2 Hk), (IHb p s k1 k2 Hk). reflexivity.
  - destruct q.
    + now apply rep_loop_ext.
    + apply IHa. intros p' s'. now apply rep_loop_ext.
    + rewrite (IHa p s k1 k2 Hk), (Hk p s). reflexivity.
  - now apply IHa.
  - rewrite (Hk p s). reflexivity.
  - rewrite (Hk p s). reflexivity.
  - rewrite (Hk p s). reflexivity.
Qed.

Lemma exec_none ml : forall r p s,
  exec ml r p s (fun _ _ => None) = None.
Proof.
  assert (L : forall (body : option ascii -> str -> kont -> option str) g,
            (forall p s, body p s (fun _ _ => None) = None) ->
            (forall p s k1 k2, (forall p' s', k1 p' s' = k2 p' s') ->
                               body p s k1 = body p s k2) ->
            forall fuel p s, rep_loop body g (fun _ _ => None) fuel p s = None).
  { intros body g Hn He. induction fuel as [|f IH]; intros p s; cbn [rep_loop].
    - now destruct g.
    - rewrite (He p s _ (fun _ _ => None)).
      + rewrite Hn. now destruct g.
      + intros p' s'. destruct (length s' <? length s); [apply IH | reflexivity]. }
  induction r as [ | c | | neg items | a IHa b IHb | a IHa b IHb | q g a IHa | a IHa | | | ];
    intros p s; cbn [exec]; try reflexivity.
  - destruct s as [|x s']; [reflexivity|]. now destruct (Ascii.eqb x c).
  - destruct s as [|x s']; [reflexivity|]. now destruct (Ascii.eqb x LF).
  - destruct s as [|x s']; [reflexivity|]. now destruct (in_set neg items x).
  - rewrite (exec_ext ml a p s _ (fun _ _ => None)); [apply IHa|]. intros; apply IHb.
  - now rewrite IHa, IHb.
  - destruct q.
    + apply L; [exact IHa | apply exec_ext].
    + rewrite (exec_ext ml a p s _ (fun _ _ => None)); [apply IHa|].
      intros p' s'. apply L; [exact IHa | apply exec_ext].
    + rewrite IHa. now destruct g.
  - apply IHa.
  - now destruct (at_bol ml p).
  - now destruct (at_eol ml s).
  - now destruct (at_boundary p s).
Qed.

(** The bound on the iterations of a repetition is never the reason of a
    failure: any bound from the length of the text on gives the same
    answer. *)
Lemma rep_loop_fuel ml a greedy k : forall fuel1 fuel2 p s,
  length s <= fuel1 -> length s <= fuel2 ->
  rep_loop (exec ml a) greedy k fuel1 p s = rep_loop (exec ml a) greedy k fuel2 p s.
Proof.
  induction fuel1 as [|f1 IH]; intros fuel2 p s H1 H2.
  - assert (s = []) as -> by (destruct s; [reflexivity | simpl in H1; lia]).
    destruct fuel2 as [|f2]; [reflexivity|]. cbn [rep_loop].
    rewrite (exec_ext ml a p [] _ (fun _ _ => None)) by (intros; reflexivity).
    rewrite exec_none. reflexivity.
  - destruct fuel2 as [|f2].
    + assert (s = []) as -> by (destruct s; [reflexivity | simpl in H2; lia]).
      cbn [rep_loop].
      rewrite (exec_ext ml a p [] _ (fun _ _ => None)) by (intros; reflexivity).
      rewrite exec_none. reflexivity.
    + cbn [rep_loop].
      rewrite (exec_ext ml a p s _
                 (fun p' s' => if length s' <? length s
                               then rep_loop (exec ml a) greedy k f2 p' s' else None)).
      * reflexivity.
      * intros p' s'. destruct (length s' <? length s) eqn:E; [|reflexivity].
        apply Nat.ltb_lt in E. apply IH; lia.
Qed.

(* ------------------------------------------------------------------ *)
(** ** The C-style comment grammar *)
(* ------------------------------------------------------------------ *)

Lemma compile_line_re : compile (single_line c_style) = Some line_re.
Proof. reflexivity. Qed.

Lemma compile_block_re : map compile (multi_line c_style) = [Some block_re].
Proof. reflexivity. Qed.

Lemma line_rest_length v : length (line_rest v) <= length v.
Proof.
  induction v as [|c v IH]; [reflexivity|]. cbn [line_rest].
  destruct (Ascii.eqb c LF); cbn [length]; lia.
Qed.

Lemma after_close_length : forall v w, after_close v = Some w -> length w + 2 <= length v.
Proof.
  induction v as [|c v IH]; intros w H; [discriminate|].
  cbn [after_close] in H.
  destruct (Ascii.eqb c "*" && startswith v (py "/")) eqn:E.
  - injection H as <-. apply andb_prop in E. destruct E as [_ E].
    destruct v as [|d v]; [discriminate|]. cbn [tl length]. lia.
  - specialize (IH w H). cbn [length]. lia.
Qed.

Lemma exec_any ml p s k :
  exec ml RAny p s k =
  match s with
  | x :: s' => if Ascii.eqb x LF then None else k (Some x) s'
  | [] => None
  end.
Proof. reflexivity. Qed.

Lemma exec_allset ml p s k :
  exec ml (RSet false [CSpace; CNotSpace]) p s k =
  match s with
  | x :: s' => k (Some x) s'
  | [] => None
  end.
Proof.
  cbn [exec]. destruct s as [|x s']; [reflexivity|].
  unfold in_set. cbn [existsb in_item xorb].
  now destruct (isspace x).
Qed.

(** The greedy dot-star before the end of a line runs to that end. *)
Lemma loop_line (k0 : kont) : forall s fuel p,
  length s <= fuel ->
  exists p',
    rep_loop (exec true RAny) true
      (fun p s => if at_eol true s then k0 p s else None) fuel p s
    = k0 p' (line_rest s).
Proof.
  induction s as [|c s IH]; intros fuel p Hf.
  - exists p. destruct fuel; cbn [rep_loop]; [reflexivity|].
    rewrite exec_any. reflexivity.
  - cbn [length] in Hf. destruct fuel as [|f]; [lia|].
    cbn [rep_loop line_rest]. rewrite exec_any.
    destruct (Ascii.eqb c LF) eqn:Hc.
    + exists p. cbn [at_eol]. rewrite Hc. reflexivity.
    + replace (length s <? length (c :: s)) with true
        by (symmetry; apply Nat.ltb_lt; cbn [length]; lia).
      destruct (IH f (Some c)) as (p' & E); [lia|].
      exists p'. rewrite E.
      destruct (k0 p' (line_rest s)); [reflexivity|].
      cbn [at_eol]. rewrite Hc. reflexivity.
Qed.

Lemma match_line adv p s :
  match_at true line_re adv p s =
  if startswith s (py "//") then Some (line_rest (skipn 2 s)) else None.
Proof.
  unfold match_at, line_re.
  destruct s as [|a s]; [reflexivity|].
  cbn [exec]. destruct (Ascii.eqb a "/") eqn:Ha; [|cbn; now rewrite Ha].
  destruct s as [|b s]; [cbn; now rewrite Ha|].
  destruct (Ascii.eqb b "/") eqn:Hb; [|cbn; now rewrite Ha, Hb].
  cbn [py list_ascii_of_string startswith]. rewrite Ha, Hb. cbn [andb skipn].
  destruct (loop_line (fun (_ : option ascii) (rest : str) =>
              if adv && (length rest =? length (a :: b :: s)) then None else Some rest)
              s (length s) (Some b) (le_n _)) as (p' & E).
  etransitivity; [exact E|]. cbv beta.
  replace (length (line_rest s) =? length (a :: b :: s)) with false.
  - now rewrite andb_false_r.
  - symmetry. apply Nat.eqb_neq. pose proof (line_rest_length s). cbn [length]. lia.
Qed.

(** The lazy repetition before star-slash stops at the first one. *)
Lemma loop_block ml (k0 : kont) (bound : nat) :
  (forall p rest, length rest < bound -> k0 p rest = Some rest) ->
  forall s fuel p,
    length s <= fuel -> length s <= bound ->
    rep_loop (exec ml (RSet false [CSpace; CNotSpace])) false
      (fun p s => exec ml (RSeq (RLit "*") (RLit "/")) p s k0) fuel p s
    = after_close s.
Proof.
  intros Hk. induction s as [|c s IH]; intros fuel p Hf Hb.
  - assert (K0 : exec ml (RSeq (RLit "*") (RLit "/")) p [] k0 = None) by reflexivity.
    destruct fuel; cbn [rep_loop after_close]; rewrite K0; [reflexivity|].
    now rewrite exec_allset.
  - cbn [length] in Hf, Hb. destruct fuel as [|f]; [lia|].
    cbn [rep_loop after_close].
    assert (K : exec ml (RSeq (RLit "*") (RLit "/")) p (c :: s) k0 =
                if Ascii.eqb c "*" && startswith s (py "/") then Some (tl s) else None).
    { cbn [exec]. destruct (Ascii.eqb c "*"); [|reflexivity].
      destruct s as [|d s]; [reflexivity|].
      cbn [py list_ascii_of_string startswith andb tl].
      destruct (Ascii.eqb d "/"); [|reflexivity].
      cbn [andb]. apply Hk. cbn [length] in Hb. lia. }
    rewrite K.
    destruct (Ascii.eqb c "*" && startswith s (py "/")); [reflexivity|].
    rewrite exec_allset.
    replace (length s <? length (c :: s)) with true
      by (symmetry; apply Nat.ltb_lt; cbn [length]; lia).
    apply IH; lia.
Qed.

Lemma match_block ml adv p s :
  match_at ml block_re adv p s =
  if startswith s (py "/*") then after_close (skipn 2 s) else None.
Proof.
  unfold match_at, block_re.
  destruct s as [|a s]; [reflexivity|].
  cbn [exec]. destruct (Ascii.eqb a "/") eqn:Ha; [|cbn; now rewrite Ha].
  destruct s as [|b s]; [cbn; now rewrite Ha|].
  destruct (Ascii.eqb b "*") eqn:Hb; [|cbn; now rewrite Ha, Hb].
  cbn [py list_ascii_of_string startswith]. rewrite Ha, Hb. cbn [andb skipn].
  assert (Hk : forall (p' : option ascii) (rest : str),
             length rest < length (a :: b :: s) ->
             (if adv && (length rest =? length (a :: b :: s)) then None else Some rest)
             = Some rest).
  { intros p' rest Hr.
    replace (length rest =? length (a :: b :: s)) with false
      by (symmetry; apply Nat.eqb_neq; lia).
    now rewrite andb_false_r. }
  exact (loop_block ml
           (fun (_ : option ascii) (rest : str) =>
              if adv && (length rest =? length (a :: b :: s)) then None else Some rest)
           (length (a :: b :: s)) Hk s (length s) (Some b) (le_n _)
           ltac:(cbn [length]; lia)).
Qed.

(** ** The texts without a comment *)

Lemma strip_comments_c_style code :
  strip_comments (Some c_style) code = Some (sub_block (sub_line code)).
Proof. reflexivity. Qed.

Lemma closes_after_close v :
  closes v = match after_close v with Some _ => true | None => false end.
Proof.
  induction v as [|c v IH]; [reflexivity|].
  cbn [closes after_close py list_ascii_of_string startswith].
  destruct (Ascii.eqb c "*"); cbn [andb orb]; [|exact IH].
  destruct v as [|d v]; [reflexivity|]. cbn [startswith].
  destruct (Ascii.eqb d "/"); cbn [andb orb]; [reflexivity | exact IH].
Qed.

Lemma rebuild_keep c ps : rebuild [] (Keep c :: ps) = c :: rebuild [] ps.
Proof. reflexivity. Qed.

Lemma rebuild_hit m ps : rebuild [] (Hit m :: ps) = rebuild [] ps.
Proof. reflexivity. Qed.

Lemma scan_nil ml r skip p :
  match_len ml r false p [] = None -> scan ml r skip p [] = [].
Proof. intros H. destruct skip; cbn [scan]; [now rewrite H | reflexivity]. Qed.

Lemma scan_keep ml r p c s :
  match_len ml r false p (c :: s) = None ->
  scan ml r 0 p (c :: s) = Keep c :: scan ml r 0 (Some c) s.
Proof. intros H. cbn [scan]. now rewrite H. Qed.

Lemma scan_hit ml r p c s n :
  match_len ml r false p (c :: s) = Some (S n) ->
  scan ml r 0 p (c :: s) = Hit (firstn (S n) (c :: s)) :: scan ml r n (Some c) s.
Proof. intros H. cbn [scan]. now rewrite H. Qed.

Lemma match_len_line p s :
  match_len true line_re false p s =
  if startswith s (py "//")
  then Some (length s - length (line_rest (skipn 2 s))) else None.
Proof. unfold match_len. rewrite match_line. now destruct (startswith s (py "//")). Qed.

Lemma match_len_block ml p s :
  match_len ml block_re false p s =
  if startswith s (py "/*")
  then match after_close (skipn 2 s) with
       | Some rest => Some (length s - length rest)
       | None => None
       end
  else None.
Proof. unfold match_len. rewrite match_block. now destruct (startswith s (py "/*")). Qed.

(** The head of the output where no comment starts. *)
Lemma line_out_keep p c s :
  startswith (c :: s) (py "//") = false ->
  rebuild [] (scan true line_re 0 p (c :: s)) =
  c :: rebuild [] (scan true line_re 0 (Some c) s).
Proof.
  intros H. rewrite scan_keep, rebuild_keep; [reflexivity|].
  rewrite match_len_line. now rewrite H.
Qed.

Lemma line_out_hit p c s :
  startswith (c :: s) (py "//") = true ->
  exists n,
    rebuild [] (scan true line_re 0 p (c :: s)) =
    rebuild [] (scan true line_re n (Some c) s).
Proof.
  intros H.
  pose proof (match_len_line p (c :: s)) as M. rewrite H in M.
  assert (L : length (line_rest (skipn 2 (c :: s))) < length (c :: s)).
  { destruct s as [|d s];
      [cbn [py list_ascii_of_string startswith] in H;
       rewrite andb_false_r in H; discriminate|].
    cbn [skipn]. pose proof (line_rest_length s). cbn [length]. lia. }
  destruct (length (c :: s) - length (line_rest (skipn 2 (c :: s)))) as [|n] eqn:E; [lia|].
  exists n. now rewrite (scan_hit _ _ _ _ _ _ M), rebuild_hit.
Qed.

Lemma startswith_1 (u : str) a : startswith u [a] =
  match u with c :: _ => Ascii.eqb c a | [] => false end.
Proof. destruct u; cbn [startswith]; [reflexivity | now rewrite andb_true_r]. Qed.

Lemma startswith_2 c (u : str) a b :
  startswith (c :: u) [a; b] = Ascii.eqb c a && startswith u [b].
Proof. reflexivity. Qed.

(** After the single-line pass no double slash is left. *)
Lemma sub_line_clean : forall s skip p,
  has_dslash (rebuild [] (scan true line_re skip p s)) = false.
Proof.
  induction s as [|c s IH]; intros skip p.
  - rewrite scan_nil; [reflexivity|]. now rewrite match_len_line.
  - destruct skip as [|n]; [|cbn [scan]; apply IH].
    destruct (startswith (c :: s) (py "//")) eqn:H.
    + destruct (line_out_hit p c s H) as (n & ->). apply IH.
    + rewrite (line_out_keep p c s H).
      cbn [has_dslash]. rewrite IH, orb_false_r.
      change (py "//") with ["/"%char; "/"%char] in *.
      rewrite startswith_2 in *.
      destruct (Ascii.eqb c "/"); [|reflexivity]. cbn [andb] in *.
      destruct s as [|d s]; [now rewrite scan_nil by now rewrite match_len_line|].
      rewrite startswith_1 in H.
      rewrite line_out_keep.
      * now rewrite startswith_1.
      * change (py "//") with ["/"%char; "/"%char]. rewrite startswith_2. now rewrite H.
Qed.

(** ** The block pass *)

Lemma has_dslash_skipn : forall n s, has_dslash (skipn n s) = true -> has_dslash s = true.
Proof.
  induction n as [|n IH]; intros s H; [exact H|].
  destruct s as [|c s]; [discriminate|]. cbn [skipn] in H.
  cbn [has_dslash]. rewrite (IH s H). apply orb_true_r.
Qed.

Lemma closes_skipn : forall n s, closes (skipn n s) = true -> closes s = true.
Proof.
  induction n as [|n IH]; intros s H; [exact H|].
  destruct s as [|c s]; [discriminate|]. cbn [skipn] in H.
  cbn [closes]. rewrite (IH s H). apply orb_true_r.
Qed.

Lemma opens_here_match ml p s :
  match_len ml block_re false p s =
  if opens_here s
  then match after_close (skipn 2 s) with
       | Some rest => Some (length s - length rest)
       | None => None
       end
  else None.
Proof.
  rewrite match_len_block. unfold opens_here.
  destruct (startswith s (py "/*")); [|reflexivity]. cbn [andb].
  rewrite closes_after_close. now destruct (after_close (skipn 2 s)).
Qed.

Lemma block_out_nil skip p : rebuild [] (scan false block_re skip p []) = [].
Proof. rewrite scan_nil; [reflexivity|]. now rewrite match_len_block. Qed.

Lemma block_out_keep p c s :
  opens_here (c :: s) = false ->
  rebuild [] (scan false block_re 0 p (c :: s)) =
  c :: rebuild [] (scan false block_re 0 (Some c) s).
Proof.
  intros H. rewrite scan_keep, rebuild_keep; [reflexivity|].
  rewrite opens_here_match. now rewrite H.
Qed.

Lemma block_out_hit p c s :
  opens_here (c :: s) = true ->
  exists n,
    rebuild [] (scan false block_re 0 p (c :: s)) =
    rebuild [] (scan false block_re n (Some c) s).
Proof.
  intros H.
  pose proof (opens_here_match false p (c :: s)) as M. rewrite H in M.
  unfold opens_here in H. apply andb_prop in H. destruct H as [_ H].
  rewrite closes_after_close in H.
  destruct (after_close (skipn 2 (c :: s))) as [rest|] eqn:A; [|discriminate].
  assert (L : length rest < length (c :: s)).
  { pose proof (after_close_length _ _ A) as L. rewrite length_skipn in L. lia. }
  destruct (length (c :: s) - length rest) as [|n] eqn:E; [lia|].
  exists n. now rewrite (scan_hit _ _ _ _ _ _ M), rebuild_hit.
Qed.

Lemma opens_here_slash s : opens_here s = true -> startswith s (py "/") = true.
Proof.
  unfold opens_here. intros H. apply andb_prop in H. destruct H as [H _].
  destruct s as [|c s]; [discriminate|].
  change (py "/*") with ["/"%char; "*"%char] in H. rewrite startswith_2 in H.
  apply andb_prop in H. destruct H as [H _].
  change (py "/") with ["/"%char]. now rewrite startswith_1.
Qed.

(** A slash at the head of the output is a slash at the head of the
    text. *)
Lemma block_out_slash p s :
  startswith (rebuild [] (scan false block_re 0 p s)) (py "/") = true ->
  startswith s (py "/") = true.
Proof.
  destruct s as [|c s]; [now rewrite block_out_nil|].
  destruct (opens_here (c :: s)) eqn:H; [intros _; now apply opens_here_slash|].
  rewrite (block_out_keep p c s H).
  change (py "/") with ["/"%char]. now rewrite !startswith_1.
Qed.

Lemma block_inv : forall s skip p,
  let out := rebuild [] (scan false block_re skip p s) in
  let t := skipn skip s in
  (closes out = true -> closes t = true) /\
  (has_dslash t = false -> has_dslash out = false /\ has_pair out = false).
Proof.
  induction s as [|c s IH]; intros skip p; cbv zeta.
  - rewrite block_out_nil. split; [discriminate | now split].
  - destruct skip as [|n]; [|cbn [scan skipn]; apply IH].
    cbn [skipn].
    destruct (opens_here (c :: s)) eqn:H.
    + (* a comment starts here *)
      destruct (block_out_hit p c s H) as (n & ->).
      destruct (IH n (Some c)) as [I2 I13]. split.
      * intros K. apply I2 in K. apply (closes_skipn (S n) (c :: s)). exact K.
      * intros D. apply I13.
        destruct (has_dslash (skipn n s)) eqn:E; [|reflexivity].
        apply (has_dslash_skipn (S n) (c :: s)) in E. congruence.
    + (* the character is kept *)
      rewrite (block_out_keep p c s H).
      destruct (IH 0 (Some c)) as [I2 I13]. cbn [skipn] in I2, I13.
      set (out' := rebuild [] (scan false block_re 0 (Some c) s)) in *.
      split.
      * intros K. cbn [closes] in K |- *. apply orb_prop in K.
        destruct K as [K | K]; [|rewrite (I2 K); apply orb_true_r].
        change (py "*/") with ["*"%char; "/"%char] in *.
        rewrite startswith_2 in K |- *. apply andb_prop in K. destruct K as [K1 K2].
        rewrite K1. cbn [andb].
        change ["/"%char] with (py "/") in K2 |- *.
        subst out'. now rewrite (block_out_slash _ _ K2).
      * intros D. cbn [has_dslash] in D. apply orb_false_elim in D.
        destruct D as [D0 D].
        destruct (I13 D) as [I1 I3]. split.
        -- cbn [has_dslash]. rewrite I1, orb_false_r.
           change (py "//") with ["/"%char; "/"%char] in *.
           rewrite startswith_2 in D0 |- *.
           destruct (Ascii.eqb c "/"); [|reflexivity]. cbn [andb] in *.
           destruct (startswith out' ["/"%char]) eqn:E; [|reflexivity].
           change ["/"%char] with (py "/") in E.
           subst out'. apply block_out_slash in E.
           change (py "/") with ["/"%char] in E. congruence.
        -- cbn [has_pair]. rewrite I3, orb_false_r.
           destruct (opens_here (c :: out')) eqn:O; [|reflexivity]. exfalso.
           unfold opens_here in O. apply andb_prop in O. destruct O as [O1 O2].
           change (py "/*") with ["/"%char; "*"%char] in O1.
           rewrite startswith_2 in O1. apply andb_prop in O1. destruct O1 as [Oc Os].
           (* no comment starts at [s], whose head is not a slash *)
           change (py "//") with ["/"%char; "/"%char] in D0.
           rewrite startswith_2, Oc in D0. cbn [andb] in D0.
           assert (Hs : opens_here s = false).
           { destruct (opens_here s) eqn:E; [|reflexivity].
             apply opens_here_slash in E. change (py "/") with ["/"%char] in E.
             congruence. }
           destruct s as [|d s].
           { subst out'. rewrite block_out_nil in Os. discriminate. }
           subst out'. rewrite (block_out_keep _ _ _ Hs) in Os, O2.
           rewrite startswith_1 in Os. cbn [skipn] in O2.
           destruct (IH 1 (Some c)) as [J2 _]. cbn [scan skipn] in J2.
           apply J2 in O2.
           unfold opens_here in H.
           change (py "/*") with ["/"%char; "*"%char] in H.
           rewrite startswith_2, Oc, startswith_1, Os in H. cbn [andb skipn] in H.
           congruence.
Qed.

Lemma sub_block_clean u :
  has_dslash u = false ->
  has_dslash (sub_block u) = false /\ has_pair (sub_block u) = false.
Proof. intros H. apply (block_inv u 0 None). exact H. Qed.

(** Without a match the passes change nothing. *)
Lemma sub_line_id : forall u p,
  has_dslash u = false -> rebuild [] (scan true line_re 0 p u) = u.
Proof.
  induction u as [|c u IH]; intros p H.
  - rewrite scan_nil; [reflexivity|]. now rewrite match_len_line.
  - cbn [has_dslash] in H. apply orb_false_elim in H. destruct H as [H0 H].
    rewrite (line_out_keep p c u H0). now rewrite IH.
Qed.

Lemma sub_block_id : forall u p,
  has_pair u = false -> rebuild [] (scan false block_re 0 p u) = u.
Proof.
  induction u as [|c u IH]; intros p H.
  - apply block_out_nil.
  - cbn [has_pair] in H. apply orb_false_elim in H. destruct H as [H0 H].
    rewrite (block_out_keep p c u H0). now rewrite IH.
Qed.

(** ** Line cleaning and automata *)

Lemma lstrip_split : forall l, exists ws,
  forallb isspace ws = true /\ l = ws ++ lstrip l.
Proof.
  induction l as [|c l (ws & Hws & E)]; [now exists []|].
  cbn [lstrip]. destruct (isspace c) eqn:Hc.
  - exists (c :: ws). cbn [forallb app]. rewrite Hc, Hws. split; [reflexivity|].
    now rewrite <- E.
  - now exists [].
Qed.

Lemma rstrip_split l : exists ws,
  forallb isspace ws = true /\ l = rstrip l ++ ws.
Proof.
  destruct (lstrip_split (rev l)) as (ws & Hws & E).
  exists (rev ws). split; [now rewrite forallb_rev|].
  unfold rstrip. rewrite <- rev_app_distr, <- E. now rewrite rev_involutive.
Qed.

Lemma linebreak_space c : islinebreak c = true -> isspace c = true.
Proof.
  unfold islinebreak, isspace. cbv zeta.
  rewrite !orb_true_iff, !andb_true_iff, !Nat.leb_le, Nat.eqb_eq. lia.
Qed.

Section AutomatonFacts.
Variable state : Type.
Variable step : state -> ascii -> state.
Variable reset : state -> state.
Variable accept : state -> bool.
Hypothesis step_space : forall q c, isspace c = true -> step q c = reset q.
Hypothesis reset_idem : forall q, reset (reset q) = reset q.
Hypothesis accept_reset : forall q, accept (reset q) = accept q.

Lemma run_app q s t : run state step q (s ++ t) = run state step (run state step q s) t.
Proof. apply fold_left_app. Qed.

Lemma run_nil q : run state step q [] = q.
Proof. reflexivity. Qed.

Lemma run_cons q c s : run state step q (c :: s) = run state step (step q c) s.
Proof. reflexivity. Qed.

Lemma run_lines_cons q l L :
  run_lines state step reset q (l :: L) = run_lines state step reset (reset (run state step q l)) L.
Proof. reflexivity. Qed.

Lemma run_space : forall l q,
  forallb isspace l = true -> reset (run state step q l) = reset q.
Proof.
  induction l as [|c l IH]; intros q H; [reflexivity|].
  cbn [forallb] in H. apply andb_prop in H. destruct H as [Hc Hl].
  rewrite run_cons, (step_space q c Hc), (IH _ Hl). apply reset_idem.
Qed.

Lemma run_rstrip q l : reset (run state step q (rstrip l)) = reset (run state step q l).
Proof.
  destruct (rstrip_split l) as (ws & Hws & E).
  rewrite E at 2. rewrite run_app. now rewrite (run_space ws _ Hws).
Qed.

Lemma run_splitlines_len : forall n s q, length s <= n ->
  reset (run state step q s) =
  match splitlines s with
  | [] => reset q
  | l :: ls => run_lines state step reset (reset (run state step q l)) ls
  end.
Proof.
  induction n as [|n IH]; intros s q Hn.
  - destruct s; [reflexivity | cbn [length] in Hn; lia].
  - destruct s as [|c s]; [reflexivity|]. cbn [length] in Hn.
    rewrite run_cons. cbn [splitlines].
    destruct (Ascii.eqb c CR) eqn:Ec.
    + apply Ascii.eqb_eq in Ec. subst c.
      rewrite (step_space q CR eq_refl).
      destruct s as [|d s]; [apply reset_idem|].
      destruct (Ascii.eqb d LF) eqn:Ed.
      * apply Ascii.eqb_eq in Ed. subst d.
        rewrite run_cons, (step_space _ LF eq_refl), reset_idem.
        rewrite (IH s (reset q)) by (cbn [length] in Hn; lia).
        rewrite run_nil, !reset_idem. now destruct (splitlines s).
      * rewrite (IH (d :: s) (reset q)) by lia.
        rewrite run_nil, !reset_idem. now destruct (splitlines (d :: s)).
    + destruct (islinebreak c) eqn:Hc.
      * rewrite (step_space q c (linebreak_space c Hc)).
        rewrite (IH s (reset q)) by lia.
        rewrite run_nil, !reset_idem. now destruct (splitlines s).
      * rewrite (IH s (step q c)) by lia.
        now destruct (splitlines s).
Qed.

Lemma run_splitlines s q :
  reset q = q -> reset (run state step q s) = run_lines state step reset q (splitlines s).
Proof.
  intros Hq. rewrite (run_splitlines_len (length s) s q (le_n _)).
  destruct (splitlines s); [exact Hq | reflexivity].
Qed.

Lemma run_join : forall L q,
  reset q = q -> reset (run state step q (join [LF] L)) = run_lines state step reset q L.
Proof.
  induction L as [|l L IH]; intros q Hq; [exact Hq|].
  destruct L as [|l2 L]; [reflexivity|].
  change (join [LF] (l :: l2 :: L)) with (l ++ LF :: join [LF] (l2 :: L)).
  rewrite run_app, run_cons, (step_space _ LF eq_refl).
  rewrite IH by apply reset_idem. reflexivity.
Qed.

Lemma run_lines_kept : forall L q,
  reset q = q ->
  run_lines state step reset q (map rstrip (filter nonblank L)) = run_lines state step reset q L.
Proof.
  induction L as [|l L IH]; intros q Hq; [reflexivity|].
  cbn [filter]. destruct (nonblank l) eqn:Hl.
  - cbn [map]. rewrite !run_lines_cons, run_rstrip. apply IH, reset_idem.
  - rewrite nonblank_spec in Hl. apply negb_false_iff in Hl.
    rewrite run_lines_cons, (run_space l q Hl), Hq. now apply IH.
Qed.

(** Line cleaning only moves the automaton through resets. *)
Lemma run_clean_lines u q :
  reset q = q -> accept (run state step q (clean_lines u)) = accept (run state step q u).
Proof.
  intros Hq.
  rewrite <- (accept_reset (run state step q (clean_lines u))), <- (accept_reset (run state step q u)).
  f_equal. unfold clean_lines. fold nonblank.
  rewrite run_join, run_lines_kept, run_splitlines by exact Hq. reflexivity.
Qed.

End AutomatonFacts.

Lemma space_slash c : isspace c = true -> Ascii.eqb c "/" = false.
Proof.
  intros H. destruct (Ascii.eqb c "/") eqn:E; [|reflexivity].
  apply Ascii.eqb_eq in E. subst. discriminate.
Qed.

Lemma space_star c : isspace c = true -> Ascii.eqb c "*" = false.
Proof.
  intros H. destruct (Ascii.eqb c "*") eqn:E; [|reflexivity].
  apply Ascii.eqb_eq in E. subst. discriminate.
Qed.

Lemma dstep_space q c : isspace c = true -> dstep q c = dreset q.
Proof. intros H. destruct q; cbn [dstep dreset]; now rewrite ?(space_slash c H). Qed.

Lemma pstep_space q c : isspace c = true -> bstep q c = breset q.
Proof.
  intros H. destruct q; cbn [bstep breset];
    now rewrite ?(space_slash c H), ?(space_star c H).
Qed.

Lemma has_dslash_cons c s :
  has_dslash (c :: s) = (Ascii.eqb c "/" && startswith s (py "/")) || has_dslash s.
Proof. reflexivity. Qed.

Lemma closes_cons c s :
  closes (c :: s) = (Ascii.eqb c "*" && startswith s (py "/")) || closes s.
Proof. reflexivity. Qed.

Lemma has_pair_cons c s :
  has_pair (c :: s) =
  (Ascii.eqb c "/" && (startswith s (py "*") && closes (tl s))) || has_pair s.
Proof.
  cbn [has_pair]. f_equal. unfold opens_here.
  change (py "/*") with ["/"%char; "*"%char]. rewrite startswith_2.
  change ["*"%char] with (py "*"). rewrite <- andb_assoc. reflexivity.
Qed.

Lemma drun_lang : forall s q, daccept (run dstate dstep q s) = dlang q s.
Proof.
  induction s as [|c s IH]; intros q; [now destruct q|].
  rewrite run_cons, IH.
  destruct q; cbn [dstep dlang]; rewrite ?has_dslash_cons.
  - destruct (Ascii.eqb c "/"); reflexivity.
  - change (py "/") with ["/"%char]. rewrite (startswith_1 (c :: s)).
    destruct (Ascii.eqb c "/"); reflexivity.
  - reflexivity.
Qed.

Lemma has_pair_closes : forall s, has_pair s = true -> closes s = true.
Proof.
  induction s as [|c s IH]; [discriminate|].
  rewrite has_pair_cons, closes_cons. intros H.
  apply orb_prop in H. destruct H as [H | H].
  - apply andb_prop in H. destruct H as [_ H].
    apply andb_prop in H. destruct H as [H1 H2].
    destruct s as [|d s]; [discriminate|]. cbn [tl] in H2.
    rewrite closes_cons, H2, !orb_true_r. reflexivity.
  - rewrite (IH H). apply orb_true_r.
Qed.

Lemma brun_lang : forall s q, baccept (run bstate bstep q s) = blang q s.
Proof.
  induction s as [|c s IH]; intros q; [now destruct q|].
  rewrite run_cons, IH.
  destruct q; cbn [bstep blang tl];
    rewrite ?has_pair_cons, ?closes_cons;
    change (py "/") with ["/"%char]; change (py "*") with ["*"%char];
    rewrite ?(startswith_1 (c :: s)).
  - destruct (Ascii.eqb c "/"); reflexivity.
  - destruct (Ascii.eqb c "*") eqn:Es.
    + apply Ascii.eqb_eq in Es. subst c. cbn [Ascii.eqb Bool.eqb andb orb blang].
      destruct (has_pair s) eqn:Hp; [|now rewrite orb_false_r].
      now rewrite (has_pair_closes s Hp).
    + destruct (Ascii.eqb c "/"); reflexivity.
  - destruct (Ascii.eqb c "*"); reflexivity.
  - destruct (Ascii.eqb c "/") eqn:Es.
    + reflexivity.
    + destruct (Ascii.eqb c "*"); reflexivity.
  - reflexivity.
Qed.

(** Line cleaning brings no comment about. *)
Lemma clean_lines_dslash u : has_dslash (clean_lines u) = has_dslash u.
Proof.
  change (dlang D0 (clean_lines u) = dlang D0 u). rewrite <- !drun_lang.
  apply (run_clean_lines dstate dstep dreset daccept).
  - apply dstep_space.
  - now intros [].
  - now intros [].
  - reflexivity.
Qed.

Lemma clean_lines_pair u : has_pair (clean_lines u) = has_pair u.
Proof.
  change (blang B0 (clean_lines u) = blang B0 u). rewrite <- !brun_lang.
  apply (run_clean_lines bstate bstep breset baccept).
  - apply pstep_space.
  - now intros [].
  - now intros [].
  - reflexivity.
Qed.

(** The C-style normalization leaves a text it produced unchanged. *)
Lemma c_style_fixed x :
  let y := clean_lines (sub_block (sub_line x)) in
  strip_comments (Some c_style) y = Some y.
Proof.
  cbv zeta. rewrite strip_comments_c_style.
  pose proof (sub_line_clean x 0 None) as L. fold (pieces true line_re x) in L.
  fold (sub_line x) in L.
  destruct (sub_block_clean (sub_line x) L) as [D P].
  set (y := clean_lines (sub_block (sub_line x))).
  assert (Dy : has_dslash y = false) by (unfold y; now rewrite clean_lines_dslash).
  assert (Py : has_pair y = false) by (unfold y; now rewrite clean_lines_pair).
  unfold sub_line at 1, sub_block at 1, pieces.
  rewrite (sub_line_id y None Dy). now rewrite (sub_block_id y None Py).
Qed.

(** The grammar of a language tag other than python and ruby is the
    C-style one, when there is one. *)
Lemma grammar_cases tag :
  tag <> py "python" -> tag <> py "ruby" ->
  lookup tag patterns = None \/ lookup tag patterns = Some c_style.
Proof.
  intros Hp Hr. unfold patterns. cbn [lookup].
  destruct (list_eq_dec ascii_dec (py "python") tag) as [E|_]; [now elim Hp|].
  do 5 (destruct (list_eq_dec ascii_dec _ tag) as [_|_]; [now right|]).
  destruct (list_eq_dec ascii_dec (py "ruby") tag) as [E|_]; [now elim Hr|].
  now left.
Qed.

Lemma clean_code_c_style code file_path :
  _get_language_specific_patterns (lower (snd (OsPath.splitext file_path)))
    = Some c_style ->
  exists y, _clean_code code file_path = Some y /\ _clean_code y file_path = Some y.
Proof.
  intros H. exists (clean_lines (sub_block (sub_line code))).
  unfold _clean_code. rewrite H, strip_comments_c_style. cbn [bind].
  split; [reflexivity|].
  rewrite (c_style_fixed code). cbn [bind]. now rewrite clean_lines_idem.
Qed.

(* ------------------------------------------------------------------ *)
(** ** Divisions that are exact in floating point *)
(* ------------------------------------------------------------------ *)

Section Division.
Import PyFloat.
Local Open Scope Z_scope.

Lemma round_half_even_cases num den :
  0 < den ->
  round_half_even num den = num / den \/
  (round_half_even num den = num / den + 1 /\ den <= 2 * (num mod den)).
Proof.
  intros Hd. unfold round_half_even.
  destruct (2 * (num mod den) <? den) eqn:E1; [now left|].
  apply Z.ltb_ge in E1.
  destruct (den <? 2 * (num mod den)); [now right|].
  destruct (Z.even (num / den)); [now left | now right].
Qed.

Lemma round_half_even_scale num den c :
  0 < den -> 0 < c ->
  round_half_even (num * c) (den * c) = round_half_even num den.
Proof.
  intros Hd Hc. unfold round_half_even.
  rewrite Z.div_mul_cancel_r, Z.mul_mod_distr_r by lia.
  replace (2 * (num mod den * c) <? den * c) with (2 * (num mod den) <? den).
  - replace (den * c <? 2 * (num mod den * c)) with (den <? 2 * (num mod den)).
    + reflexivity.
    + destruct (den <? 2 * (num mod den)) eqn:E; symmetry.
      * apply Z.ltb_lt in E. apply Z.ltb_lt. nia.
      * apply Z.ltb_ge in E. apply Z.ltb_ge. nia.
  - destruct (2 * (num mod den) <? den) eqn:E; symmetry.
    + apply Z.ltb_lt in E. apply Z.ltb_lt. nia.
    + apply Z.ltb_ge in E. apply Z.ltb_ge. nia.
Qed.

Lemma round_half_even_exact q den : 0 < den -> round_half_even (q * den) den = q.
Proof.
  intros Hd. unfold round_half_even.
  rewrite Z.div_mul, Z.mod_mul by lia.
  replace (2 * 0 <? den) with true by (symmetry; apply Z.ltb_lt; lia).
  reflexivity.
Qed.

Lemma binade_bounds x y :
  0 < x -> 0 < y ->
  Z.log2 x - Z.log2 y - 1 <= binade x y <= Z.log2 x - Z.log2 y.
Proof. intros Hx Hy. unfold binade. destruct (_ <? _); lia. Qed.

Lemma log2_below x n : 0 < x < 2 ^ n -> 0 <= Z.log2 x < n.
Proof.
  intros H. split; [apply Z.log2_nonneg|]. apply Z.log2_lt_pow2; lia.
Qed.

Lemma binade_low x y : 0 < x -> 0 < y -> 0 <= binade x y -> y * 2 ^ binade x y <= x.
Proof.
  intros Hx Hy. unfold binade.
  set (e0 := Z.log2 x - Z.log2 y).
  destruct (Z.log2_spec x Hx) as [Lx _].
  destruct (Z.log2_spec y Hy) as [_ Uy].
  pose proof (Z.log2_nonneg x). pose proof (Z.log2_nonneg y).
  destruct (_ <? _) eqn:E; intros He.
  - assert (P : 2 ^ Z.succ (Z.log2 y) * 2 ^ (e0 - 1) = 2 ^ Z.log2 x).
    { rewrite <- Z.pow_add_r by lia. f_equal. subst e0. lia. }
    assert (0 < 2 ^ (e0 - 1)) by (apply Z.pow_pos_nonneg; lia).
    nia.
  - apply Z.ltb_ge in E.
    rewrite (Z.max_l 0 (- e0)), (Z.max_r 0 e0) in E by lia.
    change (2 ^ 0) with 1 in E. lia.
Qed.

(** Below [2^53] the division followed by [int] is the integer
    quotient. *)
Lemma int_div_exact a b :
  Z.abs a < 2 ^ 53 -> 0 < Z.abs b < 2 ^ 53 ->
  int_div a b = Some (Z.quot a b).
Proof.
  intros Ha Hb. unfold int_div, truediv.
  destruct (b =? 0) eqn:Eb; [apply Z.eqb_eq in Eb; lia|].
  destruct (a =? 0) eqn:Ea.
  { apply Z.eqb_eq in Ea. subst a. cbn [bind]. unfold int_of_float.
    cbn [expo mant negative]. rewrite Z.quot_0_l by lia.
    now destruct (b <? 0). }
  apply Z.eqb_neq in Ea, Eb.
  set (x := Z.abs a) in *. set (y := Z.abs b) in *.
  assert (Hx : 0 < x < 2 ^ 53) by (subst x; lia).
  pose proof (binade_bounds x y (proj1 Hx) (proj1 Hb)) as Be.
  pose proof (log2_below x 53 Hx) as Lx.
  pose proof (log2_below y 53 Hb) as Ly.
  pose proof (binade_low x y (proj1 Hx) (proj1 Hb)) as Low.
  rewrite (Z.max_l (binade x y) (-1022)) by lia.
  set (e := binade x y) in *.
  rewrite (Z.max_l 0 (e - 52)), (Z.max_r 0 (52 - e)) by lia.
  change (2 ^ 0) with 1. rewrite !Z.mul_1_r.
  set (k := 52 - e). set (P := 2 ^ k).
  assert (HP : 0 < P) by (apply Z.pow_pos_nonneg; lia).
  assert (Hy2 : y < 2 * P).
  { destruct (Z_lt_le_dec e 0) as [Neg | Pos].
    - assert (2 ^ 53 <= 2 * P); [|lia].
      replace (2 * P) with (2 ^ (53 - e)).
      + apply Z.pow_le_mono_r; lia.
      + subst P k. replace (53 - e) with (Z.succ (52 - e)) by lia.
        rewrite Z.pow_succ_r by lia. reflexivity.
    - specialize (Low Pos).
      assert (Q : 2 * P * 2 ^ e = 2 ^ 53).
      { subst P k. rewrite <- Z.mul_assoc, <- Z.pow_add_r by lia.
        replace (52 - e + e) with 52 by lia. reflexivity. }
      assert (0 < 2 ^ e) by (apply Z.pow_pos_nonneg; lia).
      nia. }
  pose proof (Z.div_mod x y ltac:(lia)) as Dx.
  pose proof (Z.mod_pos_bound x y ltac:(lia)) as Rx.
  pose proof (Z.div_mod (x * P) y ltac:(lia)) as DN.
  pose proof (Z.mod_pos_bound (x * P) y ltac:(lia)) as RN.
  assert (HM : x / y * P <= x * P / y < (x / y + 1) * P) by nia.
  assert (V : round_half_even (x * P) y / P = x / y).
  { symmetry.
    destruct (round_half_even_cases (x * P) y ltac:(lia)) as [-> | [-> Hup]].
    - apply Z.div_unique_pos with (r := x * P / y - x / y * P); lia.
    - apply Z.div_unique_pos with (r := x * P / y + 1 - x / y * P); [|lia].
      split; [lia|].
      destruct (Z_lt_le_dec (x * P / y + 1) ((x / y + 1) * P)) as [Lt | Ge']; [lia|].
      exfalso. assert (EM : x * P / y = (x / y + 1) * P - 1) by lia.
      assert (ER : (x * P) mod y = y - (y - x mod y) * P) by nia.
      nia. }
  assert (Hq : 0 <= x / y <= x).
  { split; [apply Z.div_pos; lia|]. apply Z.div_le_upper_bound; [lia|]. nia. }
  assert (Hm : 0 <= round_half_even (x * P) y <= x * P + 1).
  { assert (0 <= x * P / y <= x * P).
    { split; [apply Z.div_pos; nia|]. apply Z.div_le_upper_bound; [lia|]. nia. }
    destruct (round_half_even_cases (x * P) y ltac:(lia)) as [-> | [-> _]]; lia. }
  assert (HP2 : P <= 2 ^ 105).
  { subst P k. apply Z.pow_le_mono_r; lia. }
  replace (2 ^ 1024 <=? round_half_even (x * P) y) with false.
  2:{ symmetry. apply Z.leb_gt.
      assert (x * P + 1 < 2 ^ 1024); [|lia].
      assert (x * P < 2 ^ 53 * 2 ^ 105) by nia.
      assert (2 ^ 53 * 2 ^ 105 + 1 < 2 ^ 1024) by (vm_compute; reflexivity).
      lia. }
  cbn [bind]. unfold int_of_float. cbn [expo mant negative].
  f_equal.
  assert (Hv : (if 0 <=? e - 52 then round_half_even (x * P) y * 2 ^ (e - 52)
                else round_half_even (x * P) y / 2 ^ (- (e - 52))) = x / y).
  { destruct (0 <=? e - 52) eqn:E.
    - apply Z.leb_le in E. assert (e = 52) by lia.
      rewrite <- V. subst P k. replace (e - 52) with 0 by lia.
      replace (52 - e) with 0 by lia. change (2 ^ 0) with 1.
      now rewrite Z.mul_1_r, Z.div_1_r.
    - replace (- (e - 52)) with k by (subst k; lia). exact V. }
  rewrite Hv. rewrite (Z.quot_div a b) by lia. fold x y.
  destruct (Z.sgn a * Z.sgn b <? 0) eqn:S.
  - apply Z.ltb_lt in S. assert (Z.sgn a * Z.sgn b = -1) by lia. lia.
  - apply Z.ltb_ge in S. assert (Z.sgn a * Z.sgn b = 1) by lia. lia.
Qed.

(** A zero dividend makes no difference. *)
Lemma int_div_zero b : b <> 0 -> int_div 0 b = Some 0.
Proof.
  intros Hb. unfold int_div, truediv.
  replace (b =? 0) with false by (symmetry; now apply Z.eqb_neq).
  cbn [Z.eqb bind]. unfold int_of_float. cbn [expo mant negative].
  now destruct (b <? 0).
Qed.

(** The size in KB of a total below [2^53]: the number of tenths nearest
    to the exact quotient, a tie going to the even one. *)
Lemma format_kb_exact total :
  0 <= total < 2 ^ 53 ->
  format_kb total =
  Some (of_Z (round_half_even (10 * total) 1024 / 10) ++ py "." ++
        of_Z (round_half_even (10 * total) 1024 mod 10)).
Proof.
  intros Ht. unfold format_kb, truediv. cbn [Z.eqb].
  destruct (total =? 0) eqn:E0.
  { apply Z.eqb_eq in E0. subst total. reflexivity. }
  apply Z.eqb_neq in E0.
  rewrite (Z.abs_eq total) by lia. change (Z.abs 1024) with 1024.
  assert (Hx : 0 < total < 2 ^ 53) by lia.
  pose proof (binade_bounds total 1024 (proj1 Hx) ltac:(lia)) as Be.
  pose proof (log2_below total 53 Hx) as Lx.
  change (Z.log2 1024) with 10 in Be.
  rewrite (Z.max_l (binade total 1024) (-1022)) by lia.
  set (e := binade total 1024) in *.
  rewrite (Z.max_l 0 (e - 52)), (Z.max_r 0 (52 - e)) by lia.
  change (2 ^ 0) with 1. rewrite !Z.mul_1_r.
  set (c := 2 ^ (52 - e - 10)).
  assert (Hc : 0 < c) by (apply Z.pow_pos_nonneg; lia).
  assert (Ek : 2 ^ (52 - e) = c * 1024).
  { subst c. change 1024 with (2 ^ 10). rewrite <- Z.pow_add_r by lia.
    f_equal. lia. }
  rewrite Ek, Z.mul_assoc, round_half_even_exact by lia.
  assert (Hc2 : c <= 2 ^ 53).
  { subst c. apply Z.pow_le_mono_r; lia. }
  replace (2 ^ 1024 <=? total * c) with false.
  2:{ symmetry. apply Z.leb_gt.
      assert (total * c < 2 ^ 53 * 2 ^ 53) by nia.
      assert (2 ^ 53 * 2 ^ 53 < 2 ^ 1024) by (vm_compute; reflexivity).
      lia. }
  cbn [bind]. unfold format_1f. cbn [expo mant negative].
  match goal with
  | |- context [if ?s then py "-" else []] =>
      replace s with false
        by (symmetry; apply Z.ltb_ge; rewrite Z.sgn_pos by lia; cbn; lia)
  end.
  replace (0 <=? e - 52) with false by (symmetry; apply Z.leb_gt; lia).
  replace (- (e - 52)) with (52 - e) by lia.
  rewrite Ek.
  replace (10 * (total * c)) with (10 * total * c) by lia.
  replace (c * 1024) with (1024 * c) by lia.
  rewrite round_half_even_scale by lia.
  reflexivity.
Qed.

(** The number of tenths is the nearest one. *)
Lemma round_half_even_nearest num den :
  0 < den ->
  Z.abs (2 * (den * round_half_even num den - num)) <= den /\
  (Z.abs (2 * (den * round_half_even num den - num)) = den ->
   Z.even (round_half_even num den) = true).
Proof.
  intros Hd. unfold round_half_even.
  pose proof (Z.div_mod num den ltac:(lia)) as D.
  pose proof (Z.mod_pos_bound num den ltac:(lia)) as R.
  set (q := num / den) in *. set (r := num mod den) in *.
  destruct (2 * r <? den) eqn:E1.
  { apply Z.ltb_lt in E1. split; lia. }
  apply Z.ltb_ge in E1.
  destruct (den <? 2 * r) eqn:E2.
  { apply Z.ltb_lt in E2. split; lia. }
  apply Z.ltb_ge in E2.
  destruct (Z.even q) eqn:E3.
  - split; [lia | intros _; exact E3].
  - split; [lia|]. intros _. rewrite Z.even_add, E3. reflexivity.
Qed.

End Division.

(* ------------------------------------------------------------------ *)
(** ** Bounds on the token estimate *)
(* ------------------------------------------------------------------ *)

Lemma word_not_symbol c : is_word c = true -> is_symbol c = false.
Proof.
  intros H. unfold is_symbol, in_set. cbn [existsb in_item xorb]. now rewrite H.
Qed.

Lemma runs_and_symbols : forall s b,
  word_runs b s + count_symbols s <= length s.
Proof.
  unfold count_symbols.
  induction s as [|c s IH]; intros b; [reflexivity|].
  cbn [word_runs filter length]. destruct (is_word c) eqn:W.
  - rewrite (word_not_symbol c W). pose proof (IH true). destruct b; lia.
  - pose proof (IH false). destruct (is_symbol c); cbn [length]; lia.
Qed.

Lemma token_count_bounds s : (0 <= token_count s <= Z.of_nat (length s))%Z.
Proof.
  unfold token_count. pose proof (runs_and_symbols s false). lia.
Qed.

(* ------------------------------------------------------------------ *)
(** ** The truncation step *)
(* ------------------------------------------------------------------ *)

(** At or below the limit the text is returned as it is. *)
Lemma truncate_within cfg cleaned tokens :
  (tokens <= max_token_length cfg)%Z -> truncate cfg cleaned tokens = Some cleaned.
Proof.
  intros H. unfold truncate.
  replace (tokens >? max_token_length cfg)%Z with false; [reflexivity|].
  symmetry. rewrite Z.gtb_ltb. apply Z.ltb_ge. lia.
Qed.

(** Above the limit the result, if there is one, ends with the marker. *)
Lemma truncate_over cfg cleaned tokens body :
  (tokens > max_token_length cfg)%Z ->
  truncate cfg cleaned tokens = Some body ->
  exists n,
    int_div (Z.of_nat (length cleaned) * max_token_length cfg) tokens = Some n /\
    body = slice_to cleaned n ++ truncation_marker.
Proof.
  intros H. unfold truncate.
  replace (tokens >? max_token_length cfg)%Z with true
    by (symmetry; apply Z.gtb_lt; lia).
  destruct (int_div _ tokens) as [n|]; [|discriminate]. cbn [bind].
  intros E. injection E as <-. now exists n.
Qed.

(** While [length * limit] stays below [2^53] the cut is at the integer
    quotient. *)
Lemma truncate_quot cfg cleaned tokens :
  (0 < tokens <= Z.of_nat (length cleaned))%Z ->
  (tokens > max_token_length cfg)%Z ->
  (Z.of_nat (length cleaned) * Z.abs (max_token_length cfg) < 2 ^ 53)%Z ->
  truncate cfg cleaned tokens =
  Some (slice_to cleaned
          (Z.quot (Z.of_nat (length cleaned) * max_token_length cfg) tokens)
        ++ truncation_marker).
Proof.
  intros Ht Hgt Hb. unfold truncate.
  replace (tokens >? max_token_length cfg)%Z with true
    by (symmetry; apply Z.gtb_lt; lia).
  set (len := Z.of_nat (length cleaned)) in *.
  set (limit := max_token_length cfg) in *.
  destruct (Z.eq_dec limit 0) as [E0 | N0].
  - rewrite E0, Z.mul_0_r, int_div_zero by lia.
    cbn [bind]. now rewrite Z.quot_0_l by lia.
  - rewrite int_div_exact; [reflexivity | |].
    + rewrite Z.abs_mul, (Z.abs_eq len) by lia. exact Hb.
    + rewrite Z.abs_eq by lia. split; [lia|]. nia.
Qed.


(* ------------------------------------------------------------------ *)
(** ** Processing one file *)
(* ------------------------------------------------------------------ *)

(** What [_process_file] records for a file that passes the filters and
    whose truncation step returns. *)
Lemma process_file_given cfg relative_path file_size content tag cleaned estimate body st :
  lookup (lower (snd (OsPath.splitext relative_path))) SUPPORTED_EXTENSIONS = Some tag ->
  (file_size <= max_file_size cfg)%Z ->
  _clean_code content relative_path = Some cleaned -> cleaned <> [] ->
  _estimate_tokens cleaned = Some estimate ->
  truncate cfg cleaned estimate = Some body ->
  _process_file cfg relative_path file_size (Some content) st =
  mkState
    (dict_set relative_path
       (mkFileStats file_size estimate (Z.of_nat (length (splitlines body))))
       (file_stats st))
    (flattened_content st ++ [section relative_path body]).
Proof.
  intros Hext Hsize Hc Hne He Ht.
  unfold _process_file, process_file_body. rewrite Hext.
  replace (file_size >? max_file_size cfg)%Z with false
    by (symmetry; rewrite Z.gtb_ltb; apply Z.ltb_ge; lia).
  cbn [bind]. rewrite Hc. cbn [bind].
  destruct cleaned as [|c cleaned]; [congruence|].
  rewrite He. cbn [bind]. rewrite Ht. reflexivity.
Qed.

(** A file whose truncation step raises is left out. *)
Lemma process_file_raises cfg relative_path file_size content cleaned estimate st :
  _clean_code content relative_path = Some cleaned ->
  _estimate_tokens cleaned = Some estimate ->
  truncate cfg cleaned estimate = None ->
  _process_file cfg relative_path file_size (Some content) st = st.
Proof.
  intros Hc He Ht. unfold _process_file, process_file_body.
  destruct (lookup _ SUPPORTED_EXTENSIONS); [|reflexivity].
  destruct (file_size >? max_file_size cfg)%Z; [reflexivity|].
  cbn [bind]. rewrite Hc. cbn [bind].
  destruct cleaned as [|c cleaned]; [reflexivity|].
  rewrite He. cbn [bind]. rewrite Ht. reflexivity.
Qed.

(** The estimate of a normalized text that is not empty. *)
Lemma clean_estimate content file_path cleaned estimate :
  _clean_code content file_path = Some cleaned -> cleaned <> [] ->
  _estimate_tokens cleaned = Some estimate ->
  (0 < estimate <= Z.of_nat (length cleaned))%Z.
Proof.
  intros Hc Hne He.
  rewrite estimate_tokens_eq in He. injection He as <-.
  destruct (clean_code_shape _ _ _ Hc) as [code' ->].
  pose proof (token_count_pos _ (clean_lines_nonspace _ Hne)).
  pose proof (token_count_bounds (clean_lines code')). lia.
Qed.

(* ------------------------------------------------------------------ *)
(** ** The matcher finds a match exactly where there is one *)
(* ------------------------------------------------------------------ *)

Lemma more_sound (body : option ascii -> str -> kont -> option str)
      (R : pos -> pos -> Prop) (F k : kont) p s out :
  (forall p s k' out, body p s k' = Some out ->
     exists b, R (p, s) b /\ k' (fst b) (snd b) = Some out) ->
  (forall p' s' out, F p' s' = Some out ->
     exists b, reps R (p', s') b /\ k (fst b) (snd b) = Some out) ->
  body p s (fun p' s' => if length s' <? length s then F p' s' else None) = Some out ->
  exists b, reps R (p, s) b /\ k (fst b) (snd b) = Some out.
Proof.
  intros Hb HF M. destruct (Hb _ _ _ _ M) as ([p1 s1] & HR & Hk).
  cbn [fst snd] in Hk.
  destruct (length s1 <? length s) eqn:L; [|discriminate].
  apply Nat.ltb_lt in L.
  destruct (HF _ _ _ Hk) as (b & Hi & Hkb).
  exists b. split; [|exact Hkb]. now apply (reps_more R (p, s) (p1, s1) b).
Qed.

Lemma rep_loop_sound (body : option ascii -> str -> kont -> option str)
      (R : pos -> pos -> Prop) greedy k :
  (forall p s k' out, body p s k' = Some out ->
     exists b, R (p, s) b /\ k' (fst b) (snd b) = Some out) ->
  forall fuel p s out,
    rep_loop body greedy k fuel p s = Some out ->
    exists b, reps R (p, s) b /\ k (fst b) (snd b) = Some out.
Proof.
  intros Hb. induction fuel as [|f IH]; intros p s out H.
  - cbn [rep_loop] in H. exists (p, s). split; [constructor|]. cbn [fst snd].
    destruct greedy; [exact H|]. destruct (k p s); [exact H | discriminate].
  - cbn [rep_loop] in H. destruct greedy.
    + match type of H with
      | match ?X with _ => _ end = _ => destruct X as [o|] eqn:M
      end.
      * injection H as ->. exact (more_sound body R _ k p s out Hb IH M).
      * exists (p, s). split; [constructor | exact H].
    + destruct (k p s) as [o|] eqn:K.
      * injection H as ->. exists (p, s). split; [constructor | exact K].
      * exact (more_sound body R _ k p s out Hb IH H).
Qed.

Lemma rep_loop_complete (body : option ascii -> str -> kont -> option str)
      (R : pos -> pos -> Prop) greedy k :
  (forall a b k', R a b -> k' (fst b) (snd b) <> None ->
     body (fst a) (snd a) k' <> None) ->
  forall a b, reps R a b -> k (fst b) (snd b) <> None ->
  forall fuel, length (snd a) <= fuel ->
    rep_loop body greedy k fuel (fst a) (snd a) <> None.
Proof.
  intros Hb a b Hi. induction Hi as [x | x y z HR Hlt Hi IH]; intros Hk fuel Hf.
  - destruct fuel as [|f]; cbn [rep_loop]; destruct greedy.
    + exact Hk.
    + now destruct (k (fst x) (snd x)).
    + now destruct (body (fst x) (snd x) _).
    + now destruct (k (fst x) (snd x)).
  - destruct fuel as [|f]; [lia|]. cbn [rep_loop].
    set (k' := fun (p' : option ascii) (s' : str) =>
                 if length s' <? length (snd x)
                 then rep_loop body greedy k f p' s' else None).
    assert (More : body (fst x) (snd x) k' <> None).
    { apply (Hb x y k' HR). unfold k'.
      replace (length (snd y) <? length (snd x)) with true
        by (symmetry; now apply Nat.ltb_lt).
      apply IH; [exact Hk | lia]. }
    destruct greedy.
    + now destruct (body (fst x) (snd x) k').
    + now destruct (k (fst x) (snd x)).
Qed.

Section SemanticsFacts.
Variable ml : bool.

Lemma exec_sound : forall r p s k out,
  exec ml r p s k = Some out ->
  exists b, matches ml r (p, s) b /\ k (fst b) (snd b) = Some out.
Proof.
  induction r as [ | c | | neg items | r1 IH1 r2 IH2 | r1 IH1 r2 IH2
                   | q greedy r1 IH1 | r1 IH1 | | | ];
    intros p s k out H; cbn [exec] in H; cbn [matches].
  - exists (p, s). now split.
  - destruct s as [|x s']; [discriminate|].
    destruct (Ascii.eqb x c) eqn:E; [|discriminate].
    apply Ascii.eqb_eq in E. subst x. exists (Some c, s'). now repeat split.
  - destruct s as [|x s']; [discriminate|].
    destruct (Ascii.eqb x LF) eqn:E; [discriminate|].
    exists (Some x, s'). split; [exists x; now repeat split | exact H].
  - destruct s as [|x s']; [discriminate|].
    destruct (in_set neg items x) eqn:E; [|discriminate].
    exists (Some x, s'). split; [exists x; now repeat split | exact H].
  - destruct (IH1 _ _ _ _ H) as ([pm sm] & M1 & H2). cbn [fst snd] in H2.
    destruct (IH2 _ _ _ _ H2) as (b & M2 & Hk).
    exists b. split; [exists (pm, sm); now split | exact Hk].
  - destruct (exec ml r1 p s k) as [o|] eqn:E1.
    + injection H as ->. destruct (IH1 _ _ _ _ E1) as (b & M & Hk).
      exists b. split; [now left | exact Hk].
    + destruct (IH2 _ _ _ _ H) as (b & M & Hk).
      exists b. split; [now right | exact Hk].
  - destruct q.
    + apply (rep_loop_sound (exec ml r1) (matches ml r1) greedy k) in H;
        [exact H|].
      intros p0 s0 k' out0. apply IH1.
    + destruct (IH1 _ _ _ _ H) as ([pm sm] & M1 & H2). cbn [fst snd] in H2.
      apply (rep_loop_sound (exec ml r1) (matches ml r1) greedy k) in H2;
        [|intros p0 s0 k' out0; apply IH1].
      destruct H2 as (b & Hi & Hk).
      exists b. split; [exists (pm, sm); now split | exact Hk].
    + destruct greedy.
      * destruct (exec ml r1 p s k) as [o|] eqn:E1.
        -- injection H as ->. destruct (IH1 _ _ _ _ E1) as (b & M & Hk).
           exists b. split; [now right | exact Hk].
        -- exists (p, s). split; [now left | exact H].
      * destruct (k p s) as [o|] eqn:K.
        -- injection H as ->. exists (p, s). split; [now left | exact K].
        -- destruct (IH1 _ _ _ _ H) as (b & M & Hk).
           exists b. split; [now right | exact Hk].
  - now apply IH1.
  - destruct (at_bol ml p) eqn:E; [|discriminate].
    exists (p, s). now repeat split.
  - destruct (at_eol ml s) eqn:E; [|discriminate].
    exists (p, s). now repeat split.
  - destruct (at_boundary p s) eqn:E; [|discriminate].
    exists (p, s). now repeat split.
Qed.

Lemma exec_complete : forall r a b k,
  matches ml r a b -> k (fst b) (snd b) <> None ->
  exec ml r (fst a) (snd a) k <> None.
Proof.
  induction r as [ | c | | neg items | r1 IH1 r2 IH2 | r1 IH1 r2 IH2
                   | q greedy r1 IH1 | r1 IH1 | | | ];
    intros [p s] [p' s'] k M Hk; cbn [fst snd] in *; cbn [matches] in M; cbn [exec].
  - injection M as -> ->. exact Hk.
  - cbn [fst snd] in M. destruct M as [-> ->]. now rewrite Ascii.eqb_refl.
  - cbn [fst snd] in M. destruct M as (x & -> & -> & E). now rewrite E.
  - cbn [fst snd] in M. destruct M as (x & -> & -> & E). now rewrite E.
  - destruct M as ([pm sm] & M1 & M2).
    apply (IH1 (p, s) (pm, sm) _ M1). cbn [fst snd].
    apply (IH2 (pm, sm) (p', s') _ M2). exact Hk.
  - destruct M as [M | M].
    + pose proof (IH1 (p, s) (p', s') k M Hk) as E. cbn [fst snd] in E.
      now destruct (exec ml r1 p s k).
    + pose proof (IH2 (p, s) (p', s') k M Hk) as E. cbn [fst snd] in E.
      now destruct (exec ml r1 p s k).
  - destruct q.
    + apply (rep_loop_complete (exec ml r1) (matches ml r1) greedy k
               (fun a b k' => IH1 a b k') (p, s) (p', s') M Hk).
      cbn [snd]. lia.
    + destruct M as ([pm sm] & M1 & Hi).
      apply (IH1 (p, s) (pm, sm) _ M1). cbn [fst snd].
      apply (rep_loop_complete (exec ml r1) (matches ml r1) greedy k
               (fun a b k' => IH1 a b k') (pm, sm) (p', s') Hi Hk).
      cbn [snd]. lia.
    + destruct greedy.
      * destruct M as [M | M].
        -- injection M as -> ->. now destruct (exec ml r1 p s k).
        -- pose proof (IH1 (p, s) (p', s') k M Hk) as E. cbn [fst snd] in E.
           now destruct (exec ml r1 p s k).
      * destruct M as [M | M].
        -- injection M as -> ->. now destruct (k p s).
        -- pose proof (IH1 (p, s) (p', s') k M Hk) as E. cbn [fst snd] in E.
           now destruct (k p s).
  - now apply (IH1 (p, s) (p', s')).
  - destruct M as [E M]. injection M as -> ->. cbn [fst] in E. now rewrite E.
  - destruct M as [E M]. injection M as -> ->. cbn [snd] in E. now rewrite E.
  - destruct M as [E M]. injection M as -> ->. cbn [fst snd] in E. now rewrite E.
Qed.

(** A match ends in the text it started in. *)
Lemma reps_suffix (R : pos -> pos -> Prop) :
  (forall a b, R a b -> exists u, snd a = u ++ snd b) ->
  forall a b, reps R a b -> exists u, snd a = u ++ snd b.
Proof.
  intros HR a b Hi. induction Hi as [x | x y z H _ _ (v & IH)]; [now exists []|].
  destruct (HR _ _ H) as (u & E). exists (u ++ v). now rewrite E, IH, app_assoc.
Qed.

Lemma matches_suffix : forall r a b,
  matches ml r a b -> exists u, snd a = u ++ snd b.
Proof.
  induction r as [ | c | | neg items | r1 IH1 r2 IH2 | r1 IH1 r2 IH2
                   | q greedy r1 IH1 | r1 IH1 | | | ];
    intros a b M; cbn [matches] in M.
  - subst. now exists [].
  - destruct M as [E _]. now exists [c].
  - destruct M as (x & E & _). now exists [x].
  - destruct M as (x & E & _). now exists [x].
  - destruct M as (m & M1 & M2).
    destruct (IH1 _ _ M1) as (u & E1). destruct (IH2 _ _ M2) as (v & E2).
    exists (u ++ v). now rewrite E1, E2, app_assoc.
  - destruct M as [M | M]; [now apply IH1 | now apply IH2].
  - destruct q.
    + now apply (reps_suffix _ IH1).
    + destruct M as (m & M1 & Hi).
      destruct (IH1 _ _ M1) as (u & E1).
      destruct (reps_suffix _ IH1 _ _ Hi) as (v & E2).
      exists (u ++ v). now rewrite E1, E2, app_assoc.
    + destruct M as [-> | M]; [now exists [] | now apply IH1].
  - now apply IH1.
  - destruct M as [_ ->]. now exists [].
  - destruct M as [_ ->]. now exists [].
  - destruct M as [_ ->]. now exists [].
Qed.

(** One attempt at a position. *)
Lemma match_at_some r p s :
  match_at ml r false p s <> None <-> exists b, matches ml r (p, s) b.
Proof.
  unfold match_at. cbn [andb]. split.
  - intros H. destruct (exec ml r p s _) as [out|] eqn:E; [|now elim H].
    destruct (exec_sound _ _ _ _ _ E) as (b & M & _). now exists b.
  - intros (b & M). apply (exec_complete r (p, s) b _ M). discriminate.
Qed.

Lemma match_at_sound r adv p s rest :
  match_at ml r adv p s = Some rest -> exists p', matches ml r (p, s) (p', rest).
Proof.
  unfold match_at. intros H.
  destruct (exec_sound _ _ _ _ _ H) as ([p' s'] & M & Hk). cbn [fst snd] in Hk.
  exists p'. destruct (adv && (length s' =? length s)); [discriminate|].
  now injection Hk as <-.
Qed.

Lemma last_cons (A : Type) : forall (l : list A) x d, last (x :: l) d = last l x.
Proof.
  induction l as [|y l IH]; intros x d; [reflexivity|].
  change (last (x :: y :: l) d) with (last (y :: l) d).
  now rewrite (IH y d), (IH y x).
Qed.

Lemma prev_of_cons p c a : prev_of p (c :: a) = prev_of (Some c) a.
Proof. unfold prev_of. cbn [map]. apply last_cons. Qed.

(** The search succeeds when an attempt does at some position. *)
Lemma search_from_spec r : forall s p,
  search_from ml r p s = true <->
  exists a b e, s = a ++ b /\ matches ml r (prev_of p a, b) e.
Proof.
  induction s as [|c s IH]; intros p; cbn [search_from].
  - destruct (match_at ml r false p []) as [rest|] eqn:E.
    + split; [intros _ | reflexivity].
      assert (N : match_at ml r false p [] <> None) by congruence.
      apply match_at_some in N. destruct N as (e & M).
      exists [], [], e. now split.
    + split; [discriminate|]. intros (a & b & e & Hs & M). exfalso.
      symmetry in Hs. apply app_eq_nil in Hs. destruct Hs as [-> ->].
      assert (N : match_at ml r false p [] <> None) by (apply match_at_some; now exists e).
      congruence.
  - destruct (match_at ml r false p (c :: s)) as [rest|] eqn:E.
    + split; [intros _ | reflexivity].
      assert (N : match_at ml r false p (c :: s) <> None) by congruence.
      apply match_at_some in N. destruct N as (e & M).
      exists [], (c :: s), e. now split.
    + rewrite IH. split.
      * intros (a & b & e & -> & M). exists (c :: a), b, e. split; [reflexivity|].
        now rewrite prev_of_cons.
      * intros (a & b & e & Hs & M). destruct a as [|d a].
        -- cbn [app] in Hs. subst b. exfalso.
           assert (N : match_at ml r false p (c :: s) <> None)
             by (apply match_at_some; now exists e).
           congruence.
        -- injection Hs as <- ->. exists a, b, e. split; [reflexivity|].
           now rewrite <- (prev_of_cons p).
Qed.

End SemanticsFacts.

(** [re.search]: a verdict for every pattern that compiles. *)
Lemma search_spec pattern r text :
  compile pattern = Some r ->
  exists v, search pattern text = Some v /\
    (v = true <-> exists a b e, text = a ++ b /\ matches false r (prev_of None a, b) e).
Proof.
  intros C. unfold search. rewrite C. cbn [bind].
  exists (search_from false r None text). split; [reflexivity|].
  apply search_from_spec.
Qed.

(* ------------------------------------------------------------------ *)
(** ** The pattern a glob compiles to *)
(* ------------------------------------------------------------------ *)

Lemma parse_tok_exact t top stk :
  prun (PState MNorm top stk) (render t) =
  Some (push_item (PState MNorm top stk) (tok_regex t)).
Proof.
  destruct t as [c| | |]; cbn [render tok_regex]; try reflexivity.
  destruct (is_special c) eqn:Hs.
  - rewrite (escape_special _ Hs). cbn [prun].
    change (pstep (PState MNorm top stk) "\") with (Some (PState MEsc top stk)).
    cbn iota. now rewrite (pstep_escaped _ _ _ Hs).
  - rewrite (escape_plain _ Hs). cbn [prun].
    now rewrite (pstep_plain _ _ _ Hs).
Qed.

Lemma parse_toks_exact : forall ts alts cur stk,
  prun (PState MNorm (Frame alts cur) stk) (render_all ts) =
  Some (PState MNorm (Frame alts (rev (map tok_regex ts) ++ cur)) stk).
Proof.
  induction ts as [|t ts IH]; intros alts cur stk; [reflexivity|].
  unfold render_all. cbn [flat_map]. rewrite prun_app, parse_tok_exact. cbn [bind].
  unfold push_item. cbn [p_top p_stack f_alts f_cur].
  fold (render_all ts). rewrite IH. cbn [map rev].
  now rewrite <- app_assoc.
Qed.

Lemma mk_seq_rev_snoc (rs : list regex) :
  close_frame (Frame [] rs) = mk_seq (rev rs).
Proof. reflexivity. Qed.

Lemma parse_dir_exact alts cur stk :
  prun (PState MNorm (Frame alts cur) stk) (py "(?:/.*)?") =
  Some (PState MNorm (Frame alts (dir_suffix :: cur)) stk).
Proof. reflexivity. Qed.

Lemma parse_dollar_exact alts cur stk :
  prun (PState MNorm (Frame alts cur) stk) (py "$") =
  Some (PState MNorm (Frame alts (REol :: cur)) stk).
Proof. reflexivity. Qed.

Lemma compile_exact (anchored : bool) ts (dir : bool) :
  compile ((if anchored then py "^" else py "(?:^|/)") ++
           (render_all ts ++ (if dir then py "(?:/.*)?" else [])) ++ py "$")
  = Some (glob_regex anchored ts dir).
Proof.
  unfold compile, glob_regex.
  set (first := if anchored then RBol else any_start).
  assert (E0 : forall rest,
             prun pinit ((if anchored then py "^" else py "(?:^|/)") ++ rest) =
             prun (PState MNorm (Frame [] [first]) []) rest).
  { intros rest. subst first. now destruct anchored. }
  rewrite E0. clear E0. clearbody first.
  rewrite prun_app, prun_app, parse_toks_exact. cbn [bind].
  destruct dir.
  - rewrite parse_dir_exact. cbn [bind]. rewrite parse_dollar_exact.
    cbn [bind pfinish p_mode p_stack p_top]. rewrite mk_seq_rev_snoc.
    f_equal. f_equal. cbn [rev].
    rewrite !rev_app_distr, rev_involutive. cbn [rev app].
    now rewrite <- !app_assoc.
  - cbn [prun bind]. rewrite parse_dollar_exact.
    cbn [bind pfinish p_mode p_stack p_top]. rewrite mk_seq_rev_snoc.
    f_equal. f_equal. cbn [rev].
    rewrite !rev_app_distr, rev_involutive. reflexivity.
Qed.

Lemma render_slash : render (TChar "/") = py "/".
Proof. reflexivity. Qed.

Lemma endswith_snoc_sep ts : endswith (render_all (ts ++ [TChar "/"])) (py "/") = true.
Proof.
  rewrite render_all_app.
  change (render_all [TChar "/"]) with ["/"%char].
  change (py "/") with ["/"%char]. now rewrite endswith_app_last.
Qed.

Lemma strip_dir_spec ts :
  (endswith (render_all ts) (py "/") = true /\
   exists ts1, ts = ts1 ++ [TChar "/"] /\ strip_dir ts = (ts1, true)) \/
  (endswith (render_all ts) (py "/") = false /\ strip_dir ts = (ts, false)).
Proof.
  destruct (endswith (render_all ts) (py "/")) eqn:He.
  - left. split; [reflexivity|].
    destruct (ends_with_sep ts He) as (ts1 & -> & _).
    exists ts1. split; [reflexivity|].
    unfold strip_dir. rewrite rev_app_distr. cbn [rev app].
    now rewrite rev_involutive.
  - right. split; [reflexivity|]. unfold strip_dir.
    destruct (rev ts) as [|[c| | |] r] eqn:Er; try reflexivity.
    destruct (Ascii.eqb c "/") eqn:Ec; [|reflexivity]. exfalso.
    apply Ascii.eqb_eq in Ec. subst c.
    apply (f_equal (@rev gtok)) in Er. rewrite rev_involutive in Er.
    cbn [rev] in Er. subst ts. rewrite endswith_snoc_sep in He. discriminate.
Qed.

Lemma strip_anchor_spec ts (sfx : str) :
  sfx = [] \/ sfx = py "(?:/.*)?" ->
  (startswith (render_all ts ++ sfx) (py "/") = true /\
   exists ts1, ts = TChar "/" :: ts1 /\ strip_anchor ts = (true, ts1)) \/
  (startswith (render_all ts ++ sfx) (py "/") = false /\ strip_anchor ts = (false, ts)).
Proof.
  intros Hs. destruct (startswith (render_all ts ++ sfx) (py "/")) eqn:He.
  - left. split; [reflexivity|].
    destruct (starts_with_sep ts sfx Hs He) as (ts1 & -> & _).
    exists ts1. now split.
  - right. split; [reflexivity|]. unfold strip_anchor.
    destruct ts as [|[c| | |] r]; try reflexivity.
    destruct (Ascii.eqb c "/") eqn:Ec; [|reflexivity]. exfalso.
    apply Ascii.eqb_eq in Ec. subst c. discriminate He.
Qed.

(** What [re.compile] makes of a translated glob. *)
Lemma glob_compile g :
  g <> [] -> compile (_glob_to_regex g) = Some (glob_compiled g).
Proof.
  destruct g as [|c p]; [congruence|]. intros _.
  rewrite glob_to_regex_cons, glob_body_tokens. cbv zeta.
  unfold glob_compiled.
  set (ts := glob_tokens (c :: p)). clearbody ts.
  destruct (strip_dir_spec ts) as [(He & ts1 & E1 & ->) | (He & ->)]; rewrite He.
  - destruct (ends_with_sep ts He) as (ts1' & E1' & ->).
    assert (ts1' = ts1) as ->.
    { rewrite E1 in E1'. now apply app_inj_tail in E1'. }
    destruct (strip_anchor_spec ts1 (py "(?:/.*)?") (or_intror eq_refl))
      as [(Hs & ts2 & E2 & ->) | (Hs & ->)]; rewrite Hs.
    + destruct (starts_with_sep ts1 _ (or_intror eq_refl) Hs) as (ts2' & E2' & ->).
      assert (ts2' = ts2) as -> by congruence.
      apply (compile_exact true ts2 true).
    + apply (compile_exact false ts1 true).
  - destruct (strip_anchor_spec ts [] (or_introl eq_refl))
      as [(Hs & ts2 & E2 & ->) | (Hs & ->)];
      rewrite app_nil_r in Hs; rewrite Hs.
    + rewrite <- (app_nil_r (render_all ts)) in Hs.
      destruct (starts_with_sep ts [] (or_introl eq_refl) Hs) as (ts2' & E2' & E).
      assert (ts2' = ts2) as -> by congruence.
      rewrite !app_nil_r in E. rewrite E.
      pose proof (compile_exact true ts2 false) as C. cbv iota in C.
      now rewrite app_nil_r in C.
    + pose proof (compile_exact false ts false) as C. cbv iota in C.
      now rewrite app_nil_r in C.
Qed.

Lemma matches_mk_seq ml : forall rs a b,
  matches ml (mk_seq rs) a b <-> seq_matches ml rs a b.
Proof.
  induction rs as [|r rs IH]; intros a b; [reflexivity|].
  destruct rs as [|r2 rs].
  - cbn [mk_seq seq_matches]. split.
    + intros M. now exists b.
    + now intros (m & M & ->).
  - change (mk_seq (r :: r2 :: rs)) with (RSeq r (mk_seq (r2 :: rs))).
    cbn [matches]. cbn [seq_matches] in *. split.
    + intros (m & M1 & M2). exists m. split; [exact M1 | now apply IH].
    + intros (m & M1 & M2). exists m. split; [exact M1 | now apply IH].
Qed.

Lemma seq_matches_app ml : forall rs1 rs2 a b,
  seq_matches ml (rs1 ++ rs2) a b <->
  exists m, seq_matches ml rs1 a m /\ seq_matches ml rs2 m b.
Proof.
  induction rs1 as [|r rs1 IH]; intros rs2 a b; cbn [app seq_matches].
  - split; [intros M; now exists a | now intros (m & -> & M)].
  - split.
    + intros (m & M1 & M2). apply IH in M2. destruct M2 as (m2 & M2 & M3).
      exists m2. split; [now exists m | exact M3].
    + intros (m2 & (m & M1 & M2) & M3). exists m. split; [exact M1|].
      apply IH. now exists m2.
Qed.

(** A run of literal characters matches itself. *)
Lemma seq_matches_lits ml : forall w a b,
  seq_matches ml (map RLit w) a b <->
  snd a = w ++ snd b /\ fst b = prev_of (fst a) w.
Proof.
  induction w as [|c w IH]; intros [p s] [p' s']; cbn [map seq_matches fst snd].
  - unfold prev_of. cbn [map last app]. split.
    + now intros [= -> ->].
    + now intros [-> ->].
  - rewrite prev_of_cons. split.
    + intros ([pm sm] & M1 & M2). cbn [matches fst snd] in M1.
      destruct M1 as [-> ->]. apply IH in M2. cbn [fst snd] in M2.
      destruct M2 as [-> ->]. now split.
    + intros [-> ->]. exists (Some c, w ++ s'). split; [now split|].
      apply IH. now split.
Qed.

(* ------------------------------------------------------------------ *)
(** ** The last component of a path *)
(* ------------------------------------------------------------------ *)

Lemma after_last_free c : forall p,
  forallb (fun x => negb (Ascii.eqb x c)) p = true -> OsPath.after_last c p = 0.
Proof.
  induction p as [|x p IH]; [reflexivity|]. cbn [forallb]. intros H.
  apply andb_prop in H. destruct H as [Hx Hp]. apply negb_true_iff in Hx.
  cbn [OsPath.after_last]. now rewrite (IH Hp), Hx.
Qed.

Lemma after_last_app c : forall a b,
  forallb (fun x => negb (Ascii.eqb x c)) b = true ->
  OsPath.after_last c (a ++ c :: b) = S (length a).
Proof.
  induction a as [|x a IH]; intros b Hb.
  - cbn [app OsPath.after_last length]. now rewrite (after_last_free c b Hb), Ascii.eqb_refl.
  - cbn [app OsPath.after_last length]. now rewrite (IH b Hb).
Qed.

Lemma after_last_le c : forall p, OsPath.after_last c p <= length p.
Proof.
  induction p as [|x p IH]; [reflexivity|]. cbn [OsPath.after_last length].
  destruct (OsPath.after_last c p); [destruct (Ascii.eqb x c)|]; lia.
Qed.

(** The text up to the last [c] ends with it, and none follows. *)
Lemma after_last_spec c : forall p,
  (OsPath.after_last c p = 0 /\ forallb (fun x => negb (Ascii.eqb x c)) p = true) \/
  (exists a b, p = a ++ c :: b /\ OsPath.after_last c p = S (length a) /\
               forallb (fun x => negb (Ascii.eqb x c)) b = true).
Proof.
  induction p as [|x p IH]; [now left|].
  cbn [OsPath.after_last]. destruct IH as [[E F] | (a & b & -> & E & F)].
  - rewrite E. destruct (Ascii.eqb x c) eqn:Ex.
    + right. apply Ascii.eqb_eq in Ex. subst x. exists [], p. now repeat split.
    + left. split; [reflexivity|]. cbn [forallb]. now rewrite Ex, F.
  - rewrite E. right. exists (x :: a), b. now repeat split.
Qed.

Lemma basename_sepfree b : sepfree b = true -> OsPath.basename b = b.
Proof.
  intros H. unfold OsPath.basename. now rewrite (after_last_free _ _ H).
Qed.

Lemma skipn_app_cons (A : Type) (x : A) : forall a b,
  skipn (S (length a)) (a ++ x :: b) = b.
Proof. induction a as [|y a IH]; intros b; [reflexivity | apply IH]. Qed.

Lemma basename_app a b :
  sepfree b = true -> OsPath.basename (a ++ OsPath.sep :: b) = b.
Proof.
  intros H. unfold OsPath.basename. rewrite (after_last_app _ a b H).
  apply skipn_app_cons.
Qed.

(** A path is its directory part, empty or closed by a separator, and its
    last component, which holds no separator. *)
Lemma basename_split p :
  exists d, p = d ++ OsPath.basename p /\
            (d = [] \/ exists a, d = a ++ [OsPath.sep]) /\
            sepfree (OsPath.basename p) = true.
Proof.
  destruct (after_last_spec OsPath.sep p) as [[E F] | (a & b & -> & E & F)].
  - exists []. rewrite (basename_sepfree p F). repeat split; [now left | exact F].
  - exists (a ++ [OsPath.sep]). rewrite (basename_app a b F).
    repeat split; [now rewrite <- app_assoc | right; now exists a | exact F].
Qed.

Lemma basename_idem p : OsPath.basename (OsPath.basename p) = OsPath.basename p.
Proof.
  destruct (basename_split p) as (d & _ & _ & F). now apply basename_sepfree.
Qed.

Lemma sepfree_app a b : sepfree (a ++ b) = sepfree a && sepfree b.
Proof. apply forallb_app. Qed.

Lemma sepfree_no_sep a b : sepfree (a ++ OsPath.sep :: b) = false.
Proof.
  rewrite sepfree_app. cbn [sepfree forallb]. rewrite Ascii.eqb_refl.
  cbn [negb andb]. apply andb_false_r.
Qed.

(* ------------------------------------------------------------------ *)
(** ** What a translated glob matches *)
(* ------------------------------------------------------------------ *)

Lemma prev_of_some c a : prev_of (Some c) a <> None.
Proof.
  revert c. induction a as [|d a IH]; intros c; [discriminate|].
  rewrite prev_of_cons. apply IH.
Qed.

Lemma prev_of_none a : prev_of None a = None <-> a = [].
Proof.
  split; [|now intros ->]. destruct a as [|c a]; [reflexivity|].
  rewrite prev_of_cons. intros H. now apply prev_of_some in H.
Qed.

Lemma prev_of_app p a b : prev_of p (a ++ b) = prev_of (prev_of p a) b.
Proof.
  revert p. induction a as [|c a IH]; intros p; [reflexivity|].
  cbn [app]. now rewrite !prev_of_cons, IH.
Qed.

Lemma at_bol_single p : at_bol false p = true <-> p = None.
Proof. destruct p; cbn [at_bol andb]; split; congruence. Qed.

Lemma at_eol_single s : at_eol false s = true <-> s = [] \/ s = [LF].
Proof.
  destruct s as [|c s]; cbn [at_eol orb].
  - split; [now left | reflexivity].
  - split.
    + intros H. apply andb_prop in H. destruct H as [Hc Hs].
      apply Ascii.eqb_eq in Hc. subst c. destruct s; [now right | discriminate].
    + intros [H | H]; [discriminate|]. injection H as -> ->. reflexivity.
Qed.

Lemma one_line_eol s : one_line s = true -> at_eol false s = true -> s = [].
Proof.
  intros L H. apply at_eol_single in H. destruct H as [-> | ->]; [reflexivity|].
  discriminate L.
Qed.

Lemma one_line_app a b : one_line (a ++ b) = one_line a && one_line b.
Proof. apply forallb_app. Qed.

(** The iterations of a pattern that matches one character of a class. *)
Lemma reps_chars (R : pos -> pos -> Prop) (f : ascii -> bool) :
  (forall a b, R a b <-> exists x, snd a = x :: snd b /\ fst b = Some x /\ f x = true) ->
  forall a b,
    reps R a b <->
    exists u, snd a = u ++ snd b /\ forallb f u = true /\ fst b = prev_of (fst a) u.
Proof.
  intros HR a b. split.
  - intros Hi. induction Hi as [x | x y z H _ _ (u & E & F & P)].
    + now exists [].
    + apply HR in H. destruct H as (c & Ex & Py & Fc).
      exists (c :: u). rewrite Ex, E. cbn [forallb]. rewrite Fc, F.
      repeat split. rewrite prev_of_cons. now rewrite <- Py.
  - intros (u & E & F & P). destruct a as [p s], b as [p' s'].
    cbn [fst snd] in *. subst s p'. revert p F.
    induction u as [|c u IH]; intros p F; [constructor|].
    cbn [forallb] in F. apply andb_prop in F. destruct F as [Fc Fu].
    apply (reps_more R (p, (c :: u) ++ s') (Some c, u ++ s')).
    + apply HR. exists c. now repeat split.
    + cbn [snd app length]. lia.
    + rewrite prev_of_cons. now apply IH.
Qed.

Lemma matches_any ml a b :
  matches ml RAny a b <->
  exists x, snd a = x :: snd b /\ fst b = Some x /\ negb (Ascii.eqb x LF) = true.
Proof.
  cbn [matches]. split; intros (x & E & P & F); exists x; repeat split; try assumption.
  - now rewrite F.
  - now apply negb_true_iff in F.
Qed.

Lemma reps_any ml a b :
  reps (matches ml RAny) a b <->
  exists u, snd a = u ++ snd b /\ one_line u = true /\ fst b = prev_of (fst a) u.
Proof. apply (reps_chars _ _ (matches_any ml)). Qed.

Lemma matches_not_sep ml a b :
  matches ml (RSet true [CLit "/"]) a b <->
  exists x, snd a = x :: snd b /\ fst b = Some x /\ negb (Ascii.eqb x OsPath.sep) = true.
Proof.
  cbn [matches]. split; intros (x & E & P & F); exists x; repeat split; try assumption.
  - unfold in_set in F. cbn [existsb in_item] in F. now rewrite orb_false_r in F.
  - unfold in_set. cbn [existsb in_item]. now rewrite orb_false_r.
Qed.

Lemma reps_not_sep ml a b :
  reps (matches ml (RSet true [CLit "/"])) a b <->
  exists u, snd a = u ++ snd b /\ sepfree u = true /\ fst b = prev_of (fst a) u.
Proof. apply (reps_chars _ _ (matches_not_sep ml)). Qed.

(** The start of a rule: the start of the text, or a separator unless
    the rule is anchored. *)
Lemma matches_start (anchored : bool) pre b m :
  matches false (if anchored then RBol else any_start) (prev_of None pre, b) m <->
  (pre = [] /\ m = (None, b)) \/
  (anchored = false /\ exists b', b = OsPath.sep :: b' /\ m = (Some OsPath.sep, b')).
Proof.
  destruct anchored; cbn [matches any_start fst snd].
  - rewrite at_bol_single, prev_of_none. split.
    + intros [-> ->]. now left.
    + intros [[-> ->] | [? _]]; [now split | discriminate].
  - rewrite at_bol_single, prev_of_none. split.
    + intros [[-> ->] | [E P]]; [now left|]. right. split; [reflexivity|].
      destruct m as [pm sm]. cbn [fst snd] in *. subst. now exists sm.
    + intros [[-> ->] | (_ & b' & -> & ->)]; [left; now split | right; now split].
Qed.

Lemma matches_dir_suffix ml m e :
  matches ml dir_suffix m e <->
  e = m \/
  exists m3, (snd m = OsPath.sep :: snd m3 /\ fst m3 = Some OsPath.sep) /\
             reps (matches ml RAny) m3 e.
Proof. reflexivity. Qed.

(** The end of a rule in a text of one line: the end of the text, or a
    separator and anything for a directory rule. *)
Lemma matches_end (dir : bool) m e :
  one_line (snd m) = true ->
  (seq_matches false ((if dir then [dir_suffix] else []) ++ [REol]) m e <->
   (snd m = [] /\ e = m) \/
   (dir = true /\ exists b, snd m = OsPath.sep :: b /\ e = (prev_of (Some OsPath.sep) b, []))).
Proof.
  intros L. destruct dir; cbn [app seq_matches].
  - split.
    + intros (m1 & MD & m2 & ME & ->). cbn [matches] in ME. destruct ME as [E ->].
      apply matches_dir_suffix in MD. destruct MD as [-> | (m3 & ML & MR)].
      * left. split; [now apply one_line_eol | reflexivity].
      * right. split; [reflexivity|]. destruct ML as [E3 P3].
        apply reps_any in MR. destruct MR as (u & Eu & Lu & Pu).
        assert (L1 : one_line (snd m1) = true).
        { rewrite E3, Eu in L. cbn [one_line forallb] in L.
          apply andb_prop in L. destruct L as [_ L]. fold (one_line (u ++ snd m1)) in L.
          rewrite one_line_app in L. now apply andb_prop in L. }
        pose proof (one_line_eol _ L1 E) as N.
        rewrite N in Eu. rewrite app_nil_r in Eu.
        exists u. split; [now rewrite E3, Eu|].
        destruct m1 as [p1 s1]. cbn [fst snd] in *. subst s1. f_equal.
        now rewrite Pu, P3.
    + intros [[E ->] | (_ & b & E & ->)].
      * exists m. split; [apply matches_dir_suffix; now left|].
        exists m. split; [|reflexivity].
        cbn [matches]. split; [now rewrite E | reflexivity].
      * exists (prev_of (Some OsPath.sep) b, []). split.
        -- apply matches_dir_suffix. right.
           exists (Some OsPath.sep, b). split; [now split|].
           apply reps_any. exists b. cbn [fst snd]. rewrite app_nil_r.
           repeat split. rewrite E in L. cbn [one_line forallb] in L.
           now apply andb_prop in L.
        -- eexists. split; [|reflexivity]. cbn [matches]. now split.
  - split.
    + intros (m2 & ME & ->). cbn [matches] in ME. destruct ME as [E ->].
      left. split; [now apply one_line_eol | reflexivity].
    + intros [[E ->] | [? _]]; [|discriminate].
      exists m. split; [|reflexivity]. cbn [matches]. split; [now rewrite E | reflexivity].
Qed.

(** A rule made of an optional star and a name, on a text of one line. *)
Lemma search_glob (anchored star : bool) w (dir : bool) text :
  one_line text = true ->
  (search_from false
     (glob_regex anchored ((if star then [TStar] else []) ++ map TChar w) dir)
     None text = true <->
   exists pre u post,
     text = pre ++ u ++ w ++ post /\
     (pre = [] \/ (anchored = false /\ exists a, pre = a ++ [OsPath.sep])) /\
     (if star then sepfree u = true else u = []) /\
     (post = [] \/ (dir = true /\ exists b, post = OsPath.sep :: b))).
Proof.
  intros L. rewrite search_from_spec. unfold glob_regex.
  split.
  - intros (a & b & e & -> & M).
    apply matches_mk_seq in M. cbn [seq_matches] in M.
    destruct M as (m & M0 & M).
    rewrite map_app, <- app_assoc in M. apply seq_matches_app in M.
    destruct M as (m1 & MS & M). rewrite map_map in M. cbn [tok_regex] in M.
    change (map (fun x => RLit x) w) with (map RLit w) in M.
    apply seq_matches_app in M. destruct M as (m2 & MW & ME).
    apply seq_matches_lits in MW. destruct MW as [EW PW].
    assert (exists u, snd m = u ++ snd m1 /\ (if star then sepfree u = true else u = []))
      as (u & Eu & Hu).
    { destruct star; cbn [map seq_matches] in MS.
      - destruct MS as (m' & MS & ->). cbn [tok_regex] in MS.
        apply (reps_not_sep false) in MS. destruct MS as (u & E & F & _). now exists u.
      - subst m1. now exists []. }
    assert (Lb : one_line b = true).
    { rewrite one_line_app in L. now apply andb_prop in L. }
    apply matches_start in M0.
    assert (exists pre, a ++ b = pre ++ snd m /\ one_line (snd m) = true /\
              (pre = [] \/ (anchored = false /\ exists a0, pre = a0 ++ [OsPath.sep])))
      as (pre & Ep & Lm & Hp).
    { destruct M0 as [[-> ->] | (Ha & b' & -> & ->)].
      - exists []. repeat split; [exact Lb | now left].
      - exists (a ++ [OsPath.sep]). cbn [snd]. repeat split.
        + now rewrite <- app_assoc.
        + cbn [one_line forallb] in Lb. now apply andb_prop in Lb.
        + right. split; [exact Ha | now exists a]. }
    assert (L2 : one_line (snd m2) = true).
    { rewrite Eu, EW, !one_line_app in Lm.
      apply andb_prop in Lm. destruct Lm as [_ Lm].
      now apply andb_prop in Lm. }
    apply (matches_end dir m2 e L2) in ME.
    exists pre, u, (snd m2). split; [now rewrite Ep, Eu, EW|].
    split; [exact Hp|]. split; [exact Hu|].
    destruct ME as [[E _] | (Hd & b0 & E & _)]; [now left|].
    right. split; [exact Hd | now exists b0].
  - intros (pre & u & post & -> & Hp & Hu & Hpost).
    assert (Lp : one_line post = true).
    { rewrite !one_line_app in L.
      repeat (apply andb_prop in L; destruct L as [_ L]). exact L. }
    assert (exists a (p0 : bool),
              pre ++ u ++ w ++ post = a ++ (if p0 then [OsPath.sep] else @nil ascii) ++ u ++ w ++ post /\
              matches false (if anchored then RBol else any_start)
                (prev_of None a, (if p0 then [OsPath.sep] else @nil ascii) ++ u ++ w ++ post)
                ((if p0 then Some OsPath.sep else @None ascii), u ++ w ++ post))
      as (a & p0 & Ea & M0).
    { destruct Hp as [-> | (Ha & a & ->)].
      - exists [], false. split; [reflexivity|]. apply matches_start. now left.
      - exists a, true. split; [now rewrite <- app_assoc|].
        apply matches_start. right. split; [exact Ha|]. now eexists. }
    set (p00 := if p0 then Some OsPath.sep else @None ascii) in *.
    assert (exists e, seq_matches false ((if dir then [dir_suffix] else []) ++ [REol])
                        (prev_of (prev_of p00 u) w, post) e) as (e & ME).
    { destruct Hpost as [-> | (Hd & b & ->)].
      - eexists. apply matches_end; [reflexivity|]. left. now split.
      - eexists. apply matches_end; [exact Lp|]. right. split; [exact Hd|].
        exists b. split; reflexivity. }
    exists a, ((if p0 then [OsPath.sep] else @nil ascii) ++ u ++ w ++ post), e.
    split; [exact Ea|].
    apply matches_mk_seq. cbn [seq_matches].
    eexists. split; [exact M0|].
    rewrite map_app, <- app_assoc. apply seq_matches_app.
    exists (prev_of p00 u, w ++ post). split.
    + destruct star.
      * cbn [map seq_matches tok_regex]. eexists. split; [|reflexivity].
        apply reps_not_sep. exists u. now repeat split.
      * subst u. reflexivity.
    + rewrite map_map. cbn [tok_regex].
      change (map (fun x => RLit x) w) with (map RLit w).
      apply seq_matches_app. exists (prev_of (prev_of p00 u) w, post).
      split; [|exact ME]. apply seq_matches_lits. now split.
Qed.

(* ------------------------------------------------------------------ *)
(** ** Components of a path *)
(* ------------------------------------------------------------------ *)

Lemma split_not_nil sep s : split sep s <> [].
Proof.
  destruct s as [|c s]; cbn [split]; [discriminate|].
  destruct (Ascii.eqb c sep); [discriminate|]. now destruct (split sep s).
Qed.

Lemma join_cons (sep l : str) L :
  PyStr.join sep (l :: L) = l ++ match L with [] => [] | _ :: _ => sep ++ PyStr.join sep L end.
Proof. destruct L; cbn [PyStr.join]; [now rewrite app_nil_r | reflexivity]. Qed.

Lemma join_split sep : forall s, PyStr.join [sep] (split sep s) = s.
Proof.
  induction s as [|c s IH]; [reflexivity|]. cbn [split].
  destruct (Ascii.eqb c sep) eqn:E.
  - apply Ascii.eqb_eq in E. subst c. rewrite join_cons.
    pose proof (split_not_nil sep s) as N.
    destruct (split sep s) as [|l ls]; [congruence|]. now rewrite IH.
  - pose proof (split_not_nil sep s) as N.
    destruct (split sep s) as [|l ls]; [congruence|].
    rewrite <- IH. now rewrite !join_cons.
Qed.

Lemma join_app (sep : str) : forall L1 L2,
  L1 <> [] -> L2 <> [] ->
  PyStr.join sep (L1 ++ L2) = PyStr.join sep L1 ++ sep ++ PyStr.join sep L2.
Proof.
  induction L1 as [|l L1 IH]; intros L2 H1 H2; [congruence|].
  destruct L1 as [|l1 L1].
  - cbn [app]. rewrite join_cons. destruct L2; [congruence | reflexivity].
  - change ((l :: l1 :: L1) ++ L2) with (l :: (l1 :: L1) ++ L2).
    rewrite join_cons. cbn [app]. rewrite (join_cons sep l (l1 :: L1)).
    change (l1 :: L1 ++ L2) with ((l1 :: L1) ++ L2).
    rewrite IH by (assumption || discriminate). now rewrite <- !app_assoc.
Qed.

Lemma split_components sep : forall s,
  Forall (fun l => forallb (fun c => negb (Ascii.eqb c sep)) l = true) (split sep s).
Proof.
  induction s as [|c s IH]; [repeat constructor|]. cbn [split].
  destruct (Ascii.eqb c sep) eqn:E; [now constructor|].
  destruct (split sep s) as [|l ls]; [repeat constructor; cbn; now rewrite E|].
  inversion IH; subst. constructor; [|assumption]. cbn [forallb]. now rewrite E.
Qed.

(** The components of a path are the stretches between separators. *)
Lemma split_In sep x s :
  forallb (fun c => negb (Ascii.eqb c sep)) x = true ->
  (In x (split sep s) <->
   exists pre post, s = pre ++ x ++ post /\
     (pre = [] \/ exists a, pre = a ++ [sep]) /\
     (post = [] \/ exists b, post = sep :: b)).
Proof.
  intros Hx. split.
  - intros H. apply in_split in H. destruct H as (L1 & L2 & E).
    rewrite <- (join_split sep s), E.
    exists (match L1 with [] => [] | _ :: _ => PyStr.join [sep] L1 ++ [sep] end),
           (match L2 with [] => [] | _ :: _ => sep :: PyStr.join [sep] L2 end).
    split.
    + destruct L1 as [|l1 L1].
      * cbn [app]. now rewrite join_cons.
      * rewrite join_app by discriminate. rewrite !join_cons.
        rewrite <- !app_assoc. reflexivity.
    + split.
      * destruct L1; [now left | right; now eexists].
      * destruct L2; [now left | right; now eexists].
  - intros (pre & post & -> & Hpre & Hpost).
    assert (In x (split sep (x ++ post))) as Hin.
    { destruct Hpost as [-> | (b & ->)].
      - rewrite app_nil_r, (split_sepfree sep x Hx). now left.
      - rewrite split_app, (split_sepfree sep x Hx). now left. }
    destruct Hpre as [-> | (a & ->)]; [exact Hin|].
    rewrite <- app_assoc. cbn [app]. rewrite split_app.
    apply in_or_app. now right.
Qed.

Lemma basename_component p : In (OsPath.basename p) (split OsPath.sep p).
Proof.
  destruct (basename_split p) as (d & E & Hd & F).
  apply (split_In OsPath.sep _ p F).
  exists d, []. rewrite app_nil_r. repeat split; [exact E | exact Hd | now left].
Qed.

(* ------------------------------------------------------------------ *)
(** ** The verdict of a rule set *)
(* ------------------------------------------------------------------ *)

Lemma found_spec pattern text :
  compiles pattern -> Re.search pattern text = Some (found pattern text).
Proof.
  intros (r & C). unfold found, Re.search. now rewrite C.
Qed.

(** The loop of [_should_ignore] is a disjunction over the rules. *)
Lemma should_ignore_exists path : forall rules,
  Forall compiles rules ->
  _should_ignore rules path = Some (existsb (rule_hits path) rules).
Proof.
  induction rules as [|pattern rules IH]; intros H; [reflexivity|].
  inversion H as [|? ? Hc Hr]; subst. cbn [_should_ignore existsb].
  rewrite !(found_spec _ _ Hc). cbn [bind]. unfold rule_hits at 1.
  destruct (found pattern path); [reflexivity|]. cbn [bind orb].
  destruct (found pattern (OsPath.basename path)); [reflexivity|].
  now rewrite (IH Hr).
Qed.

Lemma found_glob g text :
  g <> [] ->
  found (_glob_to_regex g) text = search_from false (glob_compiled g) None text.
Proof.
  intros H. unfold found, Re.search. now rewrite (glob_compile g H).
Qed.

(* ------------------------------------------------------------------ *)
(** ** Rules made of a name *)
(* ------------------------------------------------------------------ *)

Lemma glob_tokens_wildfree : forall w rest,
  wildfree w = true -> glob_tokens (w ++ rest) = map TChar w ++ glob_tokens rest.
Proof.
  induction w as [|c w IH]; intros rest H; [reflexivity|].
  cbn [wildfree forallb] in H. apply andb_prop in H. destruct H as [Hc Hw].
  apply andb_prop in Hc. destruct Hc as [H1 H2].
  apply negb_true_iff in H1. apply negb_true_iff in H2.
  cbn [app map]. rewrite glob_tokens_cons, H1, H2. f_equal. now apply IH.
Qed.

Lemma glob_tokens_star_then rest :
  startswith rest (py "*") = false ->
  glob_tokens ("*"%char :: rest) = TStar :: glob_tokens rest.
Proof.
  intros H. rewrite glob_tokens_cons. cbn [Ascii.eqb Bool.eqb].
  destruct rest as [|d rest]; [reflexivity|].
  change (py "*") with ["*"%char] in H. cbn [startswith] in H.
  rewrite andb_true_r in H. now rewrite H.
Qed.

Lemma strip_dir_snoc ts : strip_dir (ts ++ [TChar "/"]) = (ts, true).
Proof.
  unfold strip_dir. rewrite rev_app_distr. cbn [rev app Ascii.eqb Bool.eqb].
  now rewrite rev_involutive.
Qed.

Lemma strip_dir_other ts t :
  t <> TChar "/" -> strip_dir (ts ++ [t]) = (ts ++ [t], false).
Proof.
  intros H. unfold strip_dir. rewrite rev_app_distr. cbn [rev app].
  destruct t as [c| | |]; try reflexivity.
  destruct (Ascii.eqb c "/") eqn:E; [|reflexivity].
  apply Ascii.eqb_eq in E. now subst c.
Qed.

(** The tokens of a simple rule end with the name or the star. *)
Lemma name_tokens_last (star : bool) w :
  sepfree w = true -> star = true \/ w <> [] ->
  exists ts t, (if star then [TStar] else []) ++ map TChar w = ts ++ [t] /\
               t <> TChar "/".
Proof.
  intros F H. destruct (rev w) as [|c rw] eqn:E.
  - apply (f_equal (@rev ascii)) in E. rewrite rev_involutive in E. cbn [rev] in E.
    subst w. destruct H as [-> | H]; [|congruence].
    exists [], TStar. split; [reflexivity | discriminate].
  - apply (f_equal (@rev ascii)) in E. rewrite rev_involutive in E. cbn [rev] in E.
    subst w. exists ((if star then [TStar] else []) ++ map TChar (rev rw)), (TChar c).
    split; [now rewrite map_app, app_assoc|].
    intros [= ->]. rewrite sepfree_app in F. apply andb_prop in F.
    destruct F as [_ F]. discriminate F.
Qed.

Lemma name_tokens_first (star : bool) w ts0 :
  sepfree w = true -> star = true \/ w <> [] ->
  strip_anchor (((if star then [TStar] else []) ++ map TChar w) ++ ts0) =
  (false, ((if star then [TStar] else []) ++ map TChar w) ++ ts0).
Proof.
  intros F H. destruct star; [reflexivity|].
  destruct H as [H | H]; [discriminate|].
  destruct w as [|c w]; [congruence|]. cbn [app map strip_anchor].
  cbn [sepfree forallb] in F. apply andb_prop in F. destruct F as [F _].
  apply negb_true_iff in F. unfold OsPath.sep in F. now rewrite F.
Qed.

Lemma simple_glob_compiled (anchored star : bool) w (dir : bool) :
  wildfree w = true -> sepfree w = true -> star = true \/ w <> [] ->
  simple_glob anchored star w dir <> [] /\
  glob_compiled (simple_glob anchored star w dir) =
  glob_regex anchored ((if star then [TStar] else []) ++ map TChar w) dir.
Proof.
  intros W F H. split.
  { unfold simple_glob. destruct anchored; [discriminate|].
    destruct star; [discriminate|]. destruct H as [H | H]; [discriminate|].
    destruct w; [congruence | discriminate]. }
  assert (T : glob_tokens (simple_glob anchored star w dir) =
              (if anchored then [TChar "/"] else []) ++
              ((if star then [TStar] else []) ++ map TChar w) ++
              (if dir then [TChar "/"] else [])).
  { unfold simple_glob.
    assert (Tw : glob_tokens (w ++ (if dir then py "/" else [])) =
                 map TChar w ++ (if dir then [TChar "/"] else [])).
    { rewrite (glob_tokens_wildfree _ _ W). now destruct dir. }
    assert (Ts : glob_tokens ((if star then py "*" else []) ++ w ++
                                (if dir then py "/" else [])) =
                 ((if star then [TStar] else []) ++ map TChar w) ++
                 (if dir then [TChar "/"] else [])).
    { destruct star; [|exact Tw].
      change (py "*" ++ w ++ (if dir then py "/" else []))
        with ("*"%char :: w ++ (if dir then py "/" else [])).
      rewrite glob_tokens_star_then; [now rewrite Tw|].
      destruct w as [|c w]; [now destruct dir|].
      cbn [wildfree forallb] in W. apply andb_prop in W. destruct W as [W _].
      apply andb_prop in W. destruct W as [W _]. apply negb_true_iff in W.
      change (py "*") with ["*"%char]. cbn [app startswith]. now rewrite W. }
    destruct anchored; [|exact Ts].
    change (py "/" ++ ?x) with ("/"%char :: x).
    rewrite glob_tokens_cons. cbn [Ascii.eqb Bool.eqb]. now rewrite Ts. }
  unfold glob_compiled. rewrite T.
  destruct (name_tokens_last star w F H) as (ts & t & E & Ht).
  assert (D : strip_dir ((if anchored then [TChar "/"] else []) ++
                         ((if star then [TStar] else []) ++ map TChar w) ++
                         (if dir then [TChar "/"] else [])) =
              ((if anchored then [TChar "/"] else []) ++
               ((if star then [TStar] else []) ++ map TChar w), dir)).
  { destruct dir.
    - rewrite app_assoc. apply strip_dir_snoc.
    - rewrite app_nil_r, E, app_assoc. now apply strip_dir_other. }
  rewrite D.
  assert (A : strip_anchor ((if anchored then [TChar "/"] else []) ++
                            ((if star then [TStar] else []) ++ map TChar w)) =
              (anchored, (if star then [TStar] else []) ++ map TChar w)).
  { destruct anchored; [reflexivity|]. cbn [app].
    rewrite <- (app_nil_r (_ ++ map TChar w)). now apply name_tokens_first. }
  now rewrite A.
Qed.

(** The verdict of one rule. *)
Lemma should_ignore_single pattern path :
  compiles pattern ->
  _should_ignore [pattern] path = Some (rule_hits path pattern).
Proof.
  intros C. rewrite should_ignore_exists by (now constructor).
  cbn [existsb]. now rewrite orb_false_r.
Qed.

Lemma one_line_basename p : one_line p = true -> one_line (OsPath.basename p) = true.
Proof.
  intros L. destruct (basename_split p) as (d & E & _). rewrite E in L.
  rewrite one_line_app in L. now apply andb_prop in L.
Qed.

Lemma sepfree_pre a x : sepfree ((a ++ [OsPath.sep]) ++ x) = false.
Proof. rewrite <- app_assoc. apply sepfree_no_sep. Qed.

(* ------------------------------------------------------------------ *)
(** ** Normalization only removes *)
(* ------------------------------------------------------------------ *)

Lemma thins_refl : forall s, thins s s.
Proof. induction s; now constructor. Qed.

Lemma thins_nil_l : forall s, thins [] s.
Proof. induction s; now constructor. Qed.

Lemma thins_of_nil t : thins t [] -> t = [].
Proof. intros H. now inversion H. Qed.

Lemma thins_trans : forall t s, thins t s -> forall r, thins r t -> thins r s.
Proof.
  intros t s H. induction H as [|c t s H IH|c t s H IH|c d t s Hc Hd H IH]; intros r Hr.
  - exact Hr.
  - apply thins_drop. now apply IH.
  - inversion Hr; subst.
    + apply thins_drop. now apply IH.
    + apply thins_keep. now apply IH.
    + now apply thins_space; [| |apply IH].
  - inversion Hr; subst.
    + apply thins_drop. now apply IH.
    + now apply thins_space; [| |apply IH].
    + now apply thins_space; [| |apply IH].
Qed.

Lemma thins_app : forall t1 s1, thins t1 s1 -> forall t2 s2, thins t2 s2 ->
  thins (t1 ++ t2) (s1 ++ s2).
Proof.
  intros t1 s1 H. induction H; intros t2 s2 H2; cbn [app];
    [exact H2 | apply thins_drop | apply thins_keep | apply thins_space]; auto.
Qed.

Lemma thins_drop_app : forall a t s, thins t s -> thins t (a ++ s).
Proof. induction a; intros t s H; [exact H | apply thins_drop; auto]. Qed.

Lemma thins_length t s : thins t s -> length t <= length s.
Proof. intros H. induction H; cbn [length]; lia. Qed.

Lemma thins_In t s : thins t s -> forall x, In x t -> In x s \/ isspace x = true.
Proof.
  intros H. induction H as [|c t s H IH|c t s H IH|c d t s Hc Hd H IH]; intros x Hx.
  - contradiction.
  - destruct (IH x Hx) as [I | I]; [left; now right | now right].
  - destruct Hx as [<- | Hx]; [left; now left|].
    destruct (IH x Hx) as [I | I]; [left; now right | now right].
  - destruct Hx as [<- | Hx]; [now right|].
    destruct (IH x Hx) as [I | I]; [left; now right | now right].
Qed.

Lemma thins_all_space t s :
  thins t s -> forallb isspace s = true -> forallb isspace t = true.
Proof.
  intros H F. apply forallb_forall. intros x Hx.
  destruct (thins_In _ _ H x Hx) as [I | I]; [|exact I].
  rewrite forallb_forall in F. now apply F.
Qed.

(** *** The token estimate *)

Lemma word_runs_flag s : word_runs true s <= word_runs false s <= S (word_runs true s).
Proof.
  destruct s as [|c s]; cbn [word_runs]; [lia|].
  destruct (is_word c); lia.
Qed.

Lemma space_not_word c : isspace c = true -> is_word c = false.
Proof.
  intros H. destruct (is_word c) eqn:E; [|reflexivity]. exfalso.
  revert H E. unfold isspace, is_word, isalnum, isdigit, isupper, islower.
  cbv zeta. rewrite !orb_true_iff, !andb_true_iff, !Nat.leb_le, Nat.eqb_eq.
  intros H [[[E | E] | E] | E]; try lia.
  apply Ascii.eqb_eq in E. subst c. cbn in H. lia.
Qed.

Lemma space_not_symbol c : isspace c = true -> is_symbol c = false.
Proof.
  intros H. unfold is_symbol, in_set. cbn [existsb in_item xorb].
  now rewrite H, orb_true_r.
Qed.

Lemma thins_word_runs t s : thins t s ->
  forall b, word_runs b t <= word_runs b s.
Proof.
  intros H. induction H as [|c t s H IH|c t s H IH|c d t s Hc Hd H IH]; intros b.
  - reflexivity.
  - cbn [word_runs]. destruct (is_word c).
    + pose proof (word_runs_flag s). pose proof (IH true). pose proof (IH false).
      destruct b; lia.
    + pose proof (word_runs_flag t). pose proof (IH false). destruct b; lia.
  - cbn [word_runs]. destruct (is_word c).
    + pose proof (IH true). lia.
    + apply IH.
  - cbn [word_runs]. rewrite (space_not_word _ Hc), (space_not_word _ Hd). apply IH.
Qed.

Lemma thins_symbols t s : thins t s -> count_symbols t <= count_symbols s.
Proof.
  unfold count_symbols.
  intros H. induction H as [|c t s H IH|c t s H IH|c d t s Hc Hd H IH]; cbn [filter].
  - reflexivity.
  - destruct (is_symbol c); cbn [length]; lia.
  - destruct (is_symbol c); cbn [length]; lia.
  - now rewrite (space_not_symbol _ Hc), (space_not_symbol _ Hd).
Qed.

Lemma thins_tokens t s : thins t s -> (token_count t <= token_count s)%Z.
Proof.
  intros H. unfold token_count.
  pose proof (thins_word_runs _ _ H false). pose proof (thins_symbols _ _ H). lia.
Qed.

(** *** The passes *)

(** A substitution by the empty text only removes. *)
Lemma scan_thins ml r : forall s skip p,
  thins (rebuild [] (scan ml r skip p s)) s.
Proof.
  induction s as [|c s IH]; intros skip p.
  - destruct skip; cbn [scan].
    + destruct (match_len ml r false p []) as [[|n]|]; cbn [rebuild flat_map app].
      * destruct (match_len ml r true p []) as [[|n]|]; cbn [rebuild flat_map app];
          constructor.
      * constructor.
      * constructor.
    + constructor.
  - destruct skip; cbn [scan].
    + destruct (match_len ml r false p (c :: s)) as [[|n]|].
      * cbn [rebuild flat_map app].
        destruct (match_len ml r true p (c :: s)) as [[|n]|]; cbn [rebuild flat_map app].
        -- apply thins_keep. apply IH.
        -- apply thins_drop. apply IH.
        -- apply thins_keep. apply IH.
      * cbn [rebuild flat_map app]. apply thins_drop. apply IH.
      * cbn [rebuild flat_map app]. apply thins_keep. apply IH.
    + apply thins_drop. apply IH.
Qed.

Lemma sub_thins pattern text ml out :
  Re.sub pattern [] text ml = Some out -> thins out text.
Proof.
  unfold Re.sub. destruct (compile pattern) as [r|]; [|discriminate].
  cbn [bind]. intros [= <-]. apply scan_thins.
Qed.

Lemma remove_all_thins : forall multi code out,
  remove_all multi code = Some out -> thins out code.
Proof.
  induction multi as [|pattern multi IH]; intros code out H.
  - injection H as <-. apply thins_refl.
  - cbn [remove_all] in H.
    destruct (Re.sub pattern [] code false) as [code1|] eqn:E; [|discriminate].
    cbn [bind] in H. apply (thins_trans code1 code); [now apply sub_thins in E | now apply IH].
Qed.

Lemma strip_comments_thins g code out :
  strip_comments g code = Some out -> thins out code.
Proof.
  destruct g as [g|]; cbn [strip_comments].
  - destruct (Re.sub (single_line g) [] code true) as [code1|] eqn:E; [|discriminate].
    cbn [bind]. intros H.
    apply (thins_trans code1 code); [now apply sub_thins in E | now apply remove_all_thins in H].
  - intros [= <-]. apply thins_refl.
Qed.

(** The lines of a text, joined, are the text thinned. *)
Lemma join_cons_nil (sep l : str) L :
  PyStr.join sep (l :: L) = l ++ match L with [] => [] | _ :: _ => sep ++ PyStr.join sep L end.
Proof. destruct L; cbn [PyStr.join]; [now rewrite app_nil_r | reflexivity]. Qed.

Lemma splitlines_thins_len : forall n s, length s <= n ->
  thins (PyStr.join [LF] (splitlines s)) s.
Proof.
  induction n as [|n IH]; intros s Hn.
  - destruct s; [constructor | cbn [length] in Hn; lia].
  - destruct s as [|c s]; [constructor|]. cbn [length] in Hn.
    cbn [splitlines]. destruct (Ascii.eqb c CR) eqn:Ec.
    + apply Ascii.eqb_eq in Ec. subst c.
      destruct s as [|d s]; [apply thins_nil_l|].
      destruct (Ascii.eqb d LF) eqn:Ed.
      * apply Ascii.eqb_eq in Ed. subst d. rewrite join_cons_nil. cbn [app].
        destruct (splitlines s) as [|l ls] eqn:E; [apply thins_nil_l|].
        apply thins_drop. apply thins_keep. rewrite <- E. apply IH.
        cbn [length] in Hn. lia.
      * rewrite join_cons_nil. cbn [app].
        destruct (splitlines (d :: s)) as [|l ls] eqn:E; [apply thins_nil_l|].
        apply thins_space; [reflexivity | reflexivity|]. rewrite <- E. apply IH. lia.
    + destruct (islinebreak c) eqn:Hc.
      * rewrite join_cons_nil. cbn [app].
        destruct (splitlines s) as [|l ls] eqn:E; [apply thins_nil_l|].
        apply thins_space; [|reflexivity|].
        -- revert Hc. unfold islinebreak, isspace. cbv zeta.
           rewrite !orb_true_iff, !andb_true_iff, !Nat.leb_le, Nat.eqb_eq. lia.
        -- rewrite <- E. apply IH. lia.
      * pose proof (IH s ltac:(lia)) as T.
        destruct (splitlines s) as [|l ls].
        -- cbn [PyStr.join]. apply thins_keep. apply thins_nil_l.
        -- rewrite join_cons_nil in *. cbn [app]. now apply thins_keep.
Qed.

Lemma rstrip_decomp l : exists ws,
  forallb isspace ws = true /\ l = rstrip l ++ ws.
Proof.
  assert (forall l, exists ws, forallb isspace ws = true /\ l = ws ++ lstrip l) as LS.
  { induction l0 as [|c l0 (ws & Hws & E)]; [now exists []|].
    cbn [lstrip]. destruct (isspace c) eqn:Hc.
    - exists (c :: ws). cbn [forallb app]. rewrite Hc, Hws. split; [reflexivity|].
      now rewrite <- E.
    - now exists []. }
  destruct (LS (rev l)) as (ws & Hws & E).
  exists (rev ws). split; [now rewrite forallb_rev|].
  unfold rstrip. rewrite <- rev_app_distr, <- E. now rewrite rev_involutive.
Qed.

Lemma kept_join_thins : forall L,
  thins (PyStr.join [LF] (map rstrip (filter nonblank L))) (PyStr.join [LF] L).
Proof.
  induction L as [|l L IH]; [constructor|].
  rewrite (join_cons_nil [LF] l L). cbn [filter].
  destruct (nonblank l) eqn:Hl.
  - cbn [map]. rewrite join_cons_nil.
    destruct (rstrip_decomp l) as (ws & Hws & E).
    rewrite E at 2. rewrite <- app_assoc.
    apply thins_app; [apply thins_refl|]. apply thins_drop_app.
    destruct (map rstrip (filter nonblank L)) as [|k K] eqn:EK; [apply thins_nil_l|].
    destruct L as [|l2 L]; [discriminate|].
    cbn [app]. now apply thins_keep.
  - apply thins_drop_app.
    destruct L as [|l2 L]; [exact IH|]. cbn [app]. now apply thins_drop.
Qed.

Lemma clean_lines_thins code : thins (clean_lines code) code.
Proof.
  unfold clean_lines. fold nonblank.
  apply (thins_trans (PyStr.join [LF] (splitlines code)) code).
  - apply (splitlines_thins_len (length code)). lia.
  - apply kept_join_thins.
Qed.

(** Normalization only removes characters and normalizes line ends. *)
Lemma clean_code_thins code file_path cleaned :
  _clean_code code file_path = Some cleaned -> thins cleaned code.
Proof.
  unfold _clean_code.
  destruct (strip_comments _ code) as [code1|] eqn:E; [|discriminate].
  cbn [bind]. intros [= <-].
  apply (thins_trans code1 code); [now apply strip_comments_thins in E|].
  apply clean_lines_thins.
Qed.

(* ------------------------------------------------------------------ *)
(** ** Comments that start with a hash *)
(* ------------------------------------------------------------------ *)

Lemma compile_hash_re : compile (py "#.*$") = Some hash_re.
Proof. reflexivity. Qed.

(** From any position the rest of the line can be matched. *)
Lemma rest_of_line_matches : forall s p,
  exists e, matches true (RSeq (RRep QStar true RAny) REol) (p, s) e.
Proof.
  induction s as [|c s IH]; intros p.
  - exists (p, []). exists (p, []). split; [constructor | now split].
  - destruct (Ascii.eqb c LF) eqn:E.
    + exists (p, c :: s). exists (p, c :: s). split; [constructor|].
      split; [|reflexivity]. cbn [at_eol snd]. now rewrite E.
    + destruct (IH (Some c)) as (e & m & R & M).
      exists e, m. split; [|exact M].
      apply (reps_more _ (p, c :: s) (Some c, s) m); [|cbn; lia | exact R].
      exists c. now repeat split.
Qed.

(** At a hash the pattern matches, and the match is not empty. *)
Lemma hash_match p s adv :
  exists n, match_len true hash_re adv p ("#"%char :: s) = Some (S n).
Proof.
  unfold match_len.
  assert (N : match_at true hash_re adv p ("#"%char :: s) <> None).
  { unfold match_at.
    destruct (rest_of_line_matches s (Some "#"%char)) as ([p' s'] & M).
    apply (exec_complete true hash_re (p, "#"%char :: s) (p', s')).
    - exists (Some "#"%char, s). split; [now split | exact M].
    - cbn [fst snd].
      destruct (matches_suffix true _ _ _ M) as (u & E). cbn [snd] in E.
      replace (length s' =? length ("#"%char :: s)) with false.
      + rewrite andb_false_r. discriminate.
      + symmetry. apply Nat.eqb_neq. rewrite E. cbn [length]. rewrite length_app. lia. }
  destruct (match_at true hash_re adv p ("#"%char :: s)) as [rest|] eqn:E; [|congruence].
  destruct (match_at_sound true _ _ _ _ _ E) as (p' & m & [E1 _] & M2).
  cbn [snd] in E1. injection E1 as E1.
  destruct (matches_suffix true _ _ _ M2) as (u & E2). cbn [snd] in E2.
  exists (length s - length rest). f_equal. cbn [length].
  rewrite E1, E2, length_app. lia.
Qed.

(** After the pass no hash is left. *)
Lemma scan_hash_free : forall s skip p,
  ~ In "#"%char (rebuild [] (scan true hash_re skip p s)).
Proof.
  induction s as [|c s IH]; intros skip p.
  - rewrite (thins_of_nil _ (scan_thins true hash_re [] skip p)). intros [].
  - destruct skip; cbn [scan]; [|apply IH].
    assert (K : forall q, c <> "#"%char ->
                ~ In "#"%char (c :: rebuild [] (scan true hash_re 0 q s))).
    { intros q Hc [E | H]; [congruence | now apply IH in H]. }
    destruct (match_len true hash_re false p (c :: s)) as [[|n]|] eqn:M.
    + cbn [rebuild flat_map app].
      assert (Hc : c <> "#"%char).
      { intros ->. destruct (hash_match p s false) as (n & E). congruence. }
      destruct (match_len true hash_re true p (c :: s)) as [[|n]|];
        cbn [rebuild flat_map app]; [now apply K | apply IH | now apply K].
    + cbn [rebuild flat_map app]. apply IH.
    + cbn [rebuild flat_map app]. apply K.
      intros ->. destruct (hash_match p s false) as (n & E). congruence.
Qed.

Lemma hash_not_space : isspace "#" = false.
Proof. reflexivity. Qed.

Lemma hash_grammar_clean g code out :
  single_line g = py "#.*$" ->
  strip_comments (Some g) code = Some out -> ~ In "#"%char out.
Proof.
  intros Hg. cbn [strip_comments]. rewrite Hg. unfold Re.sub at 1.
  rewrite compile_hash_re. cbn [bind]. intros H Hin.
  apply remove_all_thins in H.
  destruct (thins_In _ _ H _ Hin) as [I | I]; [|discriminate I].
  now apply scan_hash_free in I.
Qed.

(** The grammars of python and ruby. *)
Lemma hash_grammars tag :
  tag = py "python" \/ tag = py "ruby" ->
  exists g, lookup tag patterns = Some g /\ single_line g = py "#.*$".
Proof. intros [-> | ->]; eexists; split; reflexivity. Qed.

(* ------------------------------------------------------------------ *)
(** ** Texts with a double slash or a closed block *)
(* ------------------------------------------------------------------ *)

Lemma has_dslash_intro : forall a b, has_dslash (a ++ py "//" ++ b) = true.
Proof.
  induction a as [|c a IH]; intros b; [reflexivity|].
  cbn [app has_dslash]. rewrite (IH b). apply orb_true_r.
Qed.

Lemma closes_intro : forall b c, closes (b ++ py "*/" ++ c) = true.
Proof.
  induction b as [|x b IH]; intros c; [reflexivity|].
  cbn [app closes]. rewrite (IH c). apply orb_true_r.
Qed.

Lemma has_pair_intro : forall a b c,
  has_pair (a ++ py "/*" ++ b ++ py "*/" ++ c) = true.
Proof.
  induction a as [|x a IH]; intros b c.
  - cbn [app]. change (py "/*" ++ b ++ py "*/" ++ c)
      with ("/"%char :: "*"%char :: b ++ py "*/" ++ c).
    cbn [has_pair]. unfold opens_here. cbn [skipn].
    now rewrite (closes_intro b c).
  - cbn [app has_pair]. rewrite (IH b c). apply orb_true_r.
Qed.

Lemma c_style_grammars tag :
  In tag [py "javascript"; py "typescript"; py "java"; py "go"; py "rust"] ->
  lookup tag patterns = Some c_style.
Proof.
  cbn [In]. intros [<- | [<- | [<- | [<- | [<- | []]]]]]; reflexivity.
Qed.

Lemma c_style_clean code :
  has_dslash (clean_lines (sub_block (sub_line code))) = false /\
  has_pair (clean_lines (sub_block (sub_line code))) = false.
Proof.
  pose proof (sub_line_clean code 0 None) as L. fold (pieces true line_re code) in L.
  fold (sub_line code) in L.
  destruct (sub_block_clean (sub_line code) L) as [D P].
  now rewrite clean_lines_dslash, clean_lines_pair.
Qed.

(* ------------------------------------------------------------------ *)
(** ** Bounds on the token estimate *)
(* ------------------------------------------------------------------ *)

Lemma word_runs_space : forall s b, forallb isspace s = true -> word_runs b s = 0.
Proof.
  induction s as [|c s IH]; intros b H; [reflexivity|].
  cbn [forallb] in H. apply andb_prop in H. destruct H as [Hc Hs].
  cbn [word_runs]. rewrite (space_not_word c Hc). now apply IH.
Qed.

Lemma count_symbols_space : forall s, forallb isspace s = true -> count_symbols s = 0.
Proof.
  unfold count_symbols.
  induction s as [|c s IH]; intros H; [reflexivity|].
  cbn [forallb] in H. apply andb_prop in H. destruct H as [Hc Hs].
  cbn [filter]. rewrite (space_not_symbol c Hc). now apply IH.
Qed.

Lemma token_count_zero s : token_count s = 0%Z <-> forallb isspace s = true.
Proof.
  split.
  - intros H. destruct (forallb isspace s) eqn:F; [reflexivity|]. exfalso.
    assert (E : existsb (fun c => negb (isspace c)) s = true).
    { clear H. induction s as [|c s IH]; [discriminate|].
      cbn [forallb] in F. cbn [existsb].
      destruct (isspace c); [cbn [negb orb andb] in *; now apply IH | reflexivity]. }
    pose proof (token_count_pos s E). lia.
  - intros F. unfold token_count.
    now rewrite (word_runs_space s false F), (count_symbols_space s F).
Qed.

(** A character that is not of a word cuts the text in two for the
    estimate. *)
Lemma token_count_cut a c b :
  is_word c = false ->
  token_count (a ++ c :: b) =
  (token_count a + (if is_symbol c then 1 else 0) + token_count b)%Z.
Proof.
  intros W. unfold token_count.
  rewrite (word_runs_app_break a c b false W), count_symbols_app.
  unfold count_symbols at 2. cbn [filter].
  destruct (is_symbol c); cbn [length]; fold (count_symbols b); lia.
Qed.

(* ------------------------------------------------------------------ *)
(** ** What a traversal keeps and what it reaches *)
(* ------------------------------------------------------------------ *)

Lemma foldM_invariant (A B : Type) (f : B -> A -> option B) (P : B -> Prop) :
  forall l b b',
    (forall a b1 b2, In a l -> P b1 -> f b1 a = Some b2 -> P b2) ->
    P b -> foldM f l b = Some b' -> P b'.
Proof.
  induction l as [|a l IH]; intros b b' Hf Hb H.
  - now injection H as <-.
  - cbn [foldM] in H. destruct (f b a) as [b1|] eqn:E; [|discriminate].
    cbn [bind] in H. apply (IH b1 b'); [|exact (Hf a b b1 (or_introl eq_refl) Hb E) | exact H].
    intros a0 x y Ha0. apply Hf. now right.
Qed.

(** A property that one step brings about and no step destroys holds at
    the end. *)
Lemma foldM_establish (A B : Type) (f : B -> A -> option B) (P : B -> Prop) a :
  forall l b b',
    In a l ->
    (forall x b1 b2, In x l -> P b1 -> f b1 x = Some b2 -> P b2) ->
    (forall b1 b2, f b1 a = Some b2 -> P b2) ->
    foldM f l b = Some b' -> P b'.
Proof.
  induction l as [|x l IH]; intros b b' Ha Hp He H; [contradiction|].
  cbn [foldM] in H. destruct (f b x) as [b1|] eqn:E; [|discriminate].
  cbn [bind] in H. destruct Ha as [-> | Ha].
  - apply (foldM_invariant _ _ f P l b1 b'); [|exact (He _ _ E) | exact H].
    intros a0 y z Ha0. apply Hp. now right.
  - apply (IH b1 b' Ha); [|exact He | exact H].
    intros a0 y z Ha0. apply Hp. now right.
Qed.

Lemma filterM_keeps (A : Type) (f : A -> option bool) x : forall l l',
  filterM f l = Some l' -> In x l -> f x = Some true -> In x l'.
Proof.
  induction l as [|a l IH]; intros l' H Hin Hx; [contradiction|].
  cbn [filterM] in H. destruct (f a) as [k|] eqn:E; [|discriminate].
  cbn [bind] in H. destruct (filterM f l) as [r|] eqn:R; [|discriminate].
  cbn [bind] in H. injection H as <-.
  destruct Hin as [-> | Hin].
  - rewrite Hx in E. injection E as <-. now left.
  - destruct k; [right|]; now apply (IH r).
Qed.

Lemma filterM_none (A : Type) (f : A -> option bool) : forall l,
  (forall x, In x l -> f x = Some false) -> filterM f l = Some [].
Proof.
  induction l as [|a l IH]; intros H; [reflexivity|].
  cbn [filterM]. rewrite (H a (or_introl eq_refl)). cbn [bind].
  rewrite IH by (intros; apply H; now right). reflexivity.
Qed.

Lemma foldM_id (A B : Type) (f : B -> A -> option B) : forall l b,
  (forall x b, In x l -> f b x = Some b) -> foldM f l b = Some b.
Proof.
  induction l as [|a l IH]; intros b H; [reflexivity|].
  cbn [foldM]. rewrite (H a b (or_introl eq_refl)). cbn [bind].
  apply IH. intros; apply H; now right.
Qed.

Lemma lookup_entry (A : Type) k : forall (l : list (str * A)) v,
  lookup k l = Some v -> In (k, v) l.
Proof.
  induction l as [|[k' v'] l IH]; intros v H; [discriminate|].
  cbn [lookup] in H. destruct (list_eq_dec ascii_dec k' k) as [-> | _].
  - injection H as <-. now left.
  - right. now apply IH.
Qed.

Lemma subdir_walks_In cfg rules dirpath entries name es :
  In (name, Dir es) entries ->
  In (name, walk cfg rules (OsPath.join dirpath name) (Dir es))
     (subdir_walks cfg rules dirpath entries).
Proof.
  intros H. unfold subdir_walks. apply in_flat_map.
  exists (name, Dir es). split; [exact H | now left].
Qed.

Section WalkMore.
Variable cfg : config.
Variable rules : list str.

(** A property of the state that [_process_file] keeps is kept by the
    walk. *)
Lemma walk_invariant (Inv : state -> Prop) :
  (forall path size content st, Inv st -> Inv (_process_file cfg path size content st)) ->
  forall n dirpath st st', Inv st -> walk cfg rules dirpath n st = Some st' -> Inv st'.
Proof.
  intros HP.
  induction n as [size content | entries IH] using node_ind'; intros dirpath st st' Hi H.
  - now injection H as <-.
  - rewrite walk_Dir in H.
    destruct (filterM _ _) as [dirnames|] eqn:F; [|discriminate]. cbn [bind] in H.
    destruct (foldM (visit_file cfg rules dirpath) _ st) as [st1|] eqn:V; [|discriminate].
    cbn [bind] in H.
    assert (I1 : Inv st1).
    { eapply (foldM_invariant _ _ (visit_file cfg rules dirpath) Inv);
        [|exact Hi | exact V].
      intros a b1 b2 _ Hb E. unfold visit_file in E.
      destruct (_should_ignore rules _) as [ig|]; [|discriminate]. cbn [bind] in E.
      destruct ig; [now injection E as <-|].
      destruct (snd a); injection E as <-; [now apply HP | exact Hb]. }
    eapply (foldM_invariant _ _ (fun st d => snd d st) Inv); [|exact I1 | exact H].
    intros a b1 b2 Ha Hb E.
    apply (Permutation_in _ (sorted_by_perm _ fst _)) in Ha.
    destruct (filterM_spec _ _ _ _ F) as [F1 _]. destruct (F1 a Ha) as [Ha' _].
    destruct (subdir_walks_spec cfg rules dirpath entries) as [S1 _].
    destruct (S1 a Ha') as (ch & Hch & Ew). cbn beta in E. rewrite Ew in E.
    rewrite Forall_forall in IH. exact (IH _ Hch _ _ _ Hb E).
Qed.

End WalkMore.

(* ------------------------------------------------------------------ *)
(** ** What [_process_file] records *)
(* ------------------------------------------------------------------ *)

Lemma dict_set_key (A : Type) k (v : A) : forall d, In k (map fst (dict_set k v d)).
Proof.
  induction d as [|[k' v'] d IH]; cbn [dict_set]; [now left|].
  destruct (list_eq_dec ascii_dec k' k); cbn [map fst]; [now left | now right].
Qed.

Lemma dict_set_keeps (A : Type) k (v : A) x : forall d,
  In x (map fst d) -> In x (map fst (dict_set k v d)).
Proof.
  induction d as [|[k' v'] d IH]; intros H; [contradiction|].
  cbn [dict_set]. destruct (list_eq_dec ascii_dec k' k) as [E | E]; cbn [map fst] in *.
  - destruct H as [H | H]; [left; congruence | now right].
  - destruct H as [H | H]; [now left | right; now apply IH].
Qed.

Lemma dict_set_Forall (A : Type) (P : str * A -> Prop) k (v : A) : forall d,
  P (k, v) -> Forall P d -> Forall P (dict_set k v d).
Proof.
  induction d as [|[k' v'] d IH]; intros Hv Hd; cbn [dict_set].
  - now repeat constructor.
  - inversion Hd; subst.
    destruct (list_eq_dec ascii_dec k' k); constructor; auto.
Qed.

Lemma splitlines_nil s : splitlines s = [] -> s = [].
Proof.
  destruct s as [|c s]; [reflexivity|]. cbn [splitlines].
  destruct (Ascii.eqb c CR).
  - destruct s as [|d s]; [discriminate|]. destruct (Ascii.eqb d LF); discriminate.
  - destruct (islinebreak c); [discriminate|]. destruct (splitlines s); discriminate.
Qed.

Lemma truncate_not_nil cfg cleaned tokens body :
  cleaned <> [] -> truncate cfg cleaned tokens = Some body -> body <> [].
Proof.
  intros H. unfold truncate.
  destruct (tokens >? max_token_length cfg)%Z.
  - destruct (int_div _ tokens) as [n|]; [|discriminate]. cbn [bind].
    intros E. injection E as <-. intros E. apply app_eq_nil in E.
    destruct E as [_ E]. discriminate E.
  - intros E. injection E as <-. exact H.
Qed.

Lemma recorded_process_file cfg path file_size content p st :
  recorded p st -> recorded p (_process_file cfg path file_size content st).
Proof.
  intros [K (body & S)].
  destruct (process_file_cases cfg path file_size content st)
    as [-> | (tag & text & cleaned & estimate & b & _ & _ & _ & _ & _ & _ & _ & ->)].
  - split; [exact K | now exists body].
  - split; cbn [file_stats flattened_content].
    + now apply dict_set_keeps.
    + exists body. apply in_or_app. now left.
Qed.

Section Reach.
Variable cfg : config.
Variable rules : list str.

(** The walk records every file it is not told to leave out, provided the
    truncation step returns for it. *)
Lemma walk_reaches : forall segs n dsegs st st' file_size text tag cleaned estimate body,
  segs <> [] ->
  node_at n segs = Some (File file_size (Some text)) ->
  (forall k, 0 < k <= length segs ->
     _should_ignore rules (path_of (dsegs ++ firstn k segs)) = Some false) ->
  lookup (lower (snd (OsPath.splitext (path_of (dsegs ++ segs))))) SUPPORTED_EXTENSIONS
    = Some tag ->
  (file_size <= max_file_size cfg)%Z ->
  _clean_code text (path_of (dsegs ++ segs)) = Some cleaned -> cleaned <> [] ->
  _estimate_tokens cleaned = Some estimate ->
  truncate cfg cleaned estimate = Some body ->
  walk cfg rules (path_of dsegs) n st = Some st' ->
  recorded (path_of (dsegs ++ segs)) st'.
Proof.
  induction segs as [|name rest IH];
    intros n dsegs st st' file_size text tag cleaned estimate body
           Hne Hat Hig Hext Hsize Hc Hcl He Ht H;
    [congruence|].
  cbn [node_at] in Hat. destruct n as [|entries]; [discriminate|].
  destruct (lookup name entries) as [child|] eqn:L; [|discriminate].
  apply lookup_entry in L.
  rewrite walk_Dir in H.
  destruct (filterM _ _) as [dirnames|] eqn:F; [|discriminate]. cbn [bind] in H.
  destruct (foldM (visit_file cfg rules (path_of dsegs)) _ st) as [st1|] eqn:V;
    [|discriminate].
  cbn [bind] in H.
  set (key := path_of (dsegs ++ name :: rest)) in *.
  assert (Keep : forall d b1 b2,
             In d (sorted_by fst dirnames) -> recorded key b1 ->
             snd d b1 = Some b2 -> recorded key b2).
  { intros d b1 b2 Hd Hb E.
    apply (Permutation_in _ (sorted_by_perm _ fst _)) in Hd.
    destruct (filterM_spec _ _ _ _ F) as [F1 _]. destruct (F1 d Hd) as [Hd' _].
    destruct (subdir_walks_spec cfg rules (path_of dsegs) entries) as [S1 _].
    destruct (S1 d Hd') as (ch & Hch & Ew). rewrite Ew in E.
    apply (walk_invariant cfg rules (recorded key)
             (fun path size content st0 => recorded_process_file cfg path size content key st0)
             _ _ _ _ Hb E). }
  destruct rest as [|name2 rest].
  - (* the file is in this directory *)
    cbn [node_at] in Hat. injection Hat as ->.
    assert (Hig1 : _should_ignore rules (path_of (dsegs ++ [name])) = Some false).
    { apply (Hig 1). cbn [length]. lia. }
    assert (R1 : recorded key st1).
    { eapply (foldM_establish _ _ (visit_file cfg rules (path_of dsegs)) (recorded key)
                (name, File file_size (Some text))); [| | |exact V].
      - apply (Permutation_in _ (Permutation_sym (sorted_by_perm _ fst _))).
        apply filter_In. split; [exact L | reflexivity].
      - intros x b1 b2 _ Hb E. unfold visit_file in E.
        destruct (_should_ignore rules (OsPath.join (path_of dsegs) (fst x))) as [ig|];
          [|discriminate].
        cbn [bind] in E.
        destruct ig; [now injection E as <-|].
        destruct (snd x); injection E as <-;
          [now apply recorded_process_file | exact Hb].
      - intros b1 b2 E. unfold visit_file in E. cbn [fst snd] in E.
        rewrite <- path_of_snoc, Hig1 in E. cbn [bind] in E. injection E as <-.
        subst key.
        rewrite (process_file_given cfg _ file_size text tag cleaned
                   estimate body b1 Hext Hsize Hc Hcl He Ht).
        split; cbn [file_stats flattened_content].
        + apply dict_set_key.
        + eexists. apply in_or_app. right. now left. }
    eapply (foldM_invariant _ _ (fun st d => snd d st) (recorded key));
      [|exact R1 | exact H].
    intros d b1 b2 Hd Hb E. exact (Keep d b1 b2 Hd Hb E).
  - (* the file is below a subdirectory *)
    destruct child as [|es]; [discriminate|].
    assert (Hig1 : _should_ignore rules (path_of (dsegs ++ [name])) = Some false).
    { apply (Hig 1). cbn [length]. lia. }
    eapply (foldM_establish _ _ (fun st d => snd d st) (recorded key)
              (name, walk cfg rules (OsPath.join (path_of dsegs) name) (Dir es)));
      [| | |exact H].
    + apply (Permutation_in _ (Permutation_sym (sorted_by_perm _ fst _))).
      apply (filterM_keeps _ _ _ _ _ F).
      * now apply subdir_walks_In.
      * unfold keep_dir. cbn [fst]. rewrite <- path_of_snoc, Hig1. reflexivity.
    + intros d b1 b2 Hd Hb E. exact (Keep d b1 b2 Hd Hb E).
    + intros b1 b2 E. cbn [snd] in E. rewrite <- path_of_snoc in E.
      unfold key. replace (dsegs ++ name :: name2 :: rest)
        with ((dsegs ++ [name]) ++ name2 :: rest) by now rewrite <- app_assoc.
      apply (IH (Dir es) (dsegs ++ [name]) b1 b2 file_size text tag cleaned
               estimate body); try assumption.
      * discriminate.
      * intros k Hk. rewrite <- app_assoc. cbn [app].
        change (name :: firstn k (name2 :: rest))
          with (firstn (S k) (name :: name2 :: rest)).
        apply Hig. cbn [length] in *. lia.
      * now rewrite <- app_assoc.
      * now rewrite <- app_assoc.
Qed.

End Reach.

(* ------------------------------------------------------------------ *)
(** ** The walk depends on the rules through their verdicts only *)
(* ------------------------------------------------------------------ *)

Lemma same_walks_insert x1 x2 : forall l1 l2,
  fst x1 = fst x2 -> (forall st, snd x1 st = snd x2 st) ->
  same_walks l1 l2 ->
  same_walks (insert fst x1 l1) (insert fst x2 l2).
Proof.
  intros l1 l2 Hf Hs H. induction H as [|y1 y2 l1 l2 [Hy Hw] H IH].
  - repeat constructor; assumption.
  - cbn [insert]. rewrite Hf, Hy.
    destruct (ltb (fst x2) (fst y2)).
    + constructor; [now split|]. constructor; [now split | exact H].
    + constructor; [now split | exact IH].
Qed.

Lemma same_walks_rev l1 l2 : same_walks l1 l2 -> same_walks (rev l1) (rev l2).
Proof.
  intros H. induction H as [|y1 y2 l1 l2 Hy H IH]; [constructor|].
  cbn [rev]. apply Forall2_app; [exact IH | now repeat constructor].
Qed.

Lemma same_walks_sorted l1 l2 :
  same_walks l1 l2 -> same_walks (sorted_by fst l1) (sorted_by fst l2).
Proof.
  intros H. unfold sorted_by. apply same_walks_rev in H.
  induction H as [|y1 y2 r1 r2 [Hy Hw] H IH]; [constructor|].
  cbn [fold_right]. now apply same_walks_insert.
Qed.

Lemma same_walks_fold : forall l1 l2, same_walks l1 l2 ->
  forall st, foldM (fun st d => snd d st) l1 st = foldM (fun st d => snd d st) l2 st.
Proof.
  intros l1 l2 H. induction H as [|y1 y2 l1 l2 [Hy Hw] H IH]; intros st; [reflexivity|].
  cbn [foldM]. rewrite Hw. destruct (snd y2 st); [apply IH | reflexivity].
Qed.

Lemma same_walks_filter rules1 rules2 dirpath :
  (forall p, _should_ignore rules1 p = _should_ignore rules2 p) ->
  forall l1 l2, same_walks l1 l2 ->
  match filterM (keep_dir rules1 dirpath) l1, filterM (keep_dir rules2 dirpath) l2 with
  | Some r1, Some r2 => same_walks r1 r2
  | None, None => True
  | _, _ => False
  end.
Proof.
  intros Hr l1 l2 H. induction H as [|y1 y2 l1 l2 [Hy Hw] H IH]; [constructor|].
  cbn [filterM].
  assert (K : keep_dir rules1 dirpath y1 = keep_dir rules2 dirpath y2).
  { unfold keep_dir. now rewrite Hy, Hr. }
  rewrite K. destruct (keep_dir rules2 dirpath y2) as [keep|]; cbn [bind]; [|exact I].
  destruct (filterM (keep_dir rules1 dirpath) l1) as [r1|],
           (filterM (keep_dir rules2 dirpath) l2) as [r2|]; try contradiction; [|exact I].
  cbn [bind]. destruct keep; [|exact IH].
  constructor; [now split | exact IH].
Qed.

Section WalkExt.
Variable cfg : config.
Variables rules1 rules2 : list str.
Hypothesis same_verdicts : forall p, _should_ignore rules1 p = _should_ignore rules2 p.

Lemma visit_file_ext dirpath st e :
  visit_file cfg rules1 dirpath st e = visit_file cfg rules2 dirpath st e.
Proof. unfold visit_file. now rewrite same_verdicts. Qed.

Lemma foldM_ext (A B : Type) (f g : B -> A -> option B) :
  (forall b a, f b a = g b a) -> forall l b, foldM f l b = foldM g l b.
Proof.
  intros H. induction l as [|a l IH]; intros b; [reflexivity|].
  cbn [foldM]. rewrite H. destruct (g b a); [apply IH | reflexivity].
Qed.

Lemma walk_ext : forall n dirpath st,
  walk cfg rules1 dirpath n st = walk cfg rules2 dirpath n st.
Proof.
  induction n as [size content | entries IH] using node_ind'; intros dirpath st;
    [reflexivity|].
  rewrite !walk_Dir.
  assert (S : same_walks (subdir_walks cfg rules1 dirpath entries)
                         (subdir_walks cfg rules2 dirpath entries)).
  { unfold subdir_walks. clear st.
    induction IH as [|[name child] rest Hc _ IHr]; [constructor|].
    cbn [flat_map fst snd]. destruct child as [|es]; [exact IHr|].
    cbn [app]. constructor; [|exact IHr]. split; [reflexivity|].
    intros st. apply Hc. }
  pose proof (same_walks_filter rules1 rules2 dirpath same_verdicts _ _ S) as F.
  destruct (filterM (keep_dir rules1 dirpath) _) as [r1|],
           (filterM (keep_dir rules2 dirpath) _) as [r2|];
    try contradiction; [|reflexivity].
  cbn [bind].
  rewrite (foldM_ext _ _ _ _ (visit_file_ext dirpath)).
  destruct (foldM (visit_file cfg rules2 dirpath) _ st) as [st1|]; [|reflexivity].
  cbn [bind]. apply same_walks_fold. now apply same_walks_sorted.
Qed.

End WalkExt.

(** A rule set that excludes every path leaves the state as it is. *)
Lemma walk_all_ignored cfg rules :
  (forall p, _should_ignore rules p = Some true) ->
  forall entries dirpath st, walk cfg rules dirpath (Dir entries) st = Some st.
Proof.
  intros Hall entries dirpath st. rewrite walk_Dir.
  rewrite filterM_none.
  2:{ intros d _. unfold keep_dir. now rewrite Hall. }
  cbn [bind]. rewrite foldM_id.
  2:{ intros e b _. unfold visit_file. now rewrite Hall. }
  reflexivity.
Qed.

(** The empty pattern is found in every text. *)
Lemma found_empty text : found [] text = true.
Proof.
  unfold found, Re.search.
  change (compile []) with (Some REmpty). cbn [bind].
  destruct text; reflexivity.
Qed.

Lemma should_ignore_all rules :
  Forall compiles rules -> In [] rules ->
  forall p, _should_ignore rules p = Some true.
Proof.
  intros C H p. rewrite should_ignore_exists by exact C. f_equal.
  apply existsb_exists. exists []. split; [exact H|].
  unfold rule_hits. now rewrite found_empty.
Qed.

(** The verdict depends on the set of the rules only. *)
Lemma existsb_incl (A : Type) (f : A -> bool) l l' :
  (forall x, In x l -> In x l') -> existsb f l = true -> existsb f l' = true.
Proof.
  intros H E. apply existsb_exists in E. destruct E as (x & Hx & Fx).
  apply existsb_exists. exists x. split; [now apply H | exact Fx].
Qed.

Lemma existsb_same (A : Type) (f : A -> bool) l l' :
  (forall x, In x l <-> In x l') -> existsb f l = existsb f l'.
Proof.
  intros H. destruct (existsb f l) eqn:E.
  - symmetry. apply (existsb_incl _ f l l'); [intros; now apply H | exact E].
  - destruct (existsb f l') eqn:E'; [|reflexivity].
    rewrite (existsb_incl _ f l' l) in E; [discriminate | intros; now apply H | exact E'].
Qed.

(* ------------------------------------------------------------------ *)
(** ** The instance and the command line *)
(* ------------------------------------------------------------------ *)


Lemma load_fields gitignore self self' :
  Cli._load_gitignore gitignore self = Some self' ->
  Cli.ignore_patterns self' = Cli.ignore_patterns self /\
  Cli.report self' = Cli.report self.
Proof.
  destruct gitignore as [[size [text|]|es]|]; cbn [Cli._load_gitignore];
    try discriminate; intros [= <-]; now split.
Qed.


Lemma split_join_free sep : forall L,
  L <> [] ->
  Forall (fun l => forallb (fun c => negb (Ascii.eqb c sep)) l = true) L ->
  split sep (PyStr.join [sep] L) = L.
Proof.
  induction L as [|l L IH]; intros Hne H; [congruence|].
  inversion H as [|? ? Hl HL]; subst.
  destruct L as [|l2 L].
  - cbn [PyStr.join]. now apply split_sepfree.
  - change (PyStr.join [sep] (l :: l2 :: L)) with (l ++ sep :: PyStr.join [sep] (l2 :: L)).
    rewrite split_app, (split_sepfree sep l Hl), IH by (assumption || discriminate).
    reflexivity.
Qed.

Lemma split_snoc_sep sep s : split sep (s ++ [sep]) = split sep s ++ [[]].
Proof.
  rewrite split_app. f_equal.
Qed.

(** An option value that ends with a comma yields an empty pattern. *)
Lemma parse_ignore_comma s : In [] (Cli.parse_ignore (Some (s ++ py ","))).
Proof.
  unfold Cli.parse_ignore. change (py ",") with [","%char].
  destruct (s ++ [","%char]) as [|c t] eqn:E.
  - now destruct s.
  - rewrite <- E, split_snoc_sep, map_app. apply in_or_app. right. now left.
Qed.

(* ------------------------------------------------------------------ *)
(** ** The rules of the exclusion file and the report *)
(* ------------------------------------------------------------------ *)

Lemma gitignore_lines_In line : forall file_lines,
  In line file_lines ->
  strip line <> [] ->
  startswith (strip line) (py "#") = false ->
  startswith (strip line) (py "!") = false ->
  In (_glob_to_regex (strip line)) (gitignore_lines file_lines).
Proof.
  induction file_lines as [|l ls IH]; intros Hin Hne Hc Hn; [contradiction|].
  cbn [gitignore_lines]. destruct Hin as [-> | Hin].
  - destruct (strip line) as [|c w] eqn:E; [congruence|].
    rewrite Hc, Hn. now left.
  - destruct (strip l) as [|c w]; [now apply IH|].
    destruct (startswith (c :: w) (py "#")); [now apply IH|].
    destruct (startswith (c :: w) (py "!")); [now apply IH|].
    right. now apply IH.
Qed.

Lemma strip_incl l x : In x (strip l) -> In x l.
Proof. intros H. unfold strip in H. now apply lstrip_incl, rstrip_incl. Qed.

Lemma line_one_line text line :
  In line (split LF text) -> one_line (strip line) = true.
Proof.
  intros H. pose proof (split_components LF text) as F.
  rewrite Forall_forall in F. specialize (F line H).
  apply forallb_forall. intros x Hx. apply strip_incl in Hx.
  rewrite forallb_forall in F. now apply F.
Qed.

(** The rules of a loaded set. *)
Lemma load_gitignore_rules size text ips rules :
  _load_gitignore (Some (File size (Some text))) ips = Some rules ->
  rules = default_patterns ++ gitignore_lines (split LF text) ++ map _glob_to_regex ips.
Proof. cbn [_load_gitignore]. now intros [= <-]. Qed.

(** No recorded path is excluded by the rules. *)
Lemma recorded_not_ignored cfg ips entries rules st doc :
  wf_node (Dir entries) = true ->
  _load_gitignore (lookup (py ".gitignore") entries) ips = Some rules ->
  flatten cfg ips (Dir entries) = Some (st, doc) ->
  forall key, In key (map fst (file_stats st)) -> _should_ignore rules key = Some false.
Proof.
  intros W L H key Hk. unfold flatten in H. rewrite L in H. cbn [bind] in H.
  destruct (walk cfg rules [] (Dir entries) (mkState [] [])) as [st'|] eqn:Wk;
    [|discriminate].
  cbn [bind] in H. destruct (save_output st'); [|discriminate].
  cbn [bind] in H. injection H as <- _.
  destruct (walk_root cfg rules (Dir entries) st' W Wk) as (recs & Es & _ & G & _).
  rewrite Es, map_map in Hk. apply in_map_iff in Hk. destruct Hk as (r & <- & Hr).
  rewrite Forall_forall in G. destruct (G r Hr) as (rest & E & Hne & _ & _ & Hig).
  cbn [app] in E. specialize (Hig (length rest)).
  rewrite firstn_all in Hig. cbn [app] in Hig.
  cbn [rec_entry fst]. unfold r_key. rewrite E. apply Hig.
  destruct rest; [congruence | cbn [length]; lia].
Qed.

(** A rule that hits a path settles the verdict of its set. *)
Lemma should_ignore_hit rules path pattern :
  Forall compiles rules -> In pattern rules -> rule_hits path pattern = true ->
  _should_ignore rules path = Some true.
Proof.
  intros C Hin Hh. rewrite should_ignore_exists by exact C. f_equal.
  apply existsb_exists. now exists pattern.
Qed.

(** The verdict of a simple rule without final separator. *)
Lemma name_rule_hits (anchored star : bool) w path :
  wildfree w = true -> sepfree w = true -> star = true \/ w <> [] ->
  one_line (OsPath.basename path) = true ->
  (exists u, OsPath.basename path = u ++ w /\ (star = false -> u = [])) ->
  rule_hits path (_glob_to_regex (simple_glob anchored star w false)) = true.
Proof.
  intros W F H L (u & E & Hu).
  destruct (simple_glob_compiled anchored star w false W F H) as [Hne Hc].
  unfold rule_hits. rewrite !found_glob by exact Hne. rewrite Hc.
  apply orb_true_iff. right.
  apply (search_glob anchored star w false _ L).
  exists [], u, []. rewrite app_nil_r. cbn [app]. repeat split.
  - exact E.
  - now left.
  - destruct star; [|now apply Hu].
    destruct (basename_split path) as (d & _ & _ & Fb). rewrite E, sepfree_app in Fb.
    now apply andb_prop in Fb.
  - now left.
Qed.

(* ------------------------------------------------------------------ *)
(** ** The built-in rules *)
(* ------------------------------------------------------------------ *)

Lemma word_found (lead : bool) w (dir : bool) a b :
  search_from false (default_regex lead w dir) None (a ++ w ++ b) = true.
Proof.
  apply search_from_spec. exists a, (w ++ b), (prev_of (prev_of None a) w, b).
  split; [reflexivity|]. unfold default_regex.
  apply matches_mk_seq, seq_matches_app. exists (prev_of None a, w ++ b). split.
  - destruct lead; cbn [seq_matches]; [|reflexivity].
    eexists. split; [|reflexivity]. constructor.
  - apply seq_matches_app. exists (prev_of (prev_of None a) w, b). split.
    + apply seq_matches_lits. now split.
    + destruct dir; cbn [seq_matches]; [|reflexivity].
      eexists. split; [|reflexivity]. apply matches_dir_suffix. now left.
Qed.

Lemma default_rule_found w a b :
  In w default_words ->
  exists pattern, In pattern default_patterns /\ found pattern (a ++ w ++ b) = true.
Proof.
  unfold default_words. cbn [In].
  intros [<- | [<- | [<- | [<- | [<- | [<- | [<- | [<- | [<- | [<- | []]]]]]]]]]].
  - exists (py "\.git(?:/.*)?"). split; [cbn; tauto|].
    exact (word_found false (py ".git") true a b).
  - exists (py "\.idea(?:/.*)?"). split; [cbn; tauto|].
    exact (word_found false (py ".idea") true a b).
  - exists (py "__pycache__(?:/.*)?"). split; [cbn; tauto|].
    exact (word_found false (py "__pycache__") true a b).
  - exists (py ".*\.pyc"). split; [cbn; tauto|].
    exact (word_found true (py ".pyc") false a b).
  - exists (py ".*\.log"). split; [cbn; tauto|].
    exact (word_found true (py ".log") false a b).
  - exists (py "\.env"). split; [cbn; tauto|].
    exact (word_found false (py ".env") false a b).
  - exists (py ".*venv(?:/.*)?"). split; [cbn; tauto|].
    exact (word_found true (py "venv") true a b).
  - exists (py "node_modules(?:/.*)?"). split; [cbn; tauto|].
    exact (word_found false (py "node_modules") true a b).
  - exists (py "dist(?:/.*)?"). split; [cbn; tauto|].
    exact (word_found false (py "dist") true a b).
  - exists (py "build(?:/.*)?"). split; [cbn; tauto|].
    exact (word_found false (py "build") true a b).
Qed.

(** A hit among the first rules settles the verdict, whatever follows. *)
Lemma should_ignore_prefix path : forall first rest,
  Forall compiles first -> existsb (rule_hits path) first = true ->
  _should_ignore (first ++ rest) path = Some true.
Proof.
  induction first as [|pattern first IH]; intros rest C H; [discriminate|].
  inversion C as [|? ? Hc Hr]; subst. cbn [app _should_ignore].
  rewrite !(found_spec _ _ Hc). cbn [bind].
  cbn [existsb] in H. unfold rule_hits at 1 in H.
  destruct (found pattern path); [reflexivity|]. cbn [bind].
  destruct (found pattern (OsPath.basename path)); [reflexivity|].
  cbn [orb] in H. now apply IH.
Qed.

(* ------------------------------------------------------------------ *)
(** ** The lines of the report *)
(* ------------------------------------------------------------------ *)

(** The last component of the path of a chain of valid names. *)
Lemma basename_path_of segs :
  segs <> [] -> forallb valid_name segs = true ->
  OsPath.basename (path_of segs) = last segs [].
Proof.
  intros Hne Hv. destruct (path_of_valid segs Hv) as [-> _].
  destruct (exists_last Hne) as (init & name & ->).
  rewrite last_last. rewrite forallb_app in Hv. apply andb_prop in Hv.
  destruct Hv as [_ Hn]. cbn [forallb] in Hn. rewrite andb_true_r in Hn.
  apply valid_sepfree in Hn.
  destruct init as [|a init].
  - cbn [app PyStr.join]. now apply basename_sepfree.
  - rewrite join_snoc by discriminate. cbn [app]. now apply basename_app.
Qed.

Lemma split_path_of segs :
  segs <> [] -> forallb valid_name segs = true ->
  split OsPath.sep (path_of segs) = segs.
Proof.
  intros Hne Hv. destruct (path_of_valid segs Hv) as [-> _].
  now apply split_join_valid.
Qed.

(** The line of a file in the structure, spelled out. *)
Lemma file_line_path_of segs stats :
  segs <> [] -> forallb valid_name segs = true ->
  file_line (path_of segs) stats =
  concat (repeat (py "  ") (length segs - 1)) ++
  page_icon ++ py " " ++ last segs [] ++ py " (" ++
  of_Z (lines stats) ++ py " lines, ~" ++ of_Z (tokens stats) ++ py " tokens)".
Proof.
  intros Hne Hv. unfold file_line, times.
  now rewrite split_path_of, basename_path_of.
Qed.

Lemma sum_map_map (A B : Type) (f : B -> Z) (g : A -> B) l :
  sum (map f (map g l)) = fold_right Z.add 0%Z (map (fun x => f (g x)) l).
Proof. unfold sum. now rewrite map_map. Qed.

(** The output file for a list of records. *)
Lemma save_output_records st recs doc :
  file_stats st = map rec_entry recs ->
  flattened_content st = map rec_section recs ->
  save_output st = Some doc ->
  exists kb,
    format_kb (fold_right Z.add 0%Z (map (fun r => size (r_stats r)) recs)) = Some kb /\
    doc =
    header ++
    py "## Project Summary" ++ [LF; LF] ++
    py "- Total files processed: " ++ of_Z (Z.of_nat (length recs)) ++ [LF] ++
    py "- Total lines of code: " ++
      of_Z (fold_right Z.add 0%Z (map (fun r => lines (r_stats r)) recs)) ++ [LF] ++
    py "- Estimated total tokens: " ++
      of_Z (fold_right Z.add 0%Z (map (fun r => tokens (r_stats r)) recs)) ++ [LF] ++
    py "- Total size: " ++ kb ++ py " KB" ++ [LF] ++
    [LF] ++ py "## Project Structure" ++ [LF; LF] ++
    PyStr.join [LF] (structure_lines st) ++
    [LF; LF] ++ py "## Source Code" ++ [LF; LF] ++
    py "Each file is demarcated by a header showing its relative path." ++ [LF; LF] ++
    py "--------------------" ++ [LF; LF] ++
    PyStr.join [LF]
      (map (fun r => py "### File: " ++ path_of (r_segs r) ++ [LF] ++
                     py "```python" ++ [LF] ++ r_body r ++ [LF] ++
                     py "```" ++ [LF]) recs).
Proof.
  intros Efs Efc.
  unfold save_output, _generate_summary, _generate_project_structure, source_code,
    total_files, total_lines, total_tokens, total_size.
  rewrite Efs, Efc, length_map.
  unfold rec_entry. rewrite !sum_map_map. cbn [snd].
  destruct (format_kb _) as [kb|]; [|discriminate]. cbn [bind].
  intros E. exists kb. split; [reflexivity|].
  apply (f_equal (fun o => match o with Some x => x | None => doc end)) in E.
  cbv beta iota in E. rewrite <- E.
  unfold rec_section, section, r_key.
  rewrite <- !app_assoc. reflexivity.
Qed.

(* ------------------------------------------------------------------ *)
(** ** The extension of a path *)
(* ------------------------------------------------------------------ *)

Lemma after_last_none c : forall p,
  OsPath.after_last c p = 0 -> forallb (fun x => negb (Ascii.eqb x c)) p = true.
Proof.
  intros p H. destruct (after_last_spec c p) as [[_ F] | (a & b & _ & E & _)];
    [exact F | rewrite E in H; discriminate].
Qed.

(** The last dot of a path whose last component has none is not after the
    last separator. *)
Lemma dot_before_sep p :
  forallb (fun x => negb (Ascii.eqb x "."%char)) (OsPath.basename p) = true ->
  OsPath.after_last "."%char p <= OsPath.after_last OsPath.sep p.
Proof.
  intros F. unfold OsPath.basename in F.
  destruct (after_last_spec "."%char p) as [[E _] | (a & b & Ep & E & Fb)];
    [rewrite E; lia|].
  rewrite E.
  destruct (le_lt_dec (S (length a)) (OsPath.after_last OsPath.sep p)) as [L | L];
    [exact L | exfalso].
  rewrite Ep in F at 2.
  assert (K : skipn (OsPath.after_last OsPath.sep p) (a ++ "."%char :: b)
              = skipn (OsPath.after_last OsPath.sep p) a ++ "."%char :: b).
  { rewrite skipn_app.
    replace (OsPath.after_last OsPath.sep p - length a) with 0 by lia.
    reflexivity. }
  rewrite K, forallb_app in F. apply andb_prop in F. destruct F as [_ F].
  cbn [forallb] in F. rewrite Ascii.eqb_refl in F. discriminate F.
Qed.

(* ================================================================== *)
(** * The properties of the specification *)
(* ================================================================== *)

(** C1 (the code departs from the claim).  [_glob_to_regex] turns a doubled
    star into a dot and a star and then rewrites every star, the new one
    included, into the class of the characters other than the separator.
    The rule a/**/b therefore matches exactly one more character and then
    only characters of the same segment: it excludes a/xy/b and does not
    exclude a/x/y/b. *)
Theorem C1_double_star_stops_at_separator :
  _glob_to_regex (py "a/**/b") = py "(?:^|/)a/.[^/]*/b$" /\
  _load_gitignore (Some (File 6 (Some (py "a/**/b")))) [] =
    Some (default_patterns ++ [py "(?:^|/)a/.[^/]*/b$"]) /\
  _should_ignore (default_patterns ++ [py "(?:^|/)a/.[^/]*/b$"]) (py "a/x/y/b")
    = Some false /\
  _should_ignore (default_patterns ++ [py "(?:^|/)a/.[^/]*/b$"]) (py "a/xy/b")
    = Some true.
Proof. repeat split; vm_compute; reflexivity. Qed.

(** C2, the claim as stated fails: with the limit 1 the text ..aaaa has
    the estimate 3; the proportional cut keeps its first two characters,
    both of them symbols, and the result with the marker has the estimate
    16, above the limit plus the 14 tokens of the marker. *)
Lemma C2_token_bound_fails :
  _estimate_tokens (py "..aaaa") = Some 3%Z /\
  (3 > max_token_length (mkConfig 1048576 1))%Z /\
  truncate (mkConfig 1048576 1) (py "..aaaa") 3 = Some (py ".." ++ truncation_marker) /\
  _estimate_tokens truncation_marker = Some 14%Z /\
  _estimate_tokens (py ".." ++ truncation_marker) = Some 16%Z /\
  ~ (16 <= max_token_length (mkConfig 1048576 1) + 14)%Z.
Proof. repeat split; try (vm_compute; reflexivity). vm_compute. intros H. now apply H. Qed.

(** C2, amended.  When the estimate of a text is over a limit that is not
    negative, and the length of the text times the limit is below [2^53]
    (so that the floating-point division of the cut is exact), the
    truncation step returns the first [length text * limit / estimate]
    characters of the text followed by the marker, and the estimate of the
    result is at most the estimate of the text plus the 14 tokens of the
    marker. *)
Theorem C2_truncation_bounded_by_input :
  forall cfg text tokens,
    (0 <= max_token_length cfg)%Z ->
    (Z.of_nat (length text) * max_token_length cfg < 2 ^ 53)%Z ->
    _estimate_tokens text = Some tokens ->
    (tokens > max_token_length cfg)%Z ->
    exists n out estimate,
      n = Z.to_nat (Z.of_nat (length text) * max_token_length cfg / tokens) /\
      n <= length text /\
      truncate cfg text tokens = Some out /\
      out = firstn n text ++ truncation_marker /\
      _estimate_tokens truncation_marker = Some 14%Z /\
      _estimate_tokens out = Some estimate /\
      (estimate <= tokens + 14)%Z.
Proof.
  intros cfg text tokens Hl Hb He Hgt.
  rewrite estimate_tokens_eq in He. injection He as <-.
  pose proof (token_count_bounds text) as Hle.
  set (tokens := token_count text) in *.
  set (limit := max_token_length cfg) in *.
  set (n := Z.to_nat (Z.of_nat (length text) * limit / tokens)).
  exists n, (firstn n text ++ truncation_marker),
         (token_count (firstn n text ++ truncation_marker)).
  assert (Hq : (0 <= Z.of_nat (length text) * limit / tokens <= Z.of_nat (length text))%Z).
  { split; [apply Z.div_pos; lia|]. apply Z.div_le_upper_bound; [lia|]. nia. }
  repeat split.
  - subst n. lia.
  - rewrite truncate_quot by (fold limit; lia). fold limit.
    unfold slice_to. rewrite Z.quot_div_nonneg by lia.
    replace (0 <=? Z.of_nat (length text) * limit / tokens)%Z with true
      by (symmetry; apply Z.leb_le; lia).
    reflexivity.
  - apply estimate_tokens_eq.
  - rewrite token_count_marker. pose proof (token_count_firstn text n). fold tokens in H. lia.
Qed.

(** The amended C2 on the text of the counterexample: the first two
    characters are kept. *)
Lemma C2_truncation_bounded_by_input_witness :
  exists estimate,
    truncate (mkConfig 1048576 1) (py "..aaaa") 3 =
      Some (py ".." ++ LF :: py "# ... (truncated due to token limit) ...") /\
    _estimate_tokens (py ".." ++ LF :: py "# ... (truncated due to token limit) ...")
      = Some estimate /\
    (estimate <= 3 + 14)%Z.
Proof.
  destruct (C2_truncation_bounded_by_input (mkConfig 1048576 1) (py "..aaaa") 3)
    as (n & out & estimate & En & _ & Et & Eo & _ & Ee & Hb).
  - vm_compute. discriminate.
  - vm_compute. reflexivity.
  - vm_compute. reflexivity.
  - vm_compute. reflexivity.
  - exists estimate. subst out. subst n. split; [exact Et | split; [exact Ee | exact Hb]].
Defined.

(** C3.  No rule string makes the matcher raise: every text that
    [_glob_to_regex] returns compiles, so do the built-in patterns, hence
    every pattern of the loaded rule set compiles, [_should_ignore] answers
    on every path and the walk of every tree returns.  (No pattern fails to
    compile, so the case of a failed compilation never arises.) *)
Theorem C3_patterns_never_raise :
  forall (size : Z) (gitignore_text : str) (ignore_patterns : list str),
    (forall pattern, exists r, Re.compile (_glob_to_regex pattern) = Some r) /\
    exists rules,
      _load_gitignore (Some (File size (Some gitignore_text))) ignore_patterns
        = Some rules /\
      Forall (fun pattern => exists r, Re.compile pattern = Some r) rules /\
      (forall path, exists ignored, _should_ignore rules path = Some ignored) /\
      (forall cfg dirpath n st, exists st', walk cfg rules dirpath n st = Some st').
Proof.
  intros size text pats. split; [apply glob_to_regex_compiles|].
  eexists. split; [reflexivity|].
  assert (C : Forall compiles
                (default_patterns ++ gitignore_lines (split LF text) ++
                 map _glob_to_regex pats)).
  { apply (load_gitignore_compiles (Some (File size (Some text))) pats). reflexivity. }
  split; [|split].
  - exact C.
  - intros path. now apply should_ignore_total.
  - intros cfg dirpath n st. now apply walk_total.
Qed.

(** C4 (the code departs from the claim).  A line of the exclusion file
    that starts with the negation mark is dropped, but a pattern given by
    the caller goes to [_glob_to_regex] unfiltered: the mark is compiled as
    a literal character, the rule joins the rule set and excludes the file
    of that very name. *)
Theorem C4_caller_negation_is_compiled :
  gitignore_lines [py "!x.py"] = [] /\
  _load_gitignore (Some (File 0 (Some []))) [py "!x.py"]
    = Some (default_patterns ++ [py "(?:^|/)!x\.py$"]) /\
  _should_ignore (default_patterns ++ [py "(?:^|/)!x\.py$"]) (py "!x.py") = Some true /\
  _should_ignore default_patterns (py "!x.py") = Some false /\
  option_map (fun r => map fst (file_stats (fst r)))
    (flatten default_config [py "!x.py"]
       (Dir [ (py ".gitignore", File 0 (Some []));
              (py "!x.py", File 5 (Some (py "a = 1"))) ])) = Some [] /\
  option_map (fun r => map fst (file_stats (fst r)))
    (flatten default_config []
       (Dir [ (py ".gitignore", File 0 (Some []));
              (py "!x.py", File 5 (Some (py "a = 1"))) ])) = Some [py "!x.py"].
Proof. repeat split; vm_compute; reflexivity. Qed.

(** C5.  After a traversal of a well-formed tree there is a list of file
    records, with distinct paths, such that: the statistics hold their
    paths and counts; the document is the preamble, the summary, the
    structure and, in the Source Code section, one section per record with
    its path and body; for every record the token count is the estimate of
    the normalized content (the body itself unless the estimate is over the
    limit), the line count is that of the body shown, and the structure
    holds a line with the last name of the path and these two counts; the
    summary prints the number of records and the sums of their lines and
    tokens, and for a total size below [2^53] the number of tenths of a KB
    nearest to it. *)
Theorem C5_report_is_consistent :
  forall cfg ignore_patterns root st doc,
    wf_node root = true ->
    flatten cfg ignore_patterns root = Some (st, doc) ->
    exists (files : list filerec) (structure : list str) (kb : str),
      file_stats st = map (fun r => (path_of (r_segs r), r_stats r)) files /\
      NoDup (map (fun r => path_of (r_segs r)) files) /\
      Forall (fun r =>
        r_segs r <> [] /\
        (exists cleaned,
           _estimate_tokens cleaned = Some (tokens (r_stats r)) /\
           truncate cfg cleaned (tokens (r_stats r)) = Some (r_body r) /\
           ((tokens (r_stats r) <= max_token_length cfg)%Z -> r_body r = cleaned)) /\
        lines (r_stats r) = Z.of_nat (length (splitlines (r_body r))) /\
        In (concat (repeat (py "  ") (length (r_segs r) - 1)) ++
            page_icon ++ py " " ++ last (r_segs r) [] ++ py " (" ++
            of_Z (lines (r_stats r)) ++ py " lines, ~" ++
            of_Z (tokens (r_stats r)) ++ py " tokens)") structure) files /\
      doc =
        header ++
        py "## Project Summary" ++ [LF; LF] ++
        py "- Total files processed: " ++ of_Z (Z.of_nat (length files)) ++ [LF] ++
        py "- Total lines of code: " ++
          of_Z (fold_right Z.add 0%Z (map (fun r => lines (r_stats r)) files)) ++ [LF] ++
        py "- Estimated total tokens: " ++
          of_Z (fold_right Z.add 0%Z (map (fun r => tokens (r_stats r)) files)) ++ [LF] ++
        py "- Total size: " ++ kb ++ py " KB" ++ [LF] ++
        [LF] ++ py "## Project Structure" ++ [LF; LF] ++
        PyStr.join [LF] structure ++
        [LF; LF] ++ py "## Source Code" ++ [LF; LF] ++
        py "Each file is demarcated by a header showing its relative path." ++ [LF; LF] ++
        py "--------------------" ++ [LF; LF] ++
        PyStr.join [LF]
          (map (fun r => py "### File: " ++ path_of (r_segs r) ++ [LF] ++
                         py "```python" ++ [LF] ++ r_body r ++ [LF] ++
                         py "```" ++ [LF]) files) /\
      ((0 <= fold_right Z.add 0 (map (fun r => size (r_stats r)) files) < 2 ^ 53)%Z ->
       exists tenths,
         kb = of_Z (tenths / 10) ++ py "." ++ of_Z (tenths mod 10) /\
         (Z.abs (1024 * tenths
                 - 10 * fold_right Z.add 0 (map (fun r => size (r_stats r)) files))
          <= 512)%Z /\
         (Z.abs (1024 * tenths
                 - 10 * fold_right Z.add 0 (map (fun r => size (r_stats r)) files))
          = 512 -> Z.even tenths = true)%Z).
Proof.
  intros cfg pats root st doc Hwf H.
  unfold flatten in H. destruct root as [|entries]; [discriminate|].
  destruct (_load_gitignore _ pats) as [rules|]; [|discriminate]. cbn [bind] in H.
  destruct (walk cfg rules [] (Dir entries) (mkState [] [])) as [st'|] eqn:W;
    [|discriminate].
  cbn [bind] in H.
  destruct (save_output st') as [doc'|] eqn:S; [|discriminate].
  cbn [bind] in H. injection H as -> ->.
  destruct (walk_root cfg rules _ _ Hwf W) as (recs & Efs & Efc & G & N).
  destruct (save_output_records st recs doc Efs Efc S) as (kb & Ekb & Edoc).
  exists recs, (structure_lines st), kb.
  split; [exact Efs|]. split; [exact N|]. split; [|split].
  - apply Forall_forall. intros r Hr.
    rewrite Forall_forall in G.
    destruct (G r Hr) as (rest & E & Hne & Hv & M & _). cbn [app] in E.
    rewrite <- E in Hne, Hv.
    destruct M as (tag & content & cleaned & _ & _ & _ & _ & He & Ht & Hl).
    split; [exact Hne|]. split; [|split; [exact Hl|]].
    + exists cleaned. split; [exact He|]. split; [exact Ht|].
      intros Hle. rewrite truncate_within in Ht by exact Hle. now injection Ht.
    + rewrite <- (file_line_path_of (r_segs r) (r_stats r) Hne Hv).
      apply (structure_lines_complete st (r_key r, r_stats r)).
      rewrite Efs. apply in_map_iff. exists r. now split.
  - exact Edoc.
  - intros Hb. rewrite format_kb_exact in Ekb by exact Hb. injection Ekb as <-.
    exists (PyFloat.round_half_even
              (10 * fold_right Z.add 0%Z (map (fun r => size (r_stats r)) recs)) 1024).
    split; [reflexivity|].
    destruct (round_half_even_nearest
                (10 * fold_right Z.add 0%Z (map (fun r => size (r_stats r)) recs)) 1024
                ltac:(lia)) as [N1 N2].
    split; [lia|]. intros Ht. apply N2. lia.
Qed.

(** C5 on a tree of two files, one of them cut at the limit of four
    tokens: the whole document. *)
Lemma C5_report_is_consistent_witness :
  exists st,
    flatten (mkConfig 1048576 4) []
      (Dir [ (py "src", Dir [ (py "m.js", File 1100 (Some (py "f(1); // one"))) ]);
             (py "a.txt", File 180 (Some (py "hello world"))) ])
    = Some (st, py
"# Codebase Flattened for Agentic Workflow

This file contains the project's source code, optimized for token efficiency:
- Comments and docstrings have been removed
- Empty lines have been cleaned up
- Large files have been truncated
- Only relevant file types are included

## Project Summary

- Total files processed: 2
- Total lines of code: 3
- Estimated total tokens: 7
- Total size: 1.2 KB

## Project Structure

ðŸ“„ a.txt (1 lines, ~2 tokens)
ðŸ“ src/
  ðŸ“„ m.js (2 lines, ~5 tokens)

## Source Code

Each file is demarcated by a header showing its relative path.

--------------------

### File: a.txt
```python
hello world
```

### File: src/m.js
```python
f(1)
# ... (truncated due to token limit) ...
```
") /\
    file_stats st = [ (py "a.txt", mkFileStats 180 2 1);
                      (py "src/m.js", mkFileStats 1100 5 2) ].
Proof.
  set (tree := Dir [ (py "src", Dir [ (py "m.js", File 1100 (Some (py "f(1); // one"))) ]);
                     (py "a.txt", File 180 (Some (py "hello world"))) ]).
  destruct (flatten (mkConfig 1048576 4) [] tree) as [[st doc]|] eqn:E.
  - destruct (C5_report_is_consistent (mkConfig 1048576 4) [] tree st doc
                ltac:(vm_compute; reflexivity) E)
      as (files & structure & kb & Efs & _).
    exists st. pose proof E as E'. vm_compute in E'. injection E' as E1 E2.
    split.
    + rewrite <- E2. vm_compute. reflexivity.
    + rewrite <- E1. vm_compute. reflexivity.
  - vm_compute in E. discriminate E.
Defined.

(** C6, the claim as stated fails.  In a Python file the removal of a
    block in single quotes joins two halves of a block in double quotes,
    which the second normalization then removes; in a Ruby file the removal
    of one block joins the two halves of the opening word of another. *)
Lemma C6_not_idempotent :
  (let x := [DQ; DQ] ++ py "'''a'''" ++ [DQ] ++ py " b " ++ [DQ; DQ; DQ] in
   let y := [DQ; DQ; DQ] ++ py " b " ++ [DQ; DQ; DQ] in
   _clean_code x (py "t.py") = Some y /\
   _clean_code y (py "t.py") = Some [] /\
   y <> []) /\
  (let x := py "=be=begin x =endgin y =end" in
   let y := py "=begin y =end" in
   _clean_code x (py "t.rb") = Some y /\
   _clean_code y (py "t.rb") = Some [] /\
   y <> []).
Proof. repeat split; try (vm_compute; reflexivity); discriminate. Qed.

(** C6, amended.  Normalization returns and is idempotent for every text
    and every file whose language tag is neither python nor ruby: the tag
    has no comment grammar, or it has the C-style one (javascript,
    typescript, java, go, rust), whose two passes leave no double slash and
    no slash-star closed by a star-slash, which line cleaning cannot bring
    back.  For every file, python and ruby included, it is idempotent
    whenever the grammar step leaves the normalized text unchanged. *)
Theorem C6_idempotent_outside_python_ruby :
  (forall code file_path,
     language_tag (lower (snd (OsPath.splitext file_path))) <> py "python" ->
     language_tag (lower (snd (OsPath.splitext file_path))) <> py "ruby" ->
     exists y, _clean_code code file_path = Some y /\ _clean_code y file_path = Some y) /\
  (forall code file_path y,
     _clean_code code file_path = Some y ->
     strip_comments
       (_get_language_specific_patterns (lower (snd (OsPath.splitext file_path)))) y
       = Some y ->
     _clean_code y file_path = Some y).
Proof.
  assert (G : forall code file_path y,
     _clean_code code file_path = Some y ->
     strip_comments
       (_get_language_specific_patterns (lower (snd (OsPath.splitext file_path)))) y
       = Some y ->
     _clean_code y file_path = Some y).
  { intros code file_path y Hc Hs.
    destruct (clean_code_shape _ _ _ Hc) as [code' ->].
    unfold _clean_code. rewrite Hs. cbn [bind]. now rewrite clean_lines_idem. }
  split; [|exact G].
  intros code file_path Hp Hr.
  destruct (grammar_cases _ Hp Hr) as [Hn | Hc].
  - exists (clean_lines code).
    assert (E : _clean_code code file_path = Some (clean_lines code)).
    { unfold _clean_code, _get_language_specific_patterns. now rewrite Hn. }
    split; [exact E|]. apply (G code file_path _ E).
    unfold _get_language_specific_patterns. now rewrite Hn.
  - now apply clean_code_c_style.
Qed.

(** The amended C6 on a JavaScript file, whose comments go and do not come
    back, and on a Python file. *)
Lemma C6_idempotent_outside_python_ruby_witness :
  (exists y,
     _clean_code (py "a /* b */ c // d") (py "app.js") = Some y /\
     _clean_code y (py "app.js") = Some y) /\
  _clean_code (py "x = 1") (py "t.py") = Some (py "x = 1").
Proof.
  split.
  - apply (proj1 C6_idempotent_outside_python_ruby).
    + vm_compute. discriminate.
    + vm_compute. discriminate.
  - apply (proj2 C6_idempotent_outside_python_ruby (py "x = 1 # c") (py "t.py")).
    + vm_compute. reflexivity.
    + vm_compute. reflexivity.
Defined.

(** C7 (the code departs from the claim).  [_load_gitignore] returns
    before the rule set is assembled when the root holds no exclusion file:
    the rule set stays empty whatever the caller's patterns, and no path is
    ignored.  So the directory temp, matched by the caller's rule temp/,
    and the directory node_modules, matched by a built-in rule, contribute
    their files to the report; with an exclusion file in the root, even an
    empty one, both are pruned. *)
Theorem C7_rules_need_an_exclusion_file :
  (forall ignore_patterns, _load_gitignore None ignore_patterns = Some []) /\
  (forall path, _should_ignore [] path = Some false) /\
  _should_ignore [_glob_to_regex (py "temp/")] (py "temp") = Some true /\
  option_map (fun r => map fst (file_stats (fst r)))
    (flatten default_config [py "temp/"]
       (Dir [ (py "temp", Dir [ (py "x.py", File 5 (Some (py "x = 1"))) ]) ]))
    = Some [py "temp/x.py"] /\
  option_map (fun r => map fst (file_stats (fst r)))
    (flatten default_config [py "temp/"]
       (Dir [ (py ".gitignore", File 0 (Some []));
              (py "temp", Dir [ (py "x.py", File 5 (Some (py "x = 1"))) ]) ]))
    = Some [] /\
  _should_ignore default_patterns (py "node_modules") = Some true /\
  option_map (fun r => map fst (file_stats (fst r)))
    (flatten default_config []
       (Dir [ (py "node_modules", Dir [ (py "m.js", File 5 (Some (py "f(1);"))) ]) ]))
    = Some [py "node_modules/m.js"] /\
  option_map (fun r => map fst (file_stats (fst r)))
    (flatten default_config []
       (Dir [ (py ".gitignore", File 0 (Some []));
              (py "node_modules", Dir [ (py "m.js", File 5 (Some (py "f(1);"))) ]) ]))
    = Some [].
Proof.
  split; [reflexivity|]. split; [reflexivity|].
  repeat split; vm_compute; reflexivity.
Qed.




(** C9.  For a file cut at the token limit the recorded token count is the
    estimate of the content before the cut, above the limit, and the
    recorded line count is that of the body after the cut, marker
    included. *)
Theorem C9_truncated_file_statistics :
  forall cfg relative_path file_size content tag cleaned estimate body st,
    lookup (lower (snd (OsPath.splitext relative_path))) SUPPORTED_EXTENSIONS
      = Some tag ->
    (file_size <= max_file_size cfg)%Z ->
    _clean_code content relative_path = Some cleaned -> cleaned <> [] ->
    _estimate_tokens cleaned = Some estimate ->
    (estimate > max_token_length cfg)%Z ->
    truncate cfg cleaned estimate = Some body ->
    let st' := _process_file cfg relative_path file_size (Some content) st in
    exists stats,
      lookup relative_path (file_stats st') = Some stats /\
      tokens stats = estimate /\
      (tokens stats > max_token_length cfg)%Z /\
      lines stats = Z.of_nat (length (splitlines body)) /\
      size stats = file_size /\
      flattened_content st' = flattened_content st ++ [section relative_path body] /\
      exists kept, body = kept ++ truncation_marker.
Proof.
  intros cfg path file_size content tag cleaned tokens0 body st
         Hext Hsize Hc Hne He Hgt Ht st'.
  pose proof (process_file_given cfg path file_size content tag cleaned tokens0 body st
                Hext Hsize Hc Hne He Ht) as P.
  subst st'. rewrite P. cbn [file_stats flattened_content].
  eexists. split; [apply lookup_dict_set|]. cbn [tokens lines size].
  repeat split; try assumption.
  destruct (truncate_over cfg cleaned tokens0 body Hgt Ht) as (n & _ & E).
  eexists. exact E.
Qed.

(** C9 on a text of two tokens cut at the limit 1. *)
Lemma C9_truncated_file_statistics_witness :
  exists stats,
    lookup (py "a.txt")
      (file_stats (_process_file (mkConfig 1048576 1) (py "a.txt") 11
                     (Some (py "hello world")) (mkState [] []))) = Some stats /\
    tokens stats = 2%Z /\
    lines stats = 2%Z.
Proof.
  destruct (C9_truncated_file_statistics (mkConfig 1048576 1) (py "a.txt") 11
              (py "hello world") (py "text") (py "hello world") 2
              (py "hello" ++ truncation_marker) (mkState [] [])
              ltac:(vm_compute; reflexivity) ltac:(vm_compute; discriminate)
              ltac:(vm_compute; reflexivity) ltac:(discriminate)
              ltac:(vm_compute; reflexivity) ltac:(vm_compute; reflexivity)
              ltac:(vm_compute; reflexivity))
    as (stats & Hl & Ht & _ & Hn & _).
  exists stats. repeat split; assumption.
Defined.

(** C10.  Whatever the extension and its language tag, the section of a
    processed file wraps the body in a fence labelled python. *)
Theorem C10_fence_is_always_python :
  forall cfg relative_path file_size content tag cleaned tokens body st,
    lookup (lower (snd (OsPath.splitext relative_path))) SUPPORTED_EXTENSIONS
      = Some tag ->
    (file_size <= max_file_size cfg)%Z ->
    _clean_code content relative_path = Some cleaned -> cleaned <> [] ->
    _estimate_tokens cleaned = Some tokens ->
    truncate cfg cleaned tokens = Some body ->
    flattened_content
      (_process_file cfg relative_path file_size (Some content) st) =
    flattened_content st ++
      [ py "### File: " ++ relative_path ++ [LF] ++
        py "```python" ++ [LF] ++
        body ++ [LF] ++
        py "```" ++ [LF] ].
Proof.
  intros cfg path file_size content tag cleaned tokens0 body st
         Hext Hsize Hc Hne He Ht.
  rewrite (process_file_given cfg path file_size content tag cleaned tokens0 body st
             Hext Hsize Hc Hne He Ht).
  reflexivity.
Qed.

(** C10 on a JavaScript file. *)
Lemma C10_fence_is_always_python_witness :
  flattened_content
    (_process_file default_config (py "src/m.js") 20 (Some (py "f(1); // one"))
       (mkState [] [])) =
  [ py "### File: " ++ py "src/m.js" ++ [LF] ++
    py "```python" ++ [LF] ++ py "f(1);" ++ [LF] ++ py "```" ++ [LF] ].
Proof.
  apply (C10_fence_is_always_python default_config (py "src/m.js") 20
           (py "f(1); // one") (py "javascript") (py "f(1);") 5 (py "f(1);")
           (mkState [] [])).
  - vm_compute. reflexivity.
  - vm_compute. discriminate.
  - vm_compute. reflexivity.
  - discriminate.
  - vm_compute. reflexivity.
  - vm_compute. reflexivity.
Defined.

(* ================================================================== *)
(** * Further properties of the program *)
(* ================================================================== *)

(** ** The rules *)

(** X1.  When a rule of the loaded set matches the directory of path
    [dsegs], no file below it, whatever its own name and the names between,
    is recorded in the statistics, and the sections are those of the
    recorded files only. *)
Theorem ignored_directory_contributes_nothing :
  forall cfg ignore_patterns entries rules st doc dsegs rest,
    wf_node (Dir entries) = true ->
    _load_gitignore (lookup (py ".gitignore") entries) ignore_patterns = Some rules ->
    flatten cfg ignore_patterns (Dir entries) = Some (st, doc) ->
    dsegs <> [] -> rest <> [] ->
    forallb valid_name (dsegs ++ rest) = true ->
    _should_ignore rules (path_of dsegs) = Some true ->
    ~ In (path_of (dsegs ++ rest)) (map fst (file_stats st)) /\
    Forall2 (fun kv text => exists body, text = section (fst kv) body)
            (file_stats st) (flattened_content st).
Proof.
  intros cfg pats entries rules st doc dsegs rest Hwf Hl H Hd Hr Hv Hig.
  unfold flatten in H. rewrite Hl in H. cbn [bind] in H.
  destruct (walk cfg rules [] (Dir entries) (mkState [] [])) as [st'|] eqn:W;
    [|discriminate].
  cbn [bind] in H. destruct (save_output st'); [|discriminate].
  cbn [bind] in H. injection H as -> _.
  destruct (walk_root cfg rules _ _ Hwf W) as (recs & Efs & Efc & G & N).
  split.
  - rewrite Efs. unfold rec_entry. rewrite map_map. cbn [fst].
    intros Hin. apply in_map_iff in Hin. destruct Hin as (r & Ek & Hr').
    rewrite Forall_forall in G. pose proof (G r Hr') as Gr.
    assert (Es : r_segs r = dsegs ++ rest).
    { apply path_of_inj; [now apply (rec_good_valid cfg rules) | assumption | exact Ek]. }
    destruct Gr as (rest0 & E0 & _ & _ & _ & Hk). cbn [app] in E0, Hk.
    rewrite Es in E0. subst rest0.
    specialize (Hk (length dsegs)).
    rewrite firstn_app, firstn_all, Nat.sub_diag in Hk. cbn [firstn] in Hk.
    rewrite app_nil_r in Hk.
    assert (0 < length dsegs <= length (dsegs ++ rest)).
    { rewrite length_app. destruct dsegs; [congruence|]. cbn [length]. lia. }
    specialize (Hk H). congruence.
  - rewrite Efs, Efc. clear. induction recs as [|r recs IH]; constructor; [|exact IH].
    now exists (r_body r).
Qed.

(** X1 on the example tree, whose exclusion file prunes the directory
    temp. *)
Lemma ignored_directory_contributes_nothing_witness :
  exists st doc,
    flatten default_config [] example_tree = Some (st, doc) /\
    ~ In (py "temp/x.py") (map fst (file_stats st)).
Proof.
  destruct (flatten default_config [] example_tree) as [[st doc]|] eqn:E.
  - exists st, doc. split; [reflexivity|].
    refine (proj1 (ignored_directory_contributes_nothing default_config []
              _ (default_patterns ++ [py "(?:^|/)temp(?:/.*)?$"]) st doc
              [py "temp"] [py "x.py"] _ _ E _ _ _ _)).
    + vm_compute. reflexivity.
    + vm_compute. reflexivity.
    + discriminate.
    + discriminate.
    + vm_compute. reflexivity.
    + vm_compute. reflexivity.
  - vm_compute in E. discriminate E.
Defined.

(** X2.  The verdict of [_should_ignore] depends on the set of the rules
    only: adding rules never brings an excluded path back, and two lists
    with the same rules, in any order and with any repetitions, give the
    same verdict. *)
Theorem ignore_verdict_depends_on_the_rule_set :
  forall rules rules' path,
    Forall (fun pattern => exists r, Re.compile pattern = Some r) rules ->
    Forall (fun pattern => exists r, Re.compile pattern = Some r) rules' ->
    ((forall r, In r rules -> In r rules') ->
     _should_ignore rules path = Some true ->
     _should_ignore rules' path = Some true) /\
    ((forall r, In r rules <-> In r rules') ->
     _should_ignore rules path = _should_ignore rules' path).
Proof.
  intros rules rules' path C C'.
  rewrite !should_ignore_exists by assumption. split.
  - intros Hin [= H]. f_equal. now apply (existsb_incl _ _ rules rules').
  - intros Hin. f_equal. now apply existsb_same.
Qed.

(** X2: a path excluded by one rule stays excluded when a second rule
    comes first. *)
Lemma ignore_verdict_depends_on_the_rule_set_witness :
  _should_ignore [py "(?:^|/)b$"; py "(?:^|/)a$"] (py "src/a") = Some true.
Proof.
  apply (proj1 (ignore_verdict_depends_on_the_rule_set
                  [py "(?:^|/)a$"] [py "(?:^|/)b$"; py "(?:^|/)a$"] (py "src/a")
                  ltac:(repeat constructor; eexists; vm_compute; reflexivity)
                  ltac:(repeat constructor; eexists; vm_compute; reflexivity))).
  - intros r [<- | []]. right. now left.
  - vm_compute. reflexivity.
Defined.

(** X3.  A rule made of a name without separator or wildcard, alone or after a
    star, excludes exactly the paths whose last component is the name, or
    ends with it when there is a star; a leading separator in the rule
    changes nothing. *)
Theorem rule_of_a_name :
  forall (anchored star : bool) w path,
    wildfree w = true -> sepfree w = true -> star = true \/ w <> [] ->
    one_line path = true ->
    exists verdict,
      _should_ignore [_glob_to_regex (simple_glob anchored star w false)] path
        = Some verdict /\
      (verdict = true <->
       exists u, OsPath.basename path = u ++ w /\ (star = false -> u = [])).
Proof.
  intros anchored star w path W F H L.
  set (g := simple_glob anchored star w false).
  exists (rule_hits path (_glob_to_regex g)). split.
  { apply should_ignore_single, glob_to_regex_compiles. }
  split.
  2:{ intros Hu. apply name_rule_hits; try assumption. now apply one_line_basename. }
  destruct (simple_glob_compiled anchored star w false W F H) as [Hne Hc].
  fold g in Hne, Hc.
  unfold rule_hits. rewrite !found_glob by exact Hne. rewrite Hc.
  intros Hh. apply orb_true_iff in Hh. destruct Hh as [Hh | Hh].
  - apply (search_glob anchored star w false path L) in Hh.
    destruct Hh as (pre & u & post & E & Hpre & Hu & Hpost).
    destruct Hpost as [-> | [? _]]; [|discriminate]. rewrite app_nil_r in E.
    assert (Fu : sepfree (u ++ w) = true).
    { rewrite sepfree_app, F, andb_true_r. destruct star; [exact Hu | now subst u]. }
    exists u. split; [|intros ->; exact Hu].
    destruct Hpre as [-> | (_ & a & ->)].
    + rewrite E. now apply basename_sepfree.
    + rewrite E, <- app_assoc. cbn [app]. now apply basename_app.
  - apply (search_glob anchored star w false _ (one_line_basename _ L)) in Hh.
    destruct Hh as (pre & u & post & E & Hpre & Hu & Hpost).
    destruct Hpost as [-> | [? _]]; [|discriminate]. rewrite app_nil_r in E.
    destruct (basename_split path) as (d & _ & _ & Fb).
    destruct Hpre as [-> | (_ & a & ->)].
    + exists u. split; [exact E | intros ->; exact Hu].
    + rewrite E, sepfree_pre in Fb. discriminate.
Qed.

(** X3 on the rule of the log files and a log file in a subdirectory. *)
Lemma rule_of_a_name_witness :
  _should_ignore [_glob_to_regex (py "*.log")] (py "src/app.log") = Some true.
Proof.
  destruct (rule_of_a_name false true (py ".log") (py "src/app.log")
              ltac:(vm_compute; reflexivity) ltac:(vm_compute; reflexivity)
              (or_introl eq_refl) ltac:(vm_compute; reflexivity))
    as (verdict & E & Hv).
  assert (G : simple_glob false true (py ".log") false = py "*.log")
    by (vm_compute; reflexivity).
  rewrite G in E.
  assert (V : verdict = true).
  { apply Hv. exists (py "app"). split; [vm_compute; reflexivity | discriminate]. }
  rewrite V in E. exact E.
Defined.

(** X4.  A rule made of such a name and a final separator excludes exactly the
    paths one of whose components is the name, or ends with it when there
    is a star: the directory, what lies below it, and a file of that
    name. *)
Theorem rule_of_a_directory :
  forall (star : bool) w path,
    wildfree w = true -> sepfree w = true -> star = true \/ w <> [] ->
    one_line path = true ->
    exists verdict,
      _should_ignore [_glob_to_regex (simple_glob false star w true)] path
        = Some verdict /\
      (verdict = true <->
       exists c u, In c (split OsPath.sep path) /\ c = u ++ w /\
                   (star = false -> u = [])).
Proof.
  intros star w path W F H L.
  set (g := simple_glob false star w true).
  exists (rule_hits path (_glob_to_regex g)). split.
  { apply should_ignore_single, glob_to_regex_compiles. }
  destruct (simple_glob_compiled false star w true W F H) as [Hne Hc].
  fold g in Hne, Hc.
  unfold rule_hits. rewrite !found_glob by exact Hne. rewrite Hc.
  split.
  - intros Hh. apply orb_true_iff in Hh. destruct Hh as [Hh | Hh].
    + apply (search_glob false star w true path L) in Hh.
      destruct Hh as (pre & u & post & E & Hpre & Hu & Hpost).
      assert (Fu : sepfree (u ++ w) = true).
      { rewrite sepfree_app, F, andb_true_r. destruct star; [exact Hu | now subst u]. }
      exists (u ++ w), u. split; [|split; [reflexivity | intros ->; exact Hu]].
      apply (split_In OsPath.sep _ path Fu).
      exists pre, post. split; [now rewrite <- app_assoc|]. split.
      * destruct Hpre as [-> | (_ & a & ->)]; [now left | right; now exists a].
      * destruct Hpost as [-> | (_ & b & ->)]; [now left | right; now exists b].
    + apply (search_glob false star w true _ (one_line_basename _ L)) in Hh.
      destruct Hh as (pre & u & post & E & Hpre & Hu & Hpost).
      destruct (basename_split path) as (d & _ & _ & Fb).
      destruct Hpre as [-> | (_ & a & ->)];
        [|rewrite E, sepfree_pre in Fb; discriminate].
      destruct Hpost as [-> | (_ & b & ->)].
      * rewrite app_nil_r in E. cbn [app] in E.
        exists (u ++ w), u. split; [|split; [reflexivity | intros ->; exact Hu]].
        rewrite <- E. apply basename_component.
      * cbn [app] in E. rewrite E, app_assoc, sepfree_no_sep in Fb. discriminate.
  - intros (c & u & Hin & -> & Hu).
    assert (Fc : sepfree (u ++ w) = true).
    { pose proof (split_components OsPath.sep path) as S.
      rewrite Forall_forall in S. exact (S _ Hin). }
    apply (split_In OsPath.sep _ path Fc) in Hin.
    destruct Hin as (pre & post & E & Hpre & Hpost).
    apply orb_true_iff. left.
    apply (search_glob false star w true path L).
    exists pre, u, post. split; [now rewrite E, <- app_assoc|]. split; [|split].
    + destruct Hpre as [-> | (a & ->)]; [now left | right; split; [reflexivity | now exists a]].
    + destruct star; [|now apply Hu].
      rewrite sepfree_app in Fc. now apply andb_prop in Fc.
    + destruct Hpost as [-> | (b & ->)]; [now left | right; split; [reflexivity | now exists b]].
Qed.

(** X4 on the rule of a directory named temp and a file two levels below
    one. *)
Lemma rule_of_a_directory_witness :
  _should_ignore [_glob_to_regex (py "temp/")] (py "a/temp/b/c.py") = Some true.
Proof.
  assert (H1 : wildfree (py "temp") = true) by (vm_compute; reflexivity).
  assert (H2 : sepfree (py "temp") = true) by (vm_compute; reflexivity).
  assert (H3 : false = true \/ py "temp" <> []) by (right; discriminate).
  assert (H4 : one_line (py "a/temp/b/c.py") = true) by (vm_compute; reflexivity).
  destruct (rule_of_a_directory false (py "temp") (py "a/temp/b/c.py") H1 H2 H3 H4)
    as (verdict & E & Hv).
  assert (G : simple_glob false false (py "temp") true = py "temp/")
    by (vm_compute; reflexivity).
  rewrite G in E.
  assert (V : verdict = true).
  { apply Hv. exists (py "temp"), [].
    split; [|split; [reflexivity | intros _; reflexivity]].
    vm_compute. right. now left. }
  rewrite V in E. exact E.
Defined.

(** X5.  The built-in rules are not tied to the names of a path: once the
    rule set is loaded, every path in which one of their words occurs
    anywhere, inside a name as well, is excluded. *)
Theorem builtin_rules_match_inside_names :
  forall size text ignore_patterns rules w a b,
    _load_gitignore (Some (File size (Some text))) ignore_patterns = Some rules ->
    In w [ py ".git"; py ".idea"; py "__pycache__"; py ".pyc"; py ".log";
           py ".env"; py "venv"; py "node_modules"; py "dist"; py "build" ] ->
    _should_ignore rules (a ++ w ++ b) = Some true.
Proof.
  intros size text ips rules w a b L Hw.
  apply load_gitignore_rules in L. subst rules.
  apply should_ignore_prefix; [apply default_patterns_compile|].
  destruct (default_rule_found w a b Hw) as (pattern & Hin & Hf).
  apply existsb_exists. exists pattern. split; [exact Hin|].
  unfold rule_hits. now rewrite Hf.
Qed.

(** X5 on a source file whose name starts with the word dist. *)
Lemma builtin_rules_match_inside_names_witness :
  _should_ignore default_patterns (py "src/distance.py") = Some true.
Proof.
  assert (L : _load_gitignore (Some (File 0 (Some []))) [] = Some default_patterns)
    by (vm_compute; reflexivity).
  exact (builtin_rules_match_inside_names 0 [] [] default_patterns
           (py "dist") (py "src/") (py "ance.py") L
           ltac:(do 8 right; left; reflexivity)).
Defined.

(** ** The traversal *)

(** X6.  The traversal leaves out no file it should keep: a file of the
    tree none of whose leading paths is excluded, with a supported
    extension, a size within the limit, a normalized content that is not
    empty and a truncation step that returns, has its entry in the
    statistics and its section in the document. *)
Theorem every_eligible_file_is_recorded :
  forall cfg ignore_patterns entries rules st doc
         segs file_size text tag cleaned estimate body,
    _load_gitignore (lookup (py ".gitignore") entries) ignore_patterns = Some rules ->
    flatten cfg ignore_patterns (Dir entries) = Some (st, doc) ->
    segs <> [] ->
    node_at (Dir entries) segs = Some (File file_size (Some text)) ->
    (forall k, 0 < k <= length segs ->
       _should_ignore rules (path_of (firstn k segs)) = Some false) ->
    lookup (lower (snd (OsPath.splitext (path_of segs)))) SUPPORTED_EXTENSIONS
      = Some tag ->
    (file_size <= max_file_size cfg)%Z ->
    _clean_code text (path_of segs) = Some cleaned -> cleaned <> [] ->
    _estimate_tokens cleaned = Some estimate ->
    truncate cfg cleaned estimate = Some body ->
    In (path_of segs) (map fst (file_stats st)) /\
    exists shown,
      In (py "### File: " ++ path_of segs ++ [LF] ++ py "```python" ++ [LF] ++
          shown ++ [LF] ++ py "```" ++ [LF]) (flattened_content st).
Proof.
  intros cfg ips entries rules st doc segs file_size text tag cleaned estimate body
         L H Hne Hat Hig Hext Hsize Hc Hcl He Ht.
  unfold flatten in H. rewrite L in H. cbn [bind] in H.
  destruct (walk cfg rules [] (Dir entries) (mkState [] [])) as [st'|] eqn:W;
    [|discriminate].
  cbn [bind] in H. destruct (save_output st'); [|discriminate].
  cbn [bind] in H. injection H as -> _.
  exact (walk_reaches cfg rules segs (Dir entries) [] (mkState [] []) st
           file_size text tag cleaned estimate body
           Hne Hat Hig Hext Hsize Hc Hcl He Ht W).
Qed.

(** X6 on the file src/m.js of the example tree. *)
Lemma every_eligible_file_is_recorded_witness :
  exists st doc,
    flatten default_config [] example_tree = Some (st, doc) /\
    In (py "src/m.js") (map fst (file_stats st)).
Proof.
  destruct (flatten default_config [] example_tree) as [[st doc]|] eqn:E.
  - exists st, doc. split; [reflexivity|].
    pose (entries := [ (py "temp", Dir [ (py "x.py", File 5 (Some (py "x = 1"))) ]);
                      (py ".gitignore", File 6 (Some (py "temp/")));
                      (py "src", Dir [ (py "m.js", File 20 (Some (py "f(1); // one"))) ]);
                      (py "a.txt", File 11 (Some (py "hello world"))) ]).
    assert (L : _load_gitignore (lookup (py ".gitignore") entries) []
                = Some (default_patterns ++ [py "(?:^|/)temp(?:/.*)?$"]))
      by (vm_compute; reflexivity).
    change example_tree with (Dir entries) in E.
    refine (proj1 (every_eligible_file_is_recorded default_config [] entries
              (default_patterns ++ [py "(?:^|/)temp(?:/.*)?$"]) st doc
              [py "src"; py "m.js"] 20 (py "f(1); // one") (py "javascript")
              (py "f(1);") 5 (py "f(1);") L E _ _ _ _ _ _ _ _ _)).
    + discriminate.
    + vm_compute. reflexivity.
    + intros k Hk. cbn [length] in Hk.
      assert (K : k = 1 \/ k = 2) by lia.
      destruct K as [-> | ->]; vm_compute; reflexivity.
    + vm_compute. reflexivity.
    + vm_compute. discriminate.
    + vm_compute. reflexivity.
    + discriminate.
    + vm_compute. reflexivity.
    + vm_compute. reflexivity.
  - vm_compute in E. discriminate E.
Defined.

(** X7.  Every entry of the statistics of a well-formed tree is that of an
    eligible file: its path is not excluded by the rules, its extension is
    supported, its size is within the limit, and it counts at least one
    token and one line. *)
Theorem report_entries_are_eligible :
  forall cfg ignore_patterns entries rules st doc path stats,
    wf_node (Dir entries) = true ->
    _load_gitignore (lookup (py ".gitignore") entries) ignore_patterns = Some rules ->
    flatten cfg ignore_patterns (Dir entries) = Some (st, doc) ->
    In (path, stats) (file_stats st) ->
    _should_ignore rules path = Some false /\
    (exists tag,
       lookup (lower (snd (OsPath.splitext path))) SUPPORTED_EXTENSIONS = Some tag) /\
    (size stats <= max_file_size cfg)%Z /\
    (1 <= tokens stats)%Z /\
    (1 <= lines stats)%Z.
Proof.
  intros cfg ips entries rules st doc path stats Hwf L H Hin.
  split.
  { apply (recorded_not_ignored cfg ips entries rules st doc Hwf L H).
    apply in_map_iff. now exists (path, stats). }
  unfold flatten in H. rewrite L in H. cbn [bind] in H.
  destruct (walk cfg rules [] (Dir entries) (mkState [] [])) as [st'|] eqn:W;
    [|discriminate].
  cbn [bind] in H. destruct (save_output st'); [|discriminate].
  cbn [bind] in H. injection H as -> _.
  destruct (walk_root cfg rules _ _ Hwf W) as (recs & Efs & _ & G & _).
  rewrite Efs in Hin. apply in_map_iff in Hin. destruct Hin as (r & Er & Hr).
  unfold rec_entry in Er. injection Er as <- <-.
  rewrite Forall_forall in G.
  destruct (G r Hr) as (_ & _ & _ & _ & M & _).
  destruct M as (tag & content & cleaned & Hext & Hsize & Hc & Hne & He & Ht & Hl).
  split; [now exists tag|]. split; [exact Hsize|].
  pose proof (clean_estimate content (r_key r) cleaned _ Hc Hne He) as Hpos.
  split; [lia|].
  rewrite Hl. pose proof (truncate_not_nil cfg cleaned _ _ Hne Ht) as Hb.
  destruct (splitlines (r_body r)) eqn:S.
  - apply splitlines_nil in S. contradiction.
  - cbn [length]. lia.
Qed.

(** X7 on the entry of a.txt in the example tree. *)
Lemma report_entries_are_eligible_witness :
  _should_ignore (default_patterns ++ [py "(?:^|/)temp(?:/.*)?$"]) (py "a.txt")
    = Some false.
Proof.
  destruct (flatten default_config [] example_tree) as [[st doc]|] eqn:E.
  - pose (entries := [ (py "temp", Dir [ (py "x.py", File 5 (Some (py "x = 1"))) ]);
                      (py ".gitignore", File 6 (Some (py "temp/")));
                      (py "src", Dir [ (py "m.js", File 20 (Some (py "f(1); // one"))) ]);
                      (py "a.txt", File 11 (Some (py "hello world"))) ]).
    assert (L : _load_gitignore (lookup (py ".gitignore") entries) []
                = Some (default_patterns ++ [py "(?:^|/)temp(?:/.*)?$"]))
      by (vm_compute; reflexivity).
    change example_tree with (Dir entries) in E.
    refine (proj1 (report_entries_are_eligible default_config [] entries
              (default_patterns ++ [py "(?:^|/)temp(?:/.*)?$"]) st doc
              (py "a.txt") (mkFileStats 11 2 1) _ L E _)).
    + vm_compute. reflexivity.
    + vm_compute in E. injection E as <- _. left. reflexivity.
  - vm_compute in E. discriminate E.
Defined.

(** X8.  Without an exclusion file in the root nothing is excluded:
    whatever the patterns of the caller, whatever the names on the way,
    every file with a supported extension, a size within the limit, a
    normalized content that is not empty and a truncation step that returns
    is recorded. *)
Theorem without_exclusion_file_nothing_is_excluded :
  forall cfg ignore_patterns entries st doc
         segs file_size text tag cleaned estimate body,
    lookup (py ".gitignore") entries = None ->
    flatten cfg ignore_patterns (Dir entries) = Some (st, doc) ->
    segs <> [] ->
    node_at (Dir entries) segs = Some (File file_size (Some text)) ->
    lookup (lower (snd (OsPath.splitext (path_of segs)))) SUPPORTED_EXTENSIONS
      = Some tag ->
    (file_size <= max_file_size cfg)%Z ->
    _clean_code text (path_of segs) = Some cleaned -> cleaned <> [] ->
    _estimate_tokens cleaned = Some estimate ->
    truncate cfg cleaned estimate = Some body ->
    In (path_of segs) (map fst (file_stats st)).
Proof.
  intros cfg ips entries st doc segs file_size text tag cleaned estimate body
         Hno H Hne Hat Hext Hsize Hc Hcl He Ht.
  assert (L : _load_gitignore (lookup (py ".gitignore") entries) ips = Some [])
    by (rewrite Hno; reflexivity).
  apply (every_eligible_file_is_recorded cfg ips entries [] st doc
           segs file_size text tag cleaned estimate body L H Hne Hat);
    try assumption.
  intros k _. reflexivity.
Qed.

(** X8 on a tree without exclusion file: the file below temp is recorded
    although the caller gives the rule temp/. *)
Lemma without_exclusion_file_nothing_is_excluded_witness :
  exists st doc,
    flatten default_config [py "temp/"]
      (Dir [ (py "temp", Dir [ (py "x.py", File 5 (Some (py "x = 1"))) ]) ])
    = Some (st, doc) /\
    In (py "temp/x.py") (map fst (file_stats st)).
Proof.
  pose (entries := [ (py "temp", Dir [ (py "x.py", File 5 (Some (py "x = 1"))) ]) ]).
  destruct (flatten default_config [py "temp/"] (Dir entries)) as [[st doc]|] eqn:E.
  - exists st, doc. split; [exact E|].
    refine (without_exclusion_file_nothing_is_excluded default_config [py "temp/"]
              entries st doc [py "temp"; py "x.py"] 5 (py "x = 1") (py "python")
              (py "x = 1") 3 (py "x = 1") _ E _ _ _ _ _ _ _ _).
    + reflexivity.
    + discriminate.
    + vm_compute. reflexivity.
    + vm_compute. reflexivity.
    + vm_compute. discriminate.
    + vm_compute. reflexivity.
    + discriminate.
    + vm_compute. reflexivity.
    + vm_compute. reflexivity.
  - vm_compute in E. discriminate E.
Defined.

(** X9.  An empty pattern among those of the caller excludes everything:
    [_glob_to_regex] returns it as it is, the empty pattern is found in
    every path, and with an exclusion file in the root the report is empty.
    The value of the option [--ignore] yields such a pattern as soon as it
    ends with a comma. *)
Theorem empty_pattern_excludes_everything :
  forall cfg ignore_patterns entries size text st doc,
    In [] ignore_patterns ->
    lookup (py ".gitignore") entries = Some (File size (Some text)) ->
    flatten cfg ignore_patterns (Dir entries) = Some (st, doc) ->
    _glob_to_regex [] = [] /\
    (forall value, In [] (Cli.parse_ignore (Some (value ++ py ",")))) /\
    file_stats st = [] /\ flattened_content st = [].
Proof.
  intros cfg ips entries size text st doc Hin Hg H.
  split; [reflexivity|]. split; [intros value; apply parse_ignore_comma|].
  unfold flatten in H. rewrite Hg in H.
  destruct (_load_gitignore (Some (File size (Some text))) ips) as [rules|] eqn:L;
    [|discriminate].
  cbn [bind] in H.
  assert (All : forall p, _should_ignore rules p = Some true).
  { apply should_ignore_all.
    - exact (load_gitignore_compiles _ _ _ L).
    - apply load_gitignore_rules in L. subst rules.
      apply in_or_app. right. apply in_or_app. right.
      apply in_map_iff. exists []. now split. }
  rewrite (walk_all_ignored cfg rules All) in H. cbn [bind] in H.
  destruct (save_output (mkState [] [])); [|discriminate].
  cbn [bind] in H. injection H as <- _. now split.
Qed.

(** X9 on the option value a followed by a comma. *)
Lemma empty_pattern_excludes_everything_witness :
  exists st doc,
    flatten default_config (Cli.parse_ignore (Some (py "a,")))
      (Dir [ (py ".gitignore", File 0 (Some []));
             (py "m.py", File 5 (Some (py "x = 1"))) ])
    = Some (st, doc) /\
    file_stats st = [].
Proof.
  pose (entries := [ (py ".gitignore", File 0 (Some []));
                     (py "m.py", File 5 (Some (py "x = 1"))) ]).
  destruct (flatten default_config (Cli.parse_ignore (Some (py "a,"))) (Dir entries))
    as [[st doc]|] eqn:E.
  - exists st, doc. split; [exact E|].
    refine (proj1 (proj2 (proj2 (empty_pattern_excludes_everything default_config
              (Cli.parse_ignore (Some (py "a,"))) entries 0 [] st doc _ _ E)))).
    + vm_compute. right. now left.
    + reflexivity.
  - vm_compute in E. discriminate E.
Defined.

(** X10.  A name listed in the exclusion file is never recorded: when a
    line of the file is a name without separator or wildcard, no path of
    the statistics of a well-formed tree has this name as its last
    component. *)
Theorem listed_name_is_never_recorded :
  forall cfg ignore_patterns entries size text st doc line path,
    wf_node (Dir entries) = true ->
    lookup (py ".gitignore") entries = Some (File size (Some text)) ->
    flatten cfg ignore_patterns (Dir entries) = Some (st, doc) ->
    In line (split LF text) ->
    strip line <> [] ->
    startswith (strip line) (py "#") = false ->
    startswith (strip line) (py "!") = false ->
    wildfree (strip line) = true -> sepfree (strip line) = true ->
    In path (map fst (file_stats st)) ->
    OsPath.basename path <> strip line.
Proof.
  intros cfg ips entries size text st doc line path
         Hwf Hg H Hl Hne Hh Hb Hw Hs Hin Eb.
  destruct (_load_gitignore (Some (File size (Some text))) ips) as [rules|] eqn:L.
  2:{ unfold flatten in H. now rewrite Hg, L in H. }
  assert (L' : _load_gitignore (lookup (py ".gitignore") entries) ips = Some rules)
    by now rewrite Hg.
  pose proof (recorded_not_ignored cfg ips entries rules st doc Hwf L' H path Hin) as N.
  assert (T : _should_ignore rules path = Some true); [|congruence].
  apply (should_ignore_hit rules path (_glob_to_regex (strip line))).
  - exact (load_gitignore_compiles _ _ _ L).
  - apply load_gitignore_rules in L. subst rules.
    apply in_or_app. right. apply in_or_app. left.
    now apply gitignore_lines_In.
  - assert (G : simple_glob false false (strip line) false = strip line).
    { unfold simple_glob. cbn [app]. apply app_nil_r. }
    rewrite <- G.
    apply name_rule_hits; try assumption.
    + now right.
    + rewrite Eb. now apply (line_one_line text line).
    + exists []. split; [exact Eb | reflexivity].
Qed.

(** X10 on a tree whose exclusion file lists notes.txt. *)
Lemma listed_name_is_never_recorded_witness :
  exists st doc,
    flatten default_config []
      (Dir [ (py ".gitignore", File 9 (Some (py "notes.txt")));
             (py "docs", Dir [ (py "notes.txt", File 2 (Some (py "hi"))) ]);
             (py "a.txt", File 2 (Some (py "hi"))) ])
    = Some (st, doc) /\
    OsPath.basename (py "a.txt") <> py "notes.txt".
Proof.
  pose (entries := [ (py ".gitignore", File 9 (Some (py "notes.txt")));
                     (py "docs", Dir [ (py "notes.txt", File 2 (Some (py "hi"))) ]);
                     (py "a.txt", File 2 (Some (py "hi"))) ]).
  destruct (flatten default_config [] (Dir entries)) as [[st doc]|] eqn:E.
  - exists st, doc. split; [exact E|].
    refine (listed_name_is_never_recorded default_config [] entries 9
              (py "notes.txt") st doc (py "notes.txt") (py "a.txt")
              _ _ E _ _ _ _ _ _ _).
    + vm_compute. reflexivity.
    + reflexivity.
    + vm_compute. now left.
    + vm_compute. discriminate.
    + vm_compute. reflexivity.
    + vm_compute. reflexivity.
    + vm_compute. reflexivity.
    + vm_compute. reflexivity.
    + vm_compute in E. injection E as <- _. now left.
  - vm_compute in E. discriminate E.
Defined.

(** ** Normalization *)

(** X11.  Normalization returns for every text and every path, and it only
    removes: the result is the text with characters taken out and white
    space replaced by white space, so it is not longer, every character of
    it that is not white space is one of the text, and its estimate is not
    larger. *)
Theorem normalization_only_removes :
  forall code file_path,
    exists cleaned before after,
      _clean_code code file_path = Some cleaned /\
      thins cleaned code /\
      length cleaned <= length code /\
      (forall c, In c cleaned -> isspace c = false -> In c code) /\
      _estimate_tokens code = Some before /\
      _estimate_tokens cleaned = Some after /\
      (after <= before)%Z.
Proof.
  intros code file_path.
  destruct (clean_code_total code file_path) as [cleaned Hc].
  pose proof (clean_code_thins code file_path cleaned Hc) as T.
  exists cleaned, (token_count code), (token_count cleaned).
  split; [exact Hc|]. split; [exact T|].
  split; [now apply thins_length|]. split.
  - intros c Hin Hs. destruct (thins_In _ _ T c Hin) as [I | I]; [exact I | congruence].
  - split; [apply estimate_tokens_eq|]. split; [apply estimate_tokens_eq|].
    now apply thins_tokens.
Qed.

(** X12.  In a Python or Ruby file no hash survives normalization, be it
    the start of a comment or a character of a string. *)
Theorem no_hash_survives :
  forall code file_path cleaned,
    lower (snd (OsPath.splitext file_path)) = py ".py" \/
    lower (snd (OsPath.splitext file_path)) = py ".rb" ->
    _clean_code code file_path = Some cleaned ->
    ~ In "#"%char cleaned.
Proof.
  intros code file_path cleaned Hext Hc Hin.
  unfold _clean_code in Hc.
  assert (G : exists g,
             _get_language_specific_patterns (lower (snd (OsPath.splitext file_path)))
               = Some g /\ single_line g = py "#.*$").
  { destruct Hext as [-> | ->]; eexists; split; reflexivity. }
  destruct G as (g & Eg & Hg). rewrite Eg in Hc.
  destruct (strip_comments (Some g) code) as [out|] eqn:S; [|discriminate].
  cbn [bind] in Hc. injection Hc as <-.
  destruct (thins_In _ _ (clean_lines_thins out) _ Hin) as [I | I]; [|discriminate I].
  exact (hash_grammar_clean g code out Hg S I).
Qed.

(** X12 on a Python line with a colour in a string. *)
Lemma no_hash_survives_witness :
  _clean_code (py "c = '#fff'") (py "m.py") = Some (py "c = '") /\
  ~ In "#"%char (py "c = '").
Proof.
  assert (E : _clean_code (py "c = '#fff'") (py "m.py") = Some (py "c = '"))
    by (vm_compute; reflexivity).
  assert (X : lower (snd (OsPath.splitext (py "m.py"))) = py ".py" \/
              lower (snd (OsPath.splitext (py "m.py"))) = py ".rb")
    by (left; vm_compute; reflexivity).
  split; [exact E|].
  exact (no_hash_survives (py "c = '#fff'") (py "m.py") (py "c = '") X E).
Defined.

(** X13.  In a file of a language with the C-style grammar (JavaScript,
    TypeScript, Java, Go, Rust) the normalized text holds no double slash
    and no block opened by a slash and a star and closed by a star and a
    slash. *)
Theorem c_style_comments_do_not_survive :
  forall code file_path tag cleaned,
    lookup (lower (snd (OsPath.splitext file_path))) SUPPORTED_EXTENSIONS = Some tag ->
    In tag [py "javascript"; py "typescript"; py "java"; py "go"; py "rust"] ->
    _clean_code code file_path = Some cleaned ->
    (forall a b, cleaned <> a ++ py "//" ++ b) /\
    (forall a b c, cleaned <> a ++ py "/*" ++ b ++ py "*/" ++ c).
Proof.
  intros code file_path tag cleaned Hext Htag Hc.
  unfold _clean_code, _get_language_specific_patterns, language_tag in Hc.
  rewrite Hext, (c_style_grammars tag Htag), strip_comments_c_style in Hc.
  cbn [bind] in Hc. injection Hc as <-.
  destruct (c_style_clean code) as [D P]. split.
  - intros a b E. rewrite E, has_dslash_intro in D. discriminate.
  - intros a b c E. rewrite E, has_pair_intro in P. discriminate.
Qed.

(** X13 on a JavaScript line with an address in a string. *)
Lemma c_style_comments_do_not_survive_witness :
  _clean_code (py "u = 'http://x'; /* a */ f();") (py "m.js")
    = Some (py "u = 'http:") /\
  forall a b, py "u = 'http:" <> a ++ py "//" ++ b.
Proof.
  assert (E : _clean_code (py "u = 'http://x'; /* a */ f();") (py "m.js")
              = Some (py "u = 'http:")) by (vm_compute; reflexivity).
  assert (X : lookup (lower (snd (OsPath.splitext (py "m.js")))) SUPPORTED_EXTENSIONS
              = Some (py "javascript")) by (vm_compute; reflexivity).
  assert (T : In (py "javascript")
                [py "javascript"; py "typescript"; py "java"; py "go"; py "rust"])
    by (left; reflexivity).
  split; [exact E|].
  exact (proj1 (c_style_comments_do_not_survive
                  (py "u = 'http://x'; /* a */ f();") (py "m.js") (py "javascript")
                  (py "u = 'http:") X T E)).
Defined.

(** ** The token estimate *)

(** X14.  The estimate is defined for every text; it lies between zero and
    the length of the text, it is zero exactly for the texts made of white
    space, and no prefix of a text has a larger estimate than the text. *)
Theorem estimate_is_bounded :
  forall text,
    exists n,
      _estimate_tokens text = Some n /\
      (0 <= n <= Z.of_nat (length text))%Z /\
      (n = 0%Z <-> forallb isspace text = true) /\
      forall k, exists m,
        _estimate_tokens (firstn k text) = Some m /\ (m <= n)%Z.
Proof.
  intros text. exists (token_count text).
  split; [apply estimate_tokens_eq|].
  split; [apply token_count_bounds|].
  split; [apply token_count_zero|].
  intros k. exists (token_count (firstn k text)).
  split; [apply estimate_tokens_eq | apply token_count_firstn].
Qed.

(** X15.  The estimate is additive over white space: the estimate of two
    texts joined by a white space character is the sum of their
    estimates. *)
Theorem estimate_is_additive_over_white_space :
  forall a c b na nb,
    isspace c = true ->
    _estimate_tokens a = Some na ->
    _estimate_tokens b = Some nb ->
    _estimate_tokens (a ++ c :: b) = Some (na + nb)%Z.
Proof.
  intros a c b na nb Hc Ha Hb.
  rewrite estimate_tokens_eq in *. injection Ha as <-. injection Hb as <-.
  f_equal. rewrite (token_count_cut a c b (space_not_word c Hc)).
  rewrite (space_not_symbol c Hc). lia.
Qed.

(** X15 on two lines. *)
Lemma estimate_is_additive_over_white_space_witness :
  _estimate_tokens (py "x = 1" ++ LF :: py "f(x)") = Some (3 + 4)%Z.
Proof.
  apply (estimate_is_additive_over_white_space (py "x = 1") LF (py "f(x)") 3 4);
    vm_compute; reflexivity.
Defined.

(** ** The division of the cut *)

(** X16.  [int(a / b)] is the integer quotient, rounded towards zero, as
    long as both numbers are below [2^53] in absolute value; beyond, the
    rounding of the floating-point quotient can make it one more. *)
Theorem cut_division_is_exact_below_2_53 :
  forall a b,
    (Z.abs a < 2 ^ 53)%Z -> (0 < Z.abs b < 2 ^ 53)%Z ->
    int_div a b = Some (Z.quot a b) /\
    int_div (134217730 * 2 ^ 27) (2 ^ 27 + 1) = Some 134217729%Z /\
    Z.quot (134217730 * 2 ^ 27) (2 ^ 27 + 1) = 134217728%Z.
Proof.
  intros a b Ha Hb. split; [now apply int_div_exact|].
  split; vm_compute; reflexivity.
Qed.

(** X16 on a negative dividend. *)
Lemma cut_division_is_exact_below_2_53_witness :
  int_div (-7) 2 = Some (-3)%Z.
Proof.
  assert (A : (Z.abs (-7) < 2 ^ 53)%Z) by (vm_compute; reflexivity).
  assert (B : (0 < Z.abs 2 < 2 ^ 53)%Z) by (split; vm_compute; reflexivity).
  exact (proj1 (cut_division_is_exact_below_2_53 (-7) 2 A B)).
Defined.

(** ** The instance and the command line *)

(** X17.  [flatten] can be called again: on the instance left by a first
    call on a new instance, over the same tree, a second call writes the
    same document, although the patterns of the exclusion file are then
    held twice. *)
Theorem flatten_is_repeatable :
  forall cfg entries ignore_patterns self0 self1 doc,
    Cli.__init__ (Some (Dir entries)) ignore_patterns = Some self0 ->
    Cli.flatten cfg (Dir entries) true self0 = Some (self1, doc) ->
    exists self2,
      Cli.flatten cfg (Dir entries) true self1 = Some (self2, doc) /\
      Cli.report self2 = Cli.report self1 /\
      (lookup (py ".gitignore") entries <> None ->
       Cli.gitignore_patterns self2 =
       Cli.gitignore_patterns self1 ++ Cli.gitignore_patterns self1).
Proof.
  intros cfg entries ips self0 self1 doc Hi H.
  cbn [Cli.__init__] in Hi. injection Hi as <-.
  unfold Cli.flatten in *.
  destruct (lookup (py ".gitignore") entries) as [[size [text|]|es]|];
    cbn [Cli._load_gitignore bind] in H; try discriminate;
    cbn [Cli.ignore_patterns Cli.gitignore_patterns Cli.all_ignore_patterns
         Cli.report app] in H.
  - (* an exclusion file *)
    set (lines := gitignore_lines (split LF text)) in *.
    set (conv := map _glob_to_regex
                   (match ips with Some l => l | None => [] end)) in *.
    destruct (walk cfg (default_patterns ++ lines ++ conv) [] (Dir entries)
                (mkState [] [])) as [st|] eqn:W; [|discriminate].
    cbn [bind] in H. unfold Cli.save_output in H. cbn [Cli.report] in H.
    destruct (save_output st) as [d|] eqn:S; [|discriminate].
    cbn [bind] in H. injection H as <- <-.
    cbn [Cli._load_gitignore bind Cli.ignore_patterns Cli.gitignore_patterns
         Cli.all_ignore_patterns Cli.report].
    fold lines. fold conv.
    assert (C1 : Forall compiles (default_patterns ++ lines ++ conv)).
    { apply Forall_app. split; [apply default_patterns_compile|].
      apply Forall_app. split; [apply gitignore_lines_compile|].
      apply Forall_forall. intros p Hp. apply in_map_iff in Hp.
      destruct Hp as (q & <- & _). apply glob_to_regex_compiles. }
    assert (C2 : Forall compiles (default_patterns ++ (lines ++ lines) ++ conv)).
    { apply Forall_app. split; [apply default_patterns_compile|].
      apply Forall_app. split.
      - apply Forall_app. split; apply gitignore_lines_compile.
      - apply Forall_forall. intros p Hp. apply in_map_iff in Hp.
        destruct Hp as (q & <- & _). apply glob_to_regex_compiles. }
    assert (V : forall p,
               _should_ignore (default_patterns ++ (lines ++ lines) ++ conv) p =
               _should_ignore (default_patterns ++ lines ++ conv) p).
    { intros p. rewrite !should_ignore_exists by assumption. f_equal.
      apply existsb_same. intros x. rewrite !in_app_iff. tauto. }
    rewrite (walk_ext cfg _ _ V (Dir entries) [] (mkState [] [])), W.
    cbn [bind]. unfold Cli.save_output. cbn [Cli.report]. rewrite S. cbn [bind].
    eexists. split; [reflexivity|]. split; [reflexivity|]. intros _. reflexivity.
  - (* no exclusion file *)
    destruct (walk cfg [] [] (Dir entries) (mkState [] [])) as [st|] eqn:W;
      [|discriminate].
    cbn [bind] in H. unfold Cli.save_output in H. cbn [Cli.report] in H.
    destruct (save_output st) as [d|] eqn:S; [|discriminate].
    cbn [bind] in H. injection H as <- <-.
    cbn [Cli._load_gitignore bind Cli.ignore_patterns Cli.gitignore_patterns
         Cli.all_ignore_patterns Cli.report].
    rewrite W. cbn [bind]. unfold Cli.save_output. cbn [Cli.report].
    rewrite S. cbn [bind].
    eexists. split; [reflexivity|]. split; [reflexivity|]. intros N. now elim N.
Qed.

(** X17 on the example tree: after the second call the rule of the
    exclusion file is held twice, and the document is the same. *)
Lemma flatten_is_repeatable_witness :
  exists self1 self2 doc,
    Cli.flatten default_config example_tree true
      (Cli.mkFlattener [] [] [] (mkState [] [])) = Some (self1, doc) /\
    Cli.flatten default_config example_tree true self1 = Some (self2, doc) /\
    Cli.gitignore_patterns self2 =
      [py "(?:^|/)temp(?:/.*)?$"; py "(?:^|/)temp(?:/.*)?$"].
Proof.
  pose (entries := [ (py "temp", Dir [ (py "x.py", File 5 (Some (py "x = 1"))) ]);
                     (py ".gitignore", File 6 (Some (py "temp/")));
                     (py "src", Dir [ (py "m.js", File 20 (Some (py "f(1); // one"))) ]);
                     (py "a.txt", File 11 (Some (py "hello world"))) ]).
  destruct (Cli.flatten default_config (Dir entries) true
              (Cli.mkFlattener [] [] [] (mkState [] []))) as [[self1 doc]|] eqn:E.
  - destruct (flatten_is_repeatable default_config entries None
                (Cli.mkFlattener [] [] [] (mkState [] [])) self1 doc eq_refl E)
      as (self2 & E2 & _ & G).
    exists self1, self2, doc. split; [exact E|]. split; [exact E2|].
    rewrite G by (vm_compute; discriminate).
    vm_compute in E. injection E as <- _. reflexivity.
  - vm_compute in E. discriminate E.
Defined.


(** ** Files without extension *)

(** X19.  A file whose name holds no dot has no extension and is never
    recorded, whatever its content: a Makefile, a LICENSE, a script
    without suffix. *)
Theorem file_without_extension_is_skipped :
  forall cfg relative_path file_size content st,
    forallb (fun x => negb (Ascii.eqb x "."%char)) (OsPath.basename relative_path)
      = true ->
    snd (OsPath.splitext relative_path) = [] /\
    _process_file cfg relative_path file_size content st = st.
Proof.
  intros cfg path file_size content st F.
  assert (E : snd (OsPath.splitext path) = []).
  { unfold OsPath.splitext.
    replace (OsPath.after_last OsPath.sep path <? OsPath.after_last "."%char path)
      with false; [reflexivity|].
    symmetry. apply Nat.ltb_ge. now apply dot_before_sep. }
  split; [exact E|].
  unfold _process_file, process_file_body. rewrite E. reflexivity.
Qed.

(** X19 on a Makefile in a directory whose name holds a dot. *)
Lemma file_without_extension_is_skipped_witness :
  _process_file default_config (py "v1.2/Makefile") 9 (Some (py "all: x"))
    (mkState [] []) = mkState [] [].
Proof.
  assert (F : forallb (fun x => negb (Ascii.eqb x "."%char))
                (OsPath.basename (py "v1.2/Makefile")) = true)
    by (vm_compute; reflexivity).
  exact (proj2 (file_without_extension_is_skipped default_config (py "v1.2/Makefile")
                  9 (Some (py "all: x")) (mkState [] []) F)).
Defined.
